(** * Live audio session manager: codec, playback scheduler, tool dispatch

    A shallow embedding of [LiveSessionManager] (services/liveService.ts):
    the PCM codec ([createPcmBlob], [decodeAudioData]), the playback
    scheduler ([handleMessage]'s audio branch, [stopAudioPlayback]), the
    tool-call dispatcher, and the session life cycle ([startSession],
    [stopSession], [cleanup]); and of the pure parts of the tool callback
    the application (App.tsx) passes to [startSession].

    Conventions.
    - JavaScript numbers that carry audio samples or times are modelled by
      exact rationals [Q].  Every value the codec computes from a
      [Float32Array] element is a dyadic rational with fewer than 53
      significant bits, so the codec arithmetic is exact in the source too.
      Times ([currentTime], [duration], [nextStartTime]) are idealised.
    - A "binary string" (all code units below 256) is a [string]; a
      [Uint8Array] and an [Int16Array] are lists of [Z] with the element
      range written out.
    - Platform functions the source calls ([btoa], [atob], the typed-array
      constructors, [createBuffer]) are modelled after their standards and
      marked as such.
    - Async functions give up control at their awaits.  [handleMessage]
      is taken up to each [await onToolCall(...)] in [Loop]; [stopSession]
      and [startSession] are taken await by await in [Calls], and as one
      step each in [Live] for a call that nothing interrupts. *)

From Stdlib Require Import ZArith QArith Qabs List ListSet String Ascii.
From Stdlib Require Import Bool Lia Lqa Arith DecimalString Permutation.
Import ListNotations.

Set Implicit Arguments.

(* ================================================================== *)
(** ** Platform: base64 ([btoa] / [atob]) *)
(* ================================================================== *)

Module Base64.

Local Open Scope Z_scope.

(** The code of a character, and the character of a code below 256. *)
Definition code (c : ascii) : Z := Z.of_nat (nat_of_ascii c).
Definition chr (z : Z) : ascii := ascii_of_nat (Z.to_nat z).

(** The base64 alphabet: A-Z, a-z, 0-9, '+', '/'. *)
Definition enc (v : Z) : ascii :=
  if v <? 26 then chr (65 + v)
  else if v <? 52 then chr (97 + (v - 26))
  else if v <? 62 then chr (48 + (v - 52))
  else if v =? 62 then "+"%char
  else "/"%char.

Definition dec (c : ascii) : option Z :=
  let n := code c in
  if (65 <=? n) && (n <=? 90) then Some (n - 65)
  else if (97 <=? n) && (n <=? 122) then Some (n - 97 + 26)
  else if (48 <=? n) && (n <=? 57) then Some (n - 48 + 52)
  else if n =? 43 then Some 62
  else if n =? 47 then Some 63
  else None.

Definition pad : ascii := "="%char.

(** [btoa]: three bytes become four sextets; a tail of one or two bytes is
    padded with '='. *)
Fixpoint btoa_chars (bs : list Z) : list ascii :=
  match bs with
  | [] => []
  | [a] => [enc (a / 4); enc ((a mod 4) * 16); pad; pad]
  | [a; b] => [enc (a / 4); enc ((a mod 4) * 16 + b / 16);
               enc ((b mod 16) * 4); pad]
  | a :: b :: c :: rest =>
      enc (a / 4) :: enc ((a mod 4) * 16 + b / 16)
      :: enc ((b mod 16) * 4 + c / 64) :: enc (c mod 64)
      :: btoa_chars rest
  end.

Definition btoa (binary : string) : string :=
  string_of_list_ascii
    (btoa_chars (map code (list_ascii_of_string binary))).

(** [atob] is the forgiving-base64 decode of the HTML standard:
    ASCII whitespace is removed; if the length is then a multiple of four,
    one or two trailing '=' are removed; a length of 1 modulo 4 or any
    character outside the alphabet is a failure (InvalidCharacterError). *)
Definition is_ws (c : ascii) : bool :=
  let n := code c in
  (n =? 9) || (n =? 10) || (n =? 12) || (n =? 13) || (n =? 32).

Definition strip_padding (cs : list ascii) : list ascii :=
  match rev cs with
  | p1 :: p2 :: r =>
      if Ascii.eqb p1 pad then
        if Ascii.eqb p2 pad then rev r else rev (p2 :: r)
      else cs
  | [p1] => if Ascii.eqb p1 pad then [] else cs
  | [] => cs
  end.

Fixpoint sextets (cs : list ascii) : option (list Z) :=
  match cs with
  | [] => Some []
  | c :: r =>
      match dec c, sextets r with
      | Some v, Some vs => Some (v :: vs)
      | _, _ => None
      end
  end.

Fixpoint decode_groups (vs : list Z) : list Z :=
  match vs with
  | a :: b :: c :: d :: rest =>
      (a * 4 + b / 16) :: ((b mod 16) * 16 + c / 4) :: ((c mod 4) * 64 + d)
      :: decode_groups rest
  | [a; b; c] => [a * 4 + b / 16; (b mod 16) * 16 + c / 4]
  | [a; b] => [a * 4 + b / 16]
  | _ => []
  end.

Definition atob (data : string) : option string :=
  let cs := filter (fun c => negb (is_ws c)) (list_ascii_of_string data) in
  let cs := if (Z.of_nat (List.length cs) mod 4 =? 0) then strip_padding cs
            else cs in
  if Z.of_nat (List.length cs) mod 4 =? 1 then None
  else match sextets cs with
       | None => None
       | Some vs => Some (string_of_list_ascii (map chr (decode_groups vs)))
       end.

(** The sextets and the padding [btoa_chars] writes, apart. *)
Fixpoint to_sextets (bs : list Z) : list Z :=
  match bs with
  | [] => []
  | [a] => [a / 4; (a mod 4) * 16]
  | [a; b] => [a / 4; (a mod 4) * 16 + b / 16; (b mod 16) * 4]
  | a :: b :: c :: rest =>
      a / 4 :: (a mod 4) * 16 + b / 16 :: (b mod 16) * 4 + c / 64
      :: c mod 64 :: to_sextets rest
  end.

Fixpoint padding (bs : list Z) : list ascii :=
  match bs with
  | [] => []
  | [a] => [pad; pad]
  | [a; b] => [pad]
  | _ :: _ :: _ :: rest => padding rest
  end.

Definition is_byte (z : Z) : Prop := 0 <= z < 256.
Definition is_sextet (v : Z) : Prop := 0 <= v < 64.

End Base64.

(* ================================================================== *)
(** ** PCM codec: [createPcmBlob] and [decodeAudioData] *)
(* ================================================================== *)

Module Pcm.

(** An element of a [Float32Array]: a finite value, an infinity or NaN. *)
Inductive float : Type :=
| Fin (q : Q)
| PosInf
| NegInf
| NaN.

Definition Math_min (a b : float) : float :=
  match a, b with
  | NaN, _ | _, NaN => NaN
  | NegInf, _ | _, NegInf => NegInf
  | PosInf, x | x, PosInf => x
  | Fin p, Fin q => Fin (if Qle_bool p q then p else q)
  end.

Definition Math_max (a b : float) : float :=
  match a, b with
  | NaN, _ | _, NaN => NaN
  | PosInf, _ | _, PosInf => PosInf
  | NegInf, x | x, NegInf => x
  | Fin p, Fin q => Fin (if Qle_bool p q then q else p)
  end.

(** [s < 0] *)
Definition lt_zero (s : float) : bool :=
  match s with
  | Fin q => negb (Qle_bool 0 q)
  | NegInf => true
  | PosInf | NaN => false
  end.

(** [s * k] for a positive integer constant [k] *)
Definition times (s : float) (k : Z) : float :=
  match s with
  | Fin q => Fin (q * inject_Z k)
  | other => other
  end.

(** Truncation toward zero. *)
Definition trunc (q : Q) : Z := Z.quot (Qnum q) (Zpos (Qden q)).

(** Two's-complement wrap to 16 bits. *)
Definition wrap16 (z : Z) : Z := ((z + 32768) mod 65536 - 32768)%Z.

(** Storing a number into an [Int16Array] (ToInt16): NaN and the
    infinities become 0, a finite value is truncated and wrapped. *)
Definition ToInt16 (x : float) : Z :=
  match x with
  | Fin q => wrap16 (trunc q)
  | PosInf | NegInf | NaN => 0%Z
  end.

(** Clamp to [-1, 1], then scale: the body of the first loop. *)
Definition clamp (x : float) : float := Math_max (Fin (-1)) (Math_min (Fin 1) x).

Definition sample_to_int16 (x : float) : Z :=
  let s := clamp x in
  ToInt16 (if lt_zero s then times s 0x8000 else times s 0x7FFF).

(** The two bytes of a 16-bit element as a [Uint8Array] over the same
    buffer sees them; typed arrays use the byte order of the platform,
    taken to be little-endian. *)
Definition int16_bytes (v : Z) : list Z :=
  let u := (v mod 65536)%Z in [Z.land u 255; Z.shiftr u 8].

Definition bytes_of_int16 (a : list Z) : list Z := flat_map int16_bytes a.

(** [String.fromCharCode] over the byte view. *)
Definition binary_of_bytes (bytes : list Z) : string :=
  string_of_list_ascii (map Base64.chr bytes).

(** [charCodeAt] over a binary string. *)
Definition bytes_of_binary (s : string) : list Z :=
  map Base64.code (list_ascii_of_string s).

Record Blob : Type := { data : string; mimeType : string }.

Definition createPcmBlob (samples : list float) : Blob :=
  let int16 := map sample_to_int16 samples in
  let binary := binary_of_bytes (bytes_of_int16 int16) in
  {| data := Base64.btoa binary; mimeType := "audio/pcm;rate=16000" |}.

(** What a failing decode throws. *)
Inductive DecodeError : Type :=
| InvalidCharacterError   (* atob: malformed base64 *)
| RangeError              (* Int16Array: byte length not a multiple of 2 *)
| NotSupportedError.      (* createBuffer: zero frames *)

Definition to_signed16 (u : Z) : Z :=
  (if u <? 32768 then u else u - 65536)%Z.

(** [new Int16Array(bytes.buffer)]: a RangeError unless the byte length
    is a multiple of 2; elements are read in platform (little-endian)
    order. *)
Fixpoint Int16Array_of_bytes (bs : list Z) : option (list Z) :=
  match bs with
  | [] => Some []
  | [_] => None
  | lo :: hi :: rest =>
      match Int16Array_of_bytes rest with
      | Some a => Some (to_signed16 (Z.lor lo (Z.shiftl hi 8)) :: a)
      | None => None
      end
  end.

Record AudioBuffer : Type := {
  numberOfChannels : Z;
  sampleRate : Z;
  channelData : list Q
}.

Definition frames (b : AudioBuffer) : nat := List.length (channelData b).

Definition duration (b : AudioBuffer) : Q :=
  inject_Z (Z.of_nat (frames b)) / inject_Z (sampleRate b).

(** [ctx.createBuffer(numChannels, frameCount, sampleRate)]: a silent
    buffer; Web Audio rejects a length of zero frames. *)
Definition createBuffer (numChannels : Z) (frameCount : nat) (rate : Z)
  : option AudioBuffer :=
  match frameCount with
  | O => None
  | S _ => Some {| numberOfChannels := numChannels; sampleRate := rate;
                   channelData := repeat 0 frameCount |}
  end.

Definition decodeAudioData (base64 : string) : AudioBuffer + DecodeError :=
  match Base64.atob base64 with
  | None => inr InvalidCharacterError
  | Some binaryString =>
      let bytes := bytes_of_binary binaryString in
      match Int16Array_of_bytes bytes with
      | None => inr RangeError
      | Some dataInt16 =>
          let numChannels := 1%Z in
          let sampleRate := 24000%Z in
          let frameCount := List.length dataInt16 in
          match createBuffer numChannels frameCount sampleRate with
          | None => inr NotSupportedError
          | Some buffer =>
              inl {| numberOfChannels := numberOfChannels buffer;
                     sampleRate := Pcm.sampleRate buffer;
                     channelData :=
                       map (fun v => inject_Z v / 32768) dataInt16 |}
          end
      end
  end.

(** *** The codec as the specification words it *)

Definition is_int16 (v : Z) : Prop := (-32768 <= v <= 32767)%Z.

(** Saturate outside [-1, 1]; scale a negative sample by 32768 and any
    other by 32767; malformed input counts as zero. *)
Definition spec_quantize (x : float) : Z :=
  match x with
  | Fin q =>
      if Qle_bool q (-1) then (-32768)%Z
      else if Qle_bool 1 q then 32767%Z
      else if negb (Qle_bool 0 q) then trunc (q * 32768)
      else trunc (q * 32767)
  | PosInf => 32767%Z
  | NegInf => (-32768)%Z
  | NaN => 0%Z
  end.

(** Little-endian: the low byte of the two's-complement pattern first. *)
Definition spec_le_bytes (v : Z) : list Z :=
  [(v mod 256)%Z; ((v / 256) mod 256)%Z].

End Pcm.

(* ================================================================== *)
(** ** The session manager *)
(* ================================================================== *)

Module Live.

Import Pcm.

(** JSON values (arguments, results, thrown values) are kept as text. *)
Definition json : Type := string.

(** *** Messages *)

Record FunctionCall : Type := {
  fc_id : string;
  fc_name : string;
  fc_args : json
}.

Inductive ResponseBody : Type :=
| result (r : json)
| error (msg : string).

Record FunctionResponse : Type := {
  fr_id : string;
  fr_name : string;
  fr_response : ResponseBody
}.

Record LiveServerToolCall : Type := { functionCalls : list FunctionCall }.

Record Part : Type := { inlineData : option Blob }.
Record ModelTurn : Type := { parts : option (list Part) }.
Record ServerContent : Type := {
  modelTurn : option ModelTurn;
  interrupted : bool
}.

Record LiveServerMessage : Type := {
  toolCall : option LiveServerToolCall;
  serverContent : option ServerContent
}.

(** [message.serverContent?.modelTurn?.parts?.[0]?.inlineData?.data] *)
Definition base64Audio (message : LiveServerMessage) : option string :=
  match serverContent message with
  | Some sc =>
      match modelTurn sc with
      | Some mt =>
          match parts mt with
          | Some (p :: _) =>
              match inlineData p with
              | Some b => Some (data b)
              | None => None
              end
          | _ => None
          end
      | None => None
      end
  | None => None
  end.

(** [message.serverContent?.interrupted] as a condition *)
Definition isInterrupted (message : LiveServerMessage) : bool :=
  match serverContent message with
  | Some sc => interrupted sc
  | None => false
  end.

(** A string used as a condition: the empty string is falsy. *)
Definition truthy (s : string) : bool :=
  match s with
  | EmptyString => false
  | String _ _ => true
  end.

(** *** Manager state

    Platform objects are known by an identity ([nat]); the identity of a
    newly created object is supplied by the environment. *)

Record AudioContext : Type := { ctx_id : nat; ctx_sampleRate : Z }.

Record LiveSessionManager : Type := {
  activeSessionPromise : option nat;
  inputAudioContext : option AudioContext;
  outputAudioContext : option AudioContext;
  mediaStream : option nat;
  processor : option nat;
  source : option nat;
  nextStartTime : Q;
  sources : list nat;   (* a Set: insertion order, no duplicates *)
  outputNode : option nat
}.

(** The manager as constructed. *)
Definition initial : LiveSessionManager :=
  {| activeSessionPromise := None; inputAudioContext := None;
     outputAudioContext := None; mediaStream := None; processor := None;
     source := None; nextStartTime := 0; sources := [];
     outputNode := None |}.

(** *** Effects on the platform and on the connection *)

Inductive Event : Type :=
| ContextCreated (ctx : nat) (rate : Z)
| ContextClosed (ctx : nat)
| MicAcquired (stream : nat)
| TrackStopped (stream : nat)
| Connected (session : nat)
| CloseRequested (session : nat)
| CaptureWired (src proc : nat)
| ProcessorDisconnected (proc : nat)
| SourceDisconnected (src : nat)
| RealtimeInputSent (session : nat) (media : Blob)
| ToolCallback (call : FunctionCall)
| ToolResponseSent (session : nat) (functionResponses : list FunctionResponse)
| BufferStarted (node : nat) (startAt : Q) (buffer : AudioBuffer)
| BufferStopped (node : nat)
| ConsoleError (msg : string)
| ConsoleWarn (msg : string)
| OnClose
| OnError.

(** *** Playback *)

Definition Math_max (a b : Q) : Q := if Qle_bool a b then b else a.

Definition set_playback (st : LiveSessionManager) (next : Q)
  (pending : list nat) : LiveSessionManager :=
  {| activeSessionPromise := activeSessionPromise st;
     inputAudioContext := inputAudioContext st;
     outputAudioContext := outputAudioContext st;
     mediaStream := mediaStream st;
     processor := processor st;
     source := source st;
     nextStartTime := next;
     sources := pending;
     outputNode := outputNode st |}.

(** [stopAudioPlayback]; [now] is the reading of the output clock. *)
Definition stopAudioPlayback (now : Q) (st : LiveSessionManager)
  : LiveSessionManager * list Event :=
  (set_playback st
     (match outputAudioContext st with
      | Some _ => now
      | None => 0
      end) [],
   map BufferStopped (sources st)).

(** The schedule step of [handleMessage], after a successful decode:
    [node] is the buffer source [createBufferSource] returns. *)
Definition schedule (now : Q) (node : nat) (audioBuffer : AudioBuffer)
  (st : LiveSessionManager) : LiveSessionManager * list Event :=
  let startAt := Math_max (nextStartTime st) now in
  (set_playback st (startAt + duration audioBuffer)
     (ListSet.set_add Nat.eq_dec node (sources st)),
   [BufferStarted node startAt audioBuffer]).

(** The ['ended'] listener of a buffer source. *)
Definition onEnded (node : nat) (st : LiveSessionManager)
  : LiveSessionManager :=
  set_playback st (nextStartTime st)
    (ListSet.set_remove Nat.eq_dec node (sources st)).

(** The [try]/[catch] around decode and schedule. *)
Definition playAudio (now : Q) (node : nat) (base64 : string)
  (st : LiveSessionManager) : LiveSessionManager * list Event :=
  match decodeAudioData base64 with
  | inl audioBuffer => schedule now node audioBuffer st
  | inr _ => (st, [ConsoleError "Error decoding audio:"])
  end.

(** *** Tool calls *)

Inductive Outcome : Type :=
| Resolved (value : json)
| Rejected (reason : json).

Definition respond (fc : FunctionCall) (o : Outcome) : FunctionResponse :=
  match o with
  | Resolved r =>
      {| fr_id := fc_id fc; fr_name := fc_name fc;
         fr_response := result r |}
  | Rejected _ =>
      {| fr_id := fc_id fc; fr_name := fc_name fc;
         fr_response := error "Failed to execute function" |}
  end.

(** [this.activeSessionPromise?.then(session => session.sendToolResponse)] *)
Definition sendToolResponse (responses : list FunctionResponse)
  (st : LiveSessionManager) : list Event :=
  match activeSessionPromise st with
  | Some session => [ToolResponseSent session responses]
  | None => []
  end.

(** The chunk the handler goes on to decode: the condition
    [base64Audio && this.outputAudioContext && this.outputNode]. *)
Definition chunkToDecode (message : LiveServerMessage)
  (st : LiveSessionManager) : option string :=
  match base64Audio message, outputAudioContext st, outputNode st with
  | Some b, Some _, Some _ => if truthy b then Some b else None
  | _, _, _ => None
  end.

(** [if (message.serverContent?.interrupted) this.stopAudioPlayback()] *)
Definition onInterrupted (now : Q) (message : LiveServerMessage)
  (st : LiveSessionManager) : LiveSessionManager * list Event :=
  if isInterrupted message then stopAudioPlayback now st else (st, []).

(** Everything [handleMessage] does once the tool loop is over;
    [responses] is [None] when the tool branch was not entered.

    The tool response is not sent where the source writes it: [then] on
    the session promise (which has fulfilled: the message came in on its
    connection) only queues the send, and it is performed as soon as the
    handler gives up control.  With a chunk to decode that is at
    [await this.decodeAudioData(...)], so the send comes before the
    scheduling (or the logged error) and the interruption; without one
    the handler runs to its end first, so the send comes after the
    interruption. *)
Definition afterToolCalls (now : Q) (node : nat)
  (responses : option (list FunctionResponse))
  (message : LiveServerMessage) (st : LiveSessionManager)
  : LiveSessionManager * list Event :=
  let sent :=
    match responses with
    | Some rs => sendToolResponse rs st
    | None => []
    end in
  match chunkToDecode message st with
  | Some b =>
      let '(st1, played) := playAudio now node b st in
      let '(st2, stopped) := onInterrupted now message st1 in
      (st2, sent ++ played ++ stopped)
  | None =>
      let '(st2, stopped) := onInterrupted now message st in
      (st2, stopped ++ sent)
  end.

Section Dispatch.

(** The application callback, with the application state [W] it may read
    and change. *)
Variable W : Type.

Definition Callback : Type := string -> json -> W -> Outcome * W.

(** The [for ... of] loop over the function calls. *)
Fixpoint dispatch (onToolCall : Callback) (calls : list FunctionCall)
  (w : W) : list FunctionResponse * list Event * W :=
  match calls with
  | [] => ([], [], w)
  | fc :: rest =>
      let '(o, w1) := onToolCall (fc_name fc) (fc_args fc) w in
      let '(rs, evs, w2) := dispatch onToolCall rest w1 in
      (respond fc o :: rs, ToolCallback fc :: evs, w2)
  end.

(** The outcomes the callback produced, call by call. *)
Fixpoint outcomes (onToolCall : Callback) (calls : list FunctionCall)
  (w : W) : list Outcome :=
  match calls with
  | [] => []
  | fc :: rest =>
      let '(o, w1) := onToolCall (fc_name fc) (fc_args fc) w in
      o :: outcomes onToolCall rest w1
  end.

(** [handleMessage], run to completion. *)
Definition handleMessage (now : Q) (node : nat)
  (onToolCall : option Callback) (message : LiveServerMessage)
  (st : LiveSessionManager) (w : W)
  : LiveSessionManager * list Event * W :=
  match toolCall message, onToolCall with
  | Some tc, Some cb =>
      let '(rs, called, w1) := dispatch cb (functionCalls tc) w in
      let '(st1, evs) := afterToolCalls now node (Some rs) message st in
      (st1, called ++ evs, w1)
  | _, _ =>
      let '(st1, evs) := afterToolCalls now node None message st in
      (st1, evs, w)
  end.

End Dispatch.

(** *** Reading a trace *)

(** The tool-response frames sent, oldest first. *)
Fixpoint frames_sent (evs : list Event)
  : list (nat * list FunctionResponse) :=
  match evs with
  | [] => []
  | ToolResponseSent session rs :: rest => (session, rs) :: frames_sent rest
  | _ :: rest => frames_sent rest
  end.

(** Start time and duration of every buffer started, oldest first. *)
Fixpoint starts (evs : list Event) : list (Q * Q) :=
  match evs with
  | [] => []
  | BufferStarted _ startAt buffer :: rest =>
      (startAt, duration buffer) :: starts rest
  | _ :: rest => starts rest
  end.

Definition is_console_error (e : Event) : bool :=
  match e with
  | ConsoleError _ => true
  | _ => false
  end.

Definition keep (e : Event) : bool := negb (is_console_error e).

(** *** A run of the scheduler

    Buffers scheduled one after the other with no interrupt in between;
    each comes with the clock reading at the moment it is scheduled and
    the node created for it. *)
Fixpoint schedule_all (arrivals : list (Q * nat * AudioBuffer))
  (st : LiveSessionManager) : LiveSessionManager * list Event :=
  match arrivals with
  | [] => (st, [])
  | (now, node, buffer) :: rest =>
      let '(st1, ev1) := schedule now node buffer st in
      let '(st2, ev2) := schedule_all rest st1 in
      (st2, ev1 ++ ev2)
  end.

(** The schedule as the specification words it: start at the later of
    the cursor and the clock, then advance the cursor by the duration. *)
Fixpoint spec_plan (cursor : Q) (arrivals : list (Q * nat * AudioBuffer))
  : list (Q * Q) * Q :=
  match arrivals with
  | [] => ([], cursor)
  | (now, _, buffer) :: rest =>
      let startAt := if Qle_bool cursor now then now else cursor in
      let '(plan, final) := spec_plan (startAt + duration buffer) rest in
      ((startAt, duration buffer) :: plan, final)
  end.

(** A property of every two consecutive entries of a schedule. *)
Fixpoint chain (R : Q * Q -> Q * Q -> Prop) (l : list (Q * Q)) : Prop :=
  match l with
  | a :: (b :: _) as rest => R a b /\ chain R rest
  | _ => True
  end.

(** The next buffer starts exactly where this one ends. *)
Definition back_to_back (a b : Q * Q) : Prop := fst b == fst a + snd a.

(** The next buffer does not start before this one ends. *)
Definition no_overlap (a b : Q * Q) : Prop := fst a + snd a <= fst b.

(** Every buffer is scheduled before the cursor has been played out:
    the clock reading does not exceed the cursor. *)
Fixpoint punctual (cursor : Q) (arrivals : list (Q * nat * AudioBuffer))
  : Prop :=
  match arrivals with
  | [] => True
  | (now, _, buffer) :: rest =>
      now <= cursor /\
      punctual ((if Qle_bool cursor now then now else cursor)
                + duration buffer) rest
  end.

(** The message with its audio part removed. *)
Definition withoutAudio (message : LiveServerMessage) : LiveServerMessage :=
  {| toolCall := toolCall message;
     serverContent :=
       match serverContent message with
       | Some sc => Some {| modelTurn := None; interrupted := interrupted sc |}
       | None => None
       end |}.

(** *** Life cycle *)

Definition opt_list {A : Type} (o : option A) : list A :=
  match o with
  | Some a => [a]
  | None => []
  end.

Definition opt_events {A : Type} (o : option A) (f : A -> Event)
  : list Event :=
  match o with
  | Some a => [f a]
  | None => []
  end.

Definition cleanup (now : Q) (st : LiveSessionManager)
  : LiveSessionManager * list Event :=
  let '(st1, stopped) := stopAudioPlayback now st in
  (  {| activeSessionPromise := None;
        inputAudioContext := None;
        outputAudioContext := None;
        mediaStream := None;
        processor := None;
        source := None;
        nextStartTime := 0;
        sources := sources st1;
        outputNode := outputNode st1 |},
     stopped
     ++ opt_events (processor st1) ProcessorDisconnected
     ++ opt_events (source st1) SourceDisconnected
     ++ opt_events (mediaStream st1) TrackStopped
     ++ opt_events (inputAudioContext st1) (fun c => ContextClosed (ctx_id c))
     ++ opt_events (outputAudioContext st1)
          (fun c => ContextClosed (ctx_id c))).

(** How the two awaits of [stopSession] end. *)
Inductive CloseOutcome : Type :=
| CloseReturned      (* the session promise fulfilled, close() returned *)
| CloseThrew         (* the session promise fulfilled, close() threw *)
| PromiseRejected.   (* the session promise rejected: nothing to close *)

(** [stopSession], from its call to its return with nothing else running
    on the manager in between ([Calls] takes it await by await). *)
Definition stopSession (now : Q) (closing : CloseOutcome)
  (st : LiveSessionManager) : LiveSessionManager * list Event :=
  let closed :=
    match activeSessionPromise st with
    | Some session =>
        match closing with
        | CloseReturned => [CloseRequested session]
        | CloseThrew =>
            [CloseRequested session; ConsoleWarn "Error closing session:"]
        | PromiseRejected => [ConsoleWarn "Error closing session:"]
        end
    | None => []
    end in
  let '(st1, evs) := cleanup now st in
  (st1, closed ++ evs).

(** What the platform answers during [startSession]. *)
Record StartEnv : Type := {
  closing : CloseOutcome;      (* for the session being replaced *)
  newInput : nat;              (* identity of the 16 kHz context *)
  newOutput : nat;             (* identity of the 24 kHz context *)
  newGain : nat;
  getUserMedia : option nat;   (* the stream, or None when rejected *)
  newSession : nat
}.

Inductive StartResult : Type :=
| Started
| Thrown.

(** [startSession], from its call to its return with nothing else
    running on the manager in between: no callback of a connection and no
    other call.  [Calls] takes it await by await, with whatever comes in
    between. *)
Definition startSession (now : Q) (env : StartEnv) (st : LiveSessionManager)
  : StartResult * LiveSessionManager * list Event :=
  let '(st0, stopped) := stopSession now (closing env) st in
  let st1 :=
    {| activeSessionPromise := activeSessionPromise st0;
       inputAudioContext :=
         Some {| ctx_id := newInput env; ctx_sampleRate := 16000 |};
       outputAudioContext :=
         Some {| ctx_id := newOutput env; ctx_sampleRate := 24000 |};
       mediaStream := mediaStream st0;
       processor := processor st0;
       source := source st0;
       nextStartTime := nextStartTime st0;
       sources := sources st0;
       outputNode := Some (newGain env) |} in
  let created :=
    [ContextCreated (newInput env) 16000;
     ContextCreated (newOutput env) 24000] in
  match getUserMedia env with
  | None =>
      let '(st2, released) := cleanup now st1 in
      (Thrown, st2,
       stopped ++ created
       ++ ConsoleError "Failed to start live session:" :: released)
  | Some stream =>
      (Started,
       {| activeSessionPromise := Some (newSession env);
          inputAudioContext := inputAudioContext st1;
          outputAudioContext := outputAudioContext st1;
          mediaStream := Some stream;
          processor := processor st1;
          source := source st1;
          nextStartTime := nextStartTime st1;
          sources := sources st1;
          outputNode := outputNode st1 |},
       stopped ++ created ++ [MicAcquired stream; Connected (newSession env)])
  end.

(** [onopen]: wire the microphone to the processor. *)
Definition setupAudioInput (src proc : nat) (st : LiveSessionManager)
  : LiveSessionManager * list Event :=
  match inputAudioContext st, mediaStream st with
  | Some _, Some _ =>
      ({| activeSessionPromise := activeSessionPromise st;
          inputAudioContext := inputAudioContext st;
          outputAudioContext := outputAudioContext st;
          mediaStream := mediaStream st;
          processor := Some proc;
          source := Some src;
          nextStartTime := nextStartTime st;
          sources := sources st;
          outputNode := outputNode st |},
       [CaptureWired src proc])
  | _, _ => (st, [])
  end.

(** [onaudioprocess]: encode one captured chunk and send it on the
    session the processor was wired for. *)
Definition onaudioprocess (session : nat) (inputData : list float)
  : list Event :=
  [RealtimeInputSent session (createPcmBlob inputData)].

(** [onclose] *)
Definition onclose (now : Q) (st : LiveSessionManager)
  : LiveSessionManager * list Event :=
  let '(st1, evs) := cleanup now st in (st1, evs ++ [OnClose]).

(** *** Replaying a trace: which microphone streams are live, which
    sessions are open *)

Fixpoint mics_alive (alive : list nat) (evs : list Event) : list nat :=
  match evs with
  | [] => alive
  | MicAcquired m :: rest => mics_alive (m :: alive) rest
  | TrackStopped m :: rest =>
      mics_alive (filter (fun x => negb (Nat.eqb x m)) alive) rest
  | _ :: rest => mics_alive alive rest
  end.

Fixpoint sessions_open (open : list nat) (evs : list Event) : list nat :=
  match evs with
  | [] => open
  | Connected s :: rest => sessions_open (s :: open) rest
  | CloseRequested s :: rest =>
      sessions_open (filter (fun x => negb (Nat.eqb x s)) open) rest
  | _ :: rest => sessions_open open rest
  end.

(** What [cleanup] releases after the pending buffers. *)
Definition teardown_events (st : LiveSessionManager) : list Event :=
  opt_events (processor st) ProcessorDisconnected
  ++ opt_events (source st) SourceDisconnected
  ++ opt_events (mediaStream st) TrackStopped
  ++ opt_events (inputAudioContext st) (fun c => ContextClosed (ctx_id c))
  ++ opt_events (outputAudioContext st) (fun c => ContextClosed (ctx_id c)).

Definition step_mics (alive : list nat) (e : Event) : list nat :=
  mics_alive alive [e].

(** At every point of the trace at most one microphone stream is live. *)
Fixpoint at_most_one_mic (alive : list nat) (evs : list Event) : Prop :=
  (List.length alive <= 1)%nat /\
  match evs with
  | [] => True
  | e :: rest => at_most_one_mic (step_mics alive e) rest
  end.

(** Events that acquire a platform resource. *)
Definition acquires (e : Event) : bool :=
  match e with
  | ContextCreated _ _ | MicAcquired _ | Connected _ | CaptureWired _ _ => true
  | _ => false
  end.

End Live.

(* ================================================================== *)
(** ** Message delivery: handlers suspended at [await]

    [onmessage] calls [handleMessage] and does not wait for the promise it
    returns.  A handler runs until it awaits a tool callback; it is resumed
    when that callback's promise settles.  In between, the transport may
    deliver the next message.  ([await decodeAudioData] awaits a promise
    that is already settled, so no message delivery can come between it and
    its continuation; the two are one step here.) *)
(* ================================================================== *)

Module Loop.

Import Live.

(** A handler waiting for [onToolCall(fc.name, fc.args)]. *)
Record Suspended : Type := {
  s_index : nat;                        (* arrival index of its message *)
  s_message : LiveServerMessage;
  s_responses : list FunctionResponse;  (* pushed so far *)
  s_call : FunctionCall;                (* the call being awaited *)
  s_rest : list FunctionCall            (* calls not yet dispatched *)
}.

Record Config : Type := {
  manager : LiveSessionManager;
  hasCallback : bool;                   (* was [onToolCall] supplied? *)
  inbox : list LiveServerMessage;       (* not yet delivered, oldest first *)
  arrived : nat;                        (* number of messages delivered *)
  suspended : list Suspended;
  trace : list (nat * Event)            (* oldest first; each effect with
                                           the arrival index of the message
                                           whose handler performed it *)
}.

Inductive Label : Type :=
| Deliver (now : Q) (node : nat)
| Settle (k : nat) (o : Outcome) (now : Q) (node : nat).

Definition tag (i : nat) (evs : list Event) : list (nat * Event) :=
  map (fun e => (i, e)) evs.

(** Run the tool loop of message [i] from its next call: either suspend on
    that call, or leave the loop and finish the handler. *)
Definition continue (i : nat) (now : Q) (node : nat)
  (message : LiveServerMessage) (responses : list FunctionResponse)
  (calls : list FunctionCall) (st : LiveSessionManager)
  : option Suspended * LiveSessionManager * list Event :=
  match calls with
  | fc :: rest =>
      (Some {| s_index := i; s_message := message;
               s_responses := responses; s_call := fc; s_rest := rest |},
       st, [ToolCallback fc])
  | [] =>
      let '(st1, evs) := afterToolCalls now node (Some responses) message st in
      (None, st1, evs)
  end.

Fixpoint remove_nth {A : Type} (k : nat) (l : list A) : list A :=
  match k, l with
  | _, [] => []
  | O, _ :: r => r
  | S k', x :: r => x :: remove_nth k' r
  end.

Definition exec (l : Label) (c : Config) : option Config :=
  match l with
  | Deliver now node =>
      match inbox c with
      | [] => None
      | message :: queued =>
          let '(s, st1, evs) :=
            match toolCall message, hasCallback c with
            | Some tc, true =>
                continue (arrived c) now node message []
                  (functionCalls tc) (manager c)
            | _, _ =>
                let '(st1, evs) :=
                  afterToolCalls now node None message (manager c) in
                (None, st1, evs)
            end in
          Some {| manager := st1; hasCallback := hasCallback c;
                  inbox := queued; arrived := S (arrived c);
                  suspended := suspended c ++ opt_list s;
                  trace := trace c ++ tag (arrived c) evs |}
      end
  | Settle k o now node =>
      match nth_error (suspended c) k with
      | None => None
      | Some h =>
          let '(s, st1, evs) :=
            continue (s_index h) now node (s_message h)
              (s_responses h ++ [respond (s_call h) o]) (s_rest h)
              (manager c) in
          Some {| manager := st1; hasCallback := hasCallback c;
                  inbox := inbox c; arrived := arrived c;
                  suspended := remove_nth k (suspended c) ++ opt_list s;
                  trace := trace c ++ tag (s_index h) evs |}
      end
  end.

Fixpoint run (ls : list Label) (c : Config) : option Config :=
  match ls with
  | [] => Some c
  | l :: rest =>
      match exec l c with
      | Some c1 => run rest c1
      | None => None
      end
  end.

(** The labels that settle, one after the other and at once, the
    callbacks of one handler with the outcomes [onToolCall] produces. *)
Definition settles (W : Type) (onToolCall : Callback W) (now : Q)
  (node : nat) (calls : list FunctionCall) (w : W) : list Label :=
  map (fun o => Settle 0 o now node) (outcomes onToolCall calls w).





Definition start (st : LiveSessionManager) (cb : bool)
  (messages : list LiveServerMessage) : Config :=
  {| manager := st; hasCallback := cb; inbox := messages; arrived := 0;
     suspended := []; trace := [] |}.

End Loop.

(* ================================================================== *)
(** ** Calls in flight: [startSession] and [stopSession], await by await

    [stopSession] and [startSession] are async: each gives up control at
    its awaits, and whatever else is due on the manager runs in between:
    the [onclose] and [onopen] callbacks of a connection, or another
    call.  All of them read and write the same manager object.  Here a
    call advances from one await to the next in one step, against the
    manager as it is at that moment; [Live.stopSession] and
    [Live.startSession] are these steps run one after the other with
    nothing in between. *)
(* ================================================================== *)

Module Calls.

Import Live.

(** The await a call is suspended at. *)
Inductive Point : Type :=
| AwaitSessionPromise (session : nat)
    (* stopSession: [await this.activeSessionPromise] *)
| AwaitClose
    (* stopSession: [await session.close()] *)
| AwaitStopSession
    (* startSession: [await this.stopSession()] *)
| AwaitUserMedia.
    (* startSession: [await navigator.mediaDevices.getUserMedia(...)] *)

(** Which call it is, with what the platform answers to it. *)
Inductive Kind : Type :=
| Start (env : StartEnv)
| Stop (closing : CloseOutcome).

Definition closing_of (k : Kind) : CloseOutcome :=
  match k with
  | Start env => closing env
  | Stop c => c
  end.

Inductive Progress : Type :=
| At (p : Point)
| Done (r : option StartResult).   (* [None]: a [stopSession] returned *)

(** [this.cleanup()] at the end of [stopSession], after the effects [pre]
    of the [try] block; [stopSession] then returns, to its caller or into
    the [await] of [startSession]. *)
Definition finishStop (k : Kind) (now : Q) (pre : list Event)
  (st : LiveSessionManager) : Progress * LiveSessionManager * list Event :=
  let '(st1, evs) := cleanup now st in
  (match k with
   | Start _ => At AwaitStopSession
   | Stop _ => Done None
   end, st1, pre ++ evs).

(** A call, from its start to its first await. *)
Definition enter (k : Kind) (now : Q) (st : LiveSessionManager)
  : Progress * LiveSessionManager * list Event :=
  match activeSessionPromise st with
  | Some session => (At (AwaitSessionPromise session), st, [])
  | None => finishStop k now [] st
  end.

(** A call, from the await it is suspended at to its next await or to
    its end. *)
Definition resume (k : Kind) (p : Point) (now : Q)
  (st : LiveSessionManager) : Progress * LiveSessionManager * list Event :=
  match p with
  | AwaitSessionPromise session =>
      match closing_of k with
      | CloseReturned => (At AwaitClose, st, [CloseRequested session])
      | CloseThrew =>
          finishStop k now
            [CloseRequested session; ConsoleWarn "Error closing session:"]
            st
      | PromiseRejected =>
          finishStop k now [ConsoleWarn "Error closing session:"] st
      end
  | AwaitClose => finishStop k now [] st
  | AwaitStopSession =>
      match k with
      | Start env =>
          (At AwaitUserMedia,
           {| activeSessionPromise := activeSessionPromise st;
              inputAudioContext :=
                Some {| ctx_id := newInput env; ctx_sampleRate := 16000 |};
              outputAudioContext :=
                Some {| ctx_id := newOutput env; ctx_sampleRate := 24000 |};
              mediaStream := mediaStream st;
              processor := processor st;
              source := source st;
              nextStartTime := nextStartTime st;
              sources := sources st;
              outputNode := Some (newGain env) |},
           [ContextCreated (newInput env) 16000;
            ContextCreated (newOutput env) 24000])
      | Stop _ => (Done None, st, [])
      end
  | AwaitUserMedia =>
      match k with
      | Start env =>
          match getUserMedia env with
          | Some stream =>
              (Done (Some Started),
               {| activeSessionPromise := Some (newSession env);
                  inputAudioContext := inputAudioContext st;
                  outputAudioContext := outputAudioContext st;
                  mediaStream := Some stream;
                  processor := processor st;
                  source := source st;
                  nextStartTime := nextStartTime st;
                  sources := sources st;
                  outputNode := outputNode st |},
               [MicAcquired stream; Connected (newSession env)])
          | None =>
              let '(st1, released) := cleanup now st in
              (Done (Some Thrown), st1,
               ConsoleError "Failed to start live session:" :: released)
          end
      | Stop _ => (Done None, st, [])
      end
  end.

Record Call : Type := { kind : Kind; point : Point }.

Record Config : Type := {
  held : LiveSessionManager;          (* the one manager object *)
  inFlight : list Call;               (* suspended calls, oldest first *)
  returned : list StartResult;        (* how the [startSession] calls
                                         ended, oldest first *)
  effects : list Event                (* oldest first *)
}.

Inductive Label : Type :=
| CallStart (env : StartEnv) (now : Q)
| CallStop (closing : CloseOutcome) (now : Q)
| Resume (k : nat) (now : Q)
| CloseEvent (now : Q)              (* a connection's [onclose] *)
| OpenEvent (src proc : nat).       (* a connection's [onopen] *)

Definition settle (k : Kind) (others : list Call)
  (r : Progress * LiveSessionManager * list Event) (c : Config) : Config :=
  let '(progress, st1, evs) := r in
  {| held := st1;
     inFlight :=
       others ++ match progress with
                 | At p => [{| kind := k; point := p |}]
                 | Done _ => []
                 end;
     returned :=
       returned c ++ match progress with
                     | Done (Some res) => [res]
                     | _ => []
                     end;
     effects := effects c ++ evs |}.

Definition exec (l : Label) (c : Config) : option Config :=
  match l with
  | CallStart env now =>
      Some (settle (Start env) (inFlight c)
              (enter (Start env) now (held c)) c)
  | CallStop closing now =>
      Some (settle (Stop closing) (inFlight c)
              (enter (Stop closing) now (held c)) c)
  | Resume k now =>
      match nth_error (inFlight c) k with
      | Some call =>
          Some (settle (kind call) (Loop.remove_nth k (inFlight c))
                  (resume (kind call) (point call) now (held c)) c)
      | None => None
      end
  | CloseEvent now =>
      let '(st1, evs) := onclose now (held c) in
      Some {| held := st1; inFlight := inFlight c;
              returned := returned c; effects := effects c ++ evs |}
  | OpenEvent src proc =>
      let '(st1, evs) := setupAudioInput src proc (held c) in
      Some {| held := st1; inFlight := inFlight c;
              returned := returned c; effects := effects c ++ evs |}
  end.

Fixpoint run (ls : list Label) (c : Config) : option Config :=
  match ls with
  | [] => Some c
  | l :: rest =>
      match exec l c with
      | Some c1 => run rest c1
      | None => None
      end
  end.

Definition idle (st : LiveSessionManager) : Config :=
  {| held := st; inFlight := []; returned := []; effects := [] |}.



(** The sample rates of the contexts a manager holds. *)
Definition rates (st : LiveSessionManager) : option Z * option Z :=
  (option_map ctx_sampleRate (inputAudioContext st),
   option_map ctx_sampleRate (outputAudioContext st)).

Definition rates_as_created (st : LiveSessionManager) : Prop :=
  (forall c, inputAudioContext st = Some c -> ctx_sampleRate c = 16000%Z)
  /\ (forall c, outputAudioContext st = Some c -> ctx_sampleRate c = 24000%Z).

End Calls.

(* ================================================================== *)
(** ** Sample data for the examples *)
(* ================================================================== *)

Module Samples.

Import Pcm.
Import Live.
Local Open Scope string_scope.

Definition env0 : StartEnv :=
  {| closing := CloseReturned; newInput := 1; newOutput := 2; newGain := 3;
     getUserMedia := Some 4%nat; newSession := 5 |}.

(** The manager after a first successful [startSession]. *)
Definition open0 : LiveSessionManager :=
  snd (fst (startSession 0 env0 initial)).

(** The answers of the platform to a second [startSession]. *)
Definition env1 : StartEnv :=
  {| closing := CloseReturned; newInput := 11; newOutput := 12;
     newGain := 13; getUserMedia := Some 14%nat; newSession := 15 |}.

Definition call0 : FunctionCall :=
  {| fc_id := "call-1"; fc_name := "generate_image";
     fc_args := "{targetName: frame}" |}.

Definition call1 : FunctionCall :=
  {| fc_id := "call-2"; fc_name := "control_location"; fc_args := "{}" |}.

Definition toolMessage (calls : list FunctionCall) : LiveServerMessage :=
  {| toolCall := Some {| functionCalls := calls |}; serverContent := None |}.

Definition audioMessage (base64 : string) (interrupt : bool)
  : LiveServerMessage :=
  {| toolCall := None;
     serverContent :=
       Some {| modelTurn :=
                 Some {| parts :=
                           Some [{| inlineData :=
                                      Some {| data := base64;
                                              mimeType := "audio/pcm" |} |}] |};
               interrupted := interrupt |} |}.

(** A callback that succeeds on [generate_image] and fails on anything
    else; the application state counts the invocations. *)
Definition callback0 : Callback nat :=
  fun name _ n =>
    if String.eqb name "generate_image" then (Resolved "ok", S n)
    else (Rejected "geolocation denied", S n).

(** One frame of silence; a chunk of three bytes; a chunk that is not
    base64. *)
Definition oneFrame : string := "AAA=".
Definition oddChunk : string := "AAAA".
Definition badChunk : string := "A".

(** A buffer of one frame (1/24000 s). *)
Definition tick : AudioBuffer :=
  {| numberOfChannels := 1; sampleRate := 24000; channelData := [0] |}.

(** Two queued messages: a tool call, then an audio chunk. *)
Definition queue0 : list LiveServerMessage :=
  [toolMessage [call0]; audioMessage oneFrame false].

(** The second message is delivered while the callback of the first is
    still pending. *)
Definition overtaking : list Loop.Label :=
  [Loop.Deliver 0 10; Loop.Deliver 0 11;
   Loop.Settle 0 (Resolved "ok") 0 12].

(** The callback of the first message settles before the second message
    is delivered. *)
Definition oneByOne : list Loop.Label :=
  [Loop.Deliver 0 10; Loop.Settle 0 (Resolved "ok") 0 12;
   Loop.Deliver 0 11].

End Samples.

(* ================================================================== *)
(** ** More ways to read a trace *)
(* ================================================================== *)

Module Replay.

Import Pcm.
Import Live.

(** The audio contexts that are open after a trace. *)
Fixpoint contexts_open (open : list nat) (evs : list Event) : list nat :=
  match evs with
  | [] => open
  | ContextCreated c _ :: rest => contexts_open (c :: open) rest
  | ContextClosed c :: rest =>
      contexts_open (filter (fun x => negb (Nat.eqb x c)) open) rest
  | _ :: rest => contexts_open open rest
  end.

Definition is_close_request (e : Event) : bool :=
  match e with
  | CloseRequested _ => true
  | _ => false
  end.

(** The contexts a manager holds. *)
Definition held_contexts (st : LiveSessionManager) : list nat :=
  map ctx_id (opt_list (outputAudioContext st)
              ++ opt_list (inputAudioContext st)).

(** Events that release a device, a node or a context. *)
Definition releases_resource (e : Event) : bool :=
  match e with
  | ContextClosed _ | TrackStopped _ | ProcessorDisconnected _
  | SourceDisconnected _ | BufferStopped _ => true
  | _ => false
  end.

(** The effects a message handler may have: invoking the callback,
    sending a tool response, starting and stopping buffers, logging. *)
Definition handler_event (e : Event) : bool :=
  match e with
  | ToolCallback _ | ToolResponseSent _ _ | BufferStarted _ _ _
  | BufferStopped _ | ConsoleError _ => true
  | _ => false
  end.

(** The audio branch of [handleMessage], on its own. *)
Definition audioPart (now : Q) (node : nat) (message : LiveServerMessage)
  (st : LiveSessionManager) : LiveSessionManager * list Event :=
  match base64Audio message, outputAudioContext st, outputNode st with
  | Some b, Some _, Some _ =>
      if truthy b then playAudio now node b st else (st, [])
  | _, _, _ => (st, [])
  end.

(** The tool-response frames the handler of the [i]-th message sent. *)
Definition frames_of (i : nat) (tr : list (nat * Event))
  : list (nat * list FunctionResponse) :=
  frames_sent (map snd (filter (fun p => Nat.eqb (fst p) i) tr)).

(** A response that answers a call: same id, same name. *)
Definition answers (fc : FunctionCall) (fr : FunctionResponse) : Prop :=
  fr_id fr = fc_id fc /\ fr_name fr = fc_name fc.

End Replay.

(* ================================================================== *)
(** ** Handlers that overlap: whose calls a frame answers *)
(* ================================================================== *)

Module Interleaving.

Import Live.
Import Loop.
Import Replay.

(** A suspended handler belongs to a delivered tool message, has sent no
    frame yet, and has pushed one response for each call it has got
    through. *)
Definition in_progress (messages : list LiveServerMessage)
  (tr : list (nat * Event)) (h : Suspended) : Prop :=
  nth_error messages (s_index h) = Some (s_message h) /\
  frames_of (s_index h) tr = [] /\
  exists tc done,
    toolCall (s_message h) = Some tc /\
    functionCalls tc = done ++ s_call h :: s_rest h /\
    Forall2 answers done (s_responses h).

(** The handler of the [i]-th message is over and has sent what it had
    to: one frame answering the calls of the message one for one, or no
    frame for a message without tool call. *)
Definition answered (session : nat) (tr : list (nat * Event)) (i : nat)
  (message : LiveServerMessage) : Prop :=
  match toolCall message with
  | Some tc =>
      exists rs, frames_of i tr = [(session, rs)]
                 /\ Forall2 answers (functionCalls tc) rs
  | None => frames_of i tr = []
  end.

(** What every reachable configuration satisfies, however the handlers
    interleave. *)
Definition consistent (messages : list LiveServerMessage) (session : nat)
  (c : Config) : Prop :=
  activeSessionPromise (manager c) = Some session /\
  hasCallback c = true /\
  (exists delivered,
      messages = delivered ++ inbox c
      /\ List.length delivered = arrived c) /\
  NoDup (map s_index (suspended c)) /\
  (forall h, In h (suspended c) ->
             (s_index h < arrived c)%nat
             /\ in_progress messages (trace c) h) /\
  (forall i message,
      nth_error messages i = Some message -> (i < arrived c)%nat ->
      (forall h, In h (suspended c) -> s_index h <> i) ->
      answered session (trace c) i message) /\
  (forall i, (arrived c <= i)%nat -> frames_of i (trace c) = []).

End Interleaving.

(* ================================================================== *)
(** ** The application's tool callback (App.tsx), pure parts

    [startGeneralLive] passes [startSession] a callback that serves the
    tool calls.  Its branches [select_items] and [batch_action] compute on
    the list of materials and on the selection; those computations are
    embedded here.  React's state setters are not modelled: a function
    given to [setSelectedIds] is embedded as that function, applied to the
    selection it will be given.

    Strings are sequences of code units below 256, as everywhere in this
    development; on those, [toLowerCase] is the mapping of the standard
    (A-Z, and the capital letters of U+00C0-U+00DE, to the letter 32
    above).  A [Set<string>] is a duplicate-free list in insertion order,
    which is the order [forEach] and [Array.from] visit it in.  A tool
    argument is a string or absent, as the tool declarations have it. *)
(* ================================================================== *)

Module App.

Import Live.
Local Open Scope string_scope.
Local Open Scope list_scope.

Record Material : Type := {
  id : string;
  name : string;
  description : string;
  category : string;
  imageUrl : option string
}.

(** *** Strings *)

Definition lower_unit (a : ascii) : ascii :=
  let n := nat_of_ascii a in
  if ((65 <=? n) && (n <=? 90))%nat then ascii_of_nat (n + 32)
  else if ((192 <=? n) && (n <=? 222) && negb (n =? 215))%nat
       then ascii_of_nat (n + 32)
  else a.

Fixpoint toLowerCase (s : string) : string :=
  match s with
  | EmptyString => EmptyString
  | String a rest => String (lower_unit a) (toLowerCase rest)
  end.

(** [s.includes(sub)] *)
Fixpoint includes (s sub : string) : bool :=
  String.prefix sub s
  || match s with
     | EmptyString => false
     | String _ rest => includes rest sub
     end.

(** [String(n)] for a size or a length. *)
Definition decimal (n : nat) : string :=
  NilEmpty.string_of_uint (Nat.to_uint n).

(** *** Sets of ids *)

Definition has (x : string) (s : list string) : bool :=
  set_mem string_dec x s.

Definition add (x : string) (s : list string) : list string :=
  set_add string_dec x s.

Definition delete (x : string) (s : list string) : list string :=
  set_remove string_dec x s.

(** [new Set(array)] *)
Definition new_Set (l : list string) : list string :=
  fold_left (fun s x => add x s) l [].

(** *** [select_items] *)

(** [(toolArgs.criteria ? String(toolArgs.criteria) : '').toLowerCase()] *)
Definition criteria_of (arg : option string) : string :=
  toLowerCase
    match arg with
    | Some s => if truthy s then s else ""
    | None => ""
    end.

(** [toolArgs.action ? String(toolArgs.action) : 'select'] *)
Definition action_of (arg : option string) : string :=
  match arg with
  | Some s => if truthy s then s else "select"
  | None => "select"
  end.

(** [!m.imageUrl] *)
Definition no_image (m : Material) : bool :=
  match imageUrl m with
  | Some url => negb (truthy url)
  | None => true
  end.

(** The condition of the [forEach] over the materials. *)
Definition matches (criteria : string) (m : Material) : bool :=
  includes (toLowerCase (category m)) criteria
  || includes (toLowerCase (name m)) criteria
  || ((criteria =? "without_images") && no_image m).

(** [new Set(stateRefs.current.materials.map(m => m.id))] *)
Definition all_ids (materials : list Material) : list string :=
  new_Set (map id materials).

(** [idsToModify] after the [forEach] over the materials. *)
Definition matching (criteria : string) (materials : list Material)
  : list string :=
  fold_left (fun s m => if matches criteria m then add (id m) s else s)
    materials [].

(** The function given to [setSelectedIds]. *)
Definition updater (action : string) (ids prev : list string)
  : list string :=
  fold_left
    (fun next x =>
       if action =? "deselect" then delete x next
       else if action =? "toggle" then
              if has x next then delete x next else add x next
       else add x next)
    ids prev.

(** What follows the computation of [idsToModify]: the selection after
    the update, from the selection [prev] the setter works on, and the
    reply. *)
Definition modify (action : string) (ids prev : list string)
  : list string * string :=
  (updater action ids prev,
   (action ++ "ed " ++ decimal (List.length ids) ++ " items.")%string).

Definition select_items (criteriaArg actionArg : option string)
  (materials : list Material) (prev : list string)
  : list string * string :=
  let criteria := criteria_of criteriaArg in
  let action := action_of actionArg in
  if criteria =? "all" then modify action (all_ids materials) prev
  else if criteria =? "none" then ([], "Cleared.")
  else modify action (matching criteria materials) prev.

(** *** [batch_action] and [handleBatchGenerate] *)

(** [ids.slice(i, j)] for [i <= j]. *)
Definition slice (i j : nat) (ids : list string) : list string :=
  firstn (j - i) (skipn i ids).

(** The [for (let i = 0; i < ids.length; i += chunkSize)] loop: the
    chunks it hands to [Promise.all], one round after the other. *)
Fixpoint chunk_loop (fuel i : nat) (ids : list string)
  : list (list string) :=
  match fuel with
  | O => []
  | S fuel' =>
      if (i <? List.length ids)%nat
      then slice i (i + 3) ids :: chunk_loop fuel' (i + 3) ids
      else []
  end.

Definition rounds (ids : list string) : list (list string) :=
  chunk_loop (List.length ids) 0 ids.

Inductive BatchEffect : Type :=
| Nothing
| ClearSelection
| Generate (chunks : list (list string)).
    (* the rounds of [handleGenerateItemImage] calls; afterwards the
       selection is cleared *)

Definition batch_action (actionTypeArg : option string)
  (selectedIds : list string) : BatchEffect * string :=
  let actionType :=
    match actionTypeArg with
    | Some s => if truthy s then s else ""
    | None => ""
    end in
  if actionType =? "generate_images" then
    if (List.length selectedIds =? 0)%nat then (Nothing, "No selection.")
    else (Generate (rounds selectedIds),
          ("Generating " ++ decimal (List.length selectedIds)
           ++ " images.")%string)
  else if actionType =? "clear_selection"
       then (ClearSelection, "Selection cleared.")
  else (Nothing, "Unknown action.").

End App.

Module AppSamples.

Import App.
Local Open Scope string_scope.

Definition beam : Material :=
  {| id := "mat-1"; name := "Steel beam"; description := "Main support";
     category := "Component"; imageUrl := None |}.

Definition welder : Material :=
  {| id := "mat-2"; name := "Welder"; description := "Joins the steel";
     category := "Tool"; imageUrl := Some "data:image/png;base64,AAAA" |}.

Definition cutting : Material :=
  {| id := "mat-3"; name := "Cut the components to length";
     description := "First step"; category := "Step"; imageUrl := None |}.

Definition bolts : Material :=
  {| id := "mat-4"; name := "Bolts"; description := "M8";
     category := "Component"; imageUrl := Some "" |}.

Definition plan : list Material := [beam; welder; cutting; bolts].

End AppSamples.

(* ================================================================== *)
(** ** Facts: base64 *)
(* ================================================================== *)

Module Base64Facts.

Import Base64.
Local Open Scope Z_scope.

Example btoa_Man : btoa "Man" = "TWFu"%string.
Proof. reflexivity. Qed.

Example btoa_Ma : btoa "Ma" = "TWE="%string.
Proof. reflexivity. Qed.

Example atob_padded : atob "TWE=" = Some "Ma"%string.
Proof. reflexivity. Qed.

Example atob_unpadded_spaced : atob "TW E" = Some "Ma"%string.
Proof. reflexivity. Qed.

Example atob_bad_length : atob "TWFuA" = None.
Proof. reflexivity. Qed.

Example atob_bad_char : atob "TW*u" = None.
Proof. reflexivity. Qed.

Lemma chr_code (c : ascii) : chr (code c) = c.
Proof.
  unfold chr, code. rewrite Nat2Z.id. apply ascii_nat_embedding.
Qed.

Lemma code_chr (z : Z) : is_byte z -> code (chr z) = z.
Proof.
  intros [H0 H1]. unfold chr, code.
  rewrite nat_ascii_embedding by lia. lia.
Qed.

Lemma code_is_byte (c : ascii) : is_byte (code c).
Proof.
  unfold is_byte, code. pose proof (nat_ascii_bounded c). lia.
Qed.

(** Induction three bytes at a time, the way [btoa_chars] recurses. *)
Lemma list_ind3 (A : Type) (P : list A -> Prop) :
  P [] -> (forall a, P [a]) -> (forall a b, P [a; b]) ->
  (forall a b c r, P r -> P (a :: b :: c :: r)) ->
  forall l, P l.
Proof.
  intros H0 H1 H2 H3.
  fix IH 1. intros [|a [|b [|c r]]].
  - exact H0.
  - apply H1.
  - apply H2.
  - apply H3, IH.
Qed.

Lemma sextet_cases (P : Z -> Prop) :
  (forall n : nat, (n < 64)%nat -> P (Z.of_nat n)) ->
  forall v, 0 <= v < 64 -> P v.
Proof.
  intros H v Hv. rewrite <- (Z2Nat.id v) by lia. apply H. lia.
Qed.

Ltac each_sextet :=
  intros v Hv; pattern v; apply sextet_cases; [clear v Hv | exact Hv];
  intros n Hn;
  do 64 (destruct n as [|n]; [vm_compute; try reflexivity; try congruence|]);
  exfalso; lia.

Lemma dec_enc : forall v, 0 <= v < 64 -> dec (enc v) = Some v.
Proof. each_sextet. Qed.

Lemma enc_not_ws : forall v, 0 <= v < 64 -> is_ws (enc v) = false.
Proof. each_sextet. Qed.

Lemma enc_not_pad : forall v, 0 <= v < 64 -> Ascii.eqb (enc v) pad = false.
Proof. each_sextet. Qed.

Lemma btoa_chars_split (bs : list Z) :
  btoa_chars bs = map enc (to_sextets bs) ++ padding bs.
Proof.
  induction bs as [|a|a b|a b c r IH] using list_ind3; try reflexivity.
  cbn [btoa_chars to_sextets padding map app]. now rewrite IH.
Qed.

Lemma to_sextets_range (bs : list Z) :
  Forall is_byte bs -> Forall is_sextet (to_sextets bs).
Proof.
  unfold is_byte, is_sextet.
  induction bs as [|a|a b|a b c r IH] using list_ind3; intros H;
    cbn [to_sextets].
  - constructor.
  - inversion_clear H. repeat constructor; Z.div_mod_to_equations; lia.
  - inversion_clear H as [|? ? Ha H']. inversion_clear H' as [|? ? Hb _].
    repeat constructor; Z.div_mod_to_equations; lia.
  - inversion_clear H as [|? ? Ha H']. inversion_clear H' as [|? ? Hb H''].
    inversion_clear H'' as [|? ? Hc Hr].
    repeat (constructor; [Z.div_mod_to_equations; lia|]). auto.
Qed.

Lemma decode_to_sextets (bs : list Z) :
  Forall is_byte bs -> decode_groups (to_sextets bs) = bs.
Proof.
  unfold is_byte.
  induction bs as [|a|a b|a b c r IH] using list_ind3; intros H;
    cbn [to_sextets decode_groups].
  - reflexivity.
  - inversion_clear H. f_equal. Z.div_mod_to_equations; lia.
  - inversion_clear H as [|? ? Ha H']. inversion_clear H' as [|? ? Hb _].
    repeat f_equal; Z.div_mod_to_equations; lia.
  - inversion_clear H as [|? ? Ha H']. inversion_clear H' as [|? ? Hb H''].
    inversion_clear H'' as [|? ? Hc Hr].
    rewrite IH by assumption.
    repeat f_equal; Z.div_mod_to_equations; lia.
Qed.

Lemma sextets_map_enc (vs : list Z) :
  Forall is_sextet vs -> sextets (map enc vs) = Some vs.
Proof.
  induction 1 as [|v vs Hv _ IH]; cbn [map sextets].
  - reflexivity.
  - now rewrite dec_enc, IH.
Qed.

Lemma length_btoa_chars (bs : list Z) :
  exists k, List.length (btoa_chars bs) = (4 * k)%nat.
Proof.
  induction bs as [|a|a b|a b c r [k IH]] using list_ind3.
  - now exists 0%nat.
  - now exists 1%nat.
  - now exists 1%nat.
  - exists (S k). cbn [btoa_chars List.length]. lia.
Qed.

Lemma length_to_sextets (bs : list Z) :
  exists k, (List.length (to_sextets bs) = 4 * k
             \/ List.length (to_sextets bs) = 4 * k + 2
             \/ List.length (to_sextets bs) = 4 * k + 3)%nat.
Proof.
  induction bs as [|a|a b|a b c r [k IH]] using list_ind3.
  - exists 0%nat. cbn. auto.
  - exists 0%nat. cbn. auto.
  - exists 0%nat. cbn. auto.
  - exists (S k). cbn [to_sextets List.length]. lia.
Qed.

Lemma padding_cases (bs : list Z) :
  padding bs = [] \/ padding bs = [pad] \/ padding bs = [pad; pad].
Proof.
  induction bs as [|a|a b|a b c r IH] using list_ind3; cbn; auto.
Qed.

Lemma strip_padding_enc (vs : list Z) (ps : list ascii) :
  Forall is_sextet vs ->
  ps = [] \/ ps = [pad] \/ ps = [pad; pad] ->
  strip_padding (map enc vs ++ ps) = map enc vs.
Proof.
  intros Hvs Hps. unfold strip_padding.
  assert (Hlast : forall c r, rev (map enc vs) = c :: r ->
                              Ascii.eqb c pad = false).
  { intros c r Hr.
    assert (Hin : In c (map enc vs)).
    { apply in_rev. rewrite Hr. now left. }
    apply in_map_iff in Hin. destruct Hin as [v [<- Hv]].
    apply enc_not_pad. rewrite Forall_forall in Hvs. now apply Hvs. }
  destruct Hps as [-> | [-> | ->]].
  - rewrite app_nil_r.
    destruct (rev (map enc vs)) as [|p1 [|p2 r]] eqn:Hr; try reflexivity;
      now rewrite (Hlast _ _ eq_refl).
  - rewrite rev_app_distr. cbn [rev app].
    destruct (rev (map enc vs)) as [|p2 r] eqn:Hr.
    + cbn. apply (f_equal (@rev ascii)) in Hr.
      rewrite rev_involutive in Hr. now rewrite Hr.
    + cbn [Ascii.eqb]. replace (Ascii.eqb pad pad) with true by reflexivity.
      rewrite (Hlast _ _ eq_refl).
      change (rev r ++ [p2]) with (rev (p2 :: r)).
      rewrite <- Hr. apply rev_involutive.
  - rewrite rev_app_distr. cbn [rev app].
    replace (Ascii.eqb pad pad) with true by reflexivity.
    apply rev_involutive.
Qed.

Lemma filter_ws_btoa (vs : list Z) (ps : list ascii) :
  Forall is_sextet vs ->
  ps = [] \/ ps = [pad] \/ ps = [pad; pad] ->
  filter (fun c => negb (is_ws c)) (map enc vs ++ ps) = map enc vs ++ ps.
Proof.
  intros Hvs Hps. rewrite filter_app. f_equal.
  - induction Hvs as [|v vs Hv _ IH]; cbn [map filter]; [reflexivity|].
    now rewrite enc_not_ws, IH.
  - destruct Hps as [-> | [-> | ->]]; reflexivity.
Qed.

(** Decoding what [btoa] wrote gives the bytes back. *)
Theorem atob_btoa (binary : string) : atob (btoa binary) = Some binary.
Proof.
  unfold atob, btoa.
  rewrite list_ascii_of_string_of_list_ascii.
  set (bs := map code (list_ascii_of_string binary)).
  assert (Hbs : Forall is_byte bs).
  { apply Forall_forall. intros z Hz. apply in_map_iff in Hz.
    destruct Hz as [c [<- _]]. apply code_is_byte. }
  pose proof (to_sextets_range Hbs) as Hvs.
  pose proof (padding_cases bs) as Hps.
  destruct (length_btoa_chars bs) as [k Hk].
  rewrite btoa_chars_split in *.
  rewrite filter_ws_btoa by assumption.
  rewrite Hk.
  replace (Z.of_nat (4 * k) mod 4 =? 0) with true
    by (symmetry; apply Z.eqb_eq; rewrite Nat2Z.inj_mul, Z.mul_comm;
        apply Z_mod_mult).
  rewrite strip_padding_enc by assumption.
  rewrite length_map.
  destruct (length_to_sextets bs) as [j Hj].
  replace (Z.of_nat (List.length (to_sextets bs)) mod 4 =? 1) with false.
  2:{ symmetry. apply Z.eqb_neq.
      destruct Hj as [-> | [-> | ->]]; Z.div_mod_to_equations; lia. }
  rewrite sextets_map_enc by assumption.
  rewrite decode_to_sextets by assumption.
  unfold bs. rewrite map_map.
  rewrite (map_ext _ (fun c => c)) by apply chr_code.
  rewrite map_id. now rewrite string_of_list_ascii_of_string.
Qed.

End Base64Facts.

(* ================================================================== *)
(** ** Facts: PCM codec *)
(* ================================================================== *)

Module PcmFacts.

Import Pcm.
Import Base64Facts.
Local Open Scope Q_scope.

(** *** Truncation *)

Lemma trunc_Qeq (x y : Q) : x == y -> trunc x = trunc y.
Proof.
  destruct x as [n d], y as [n' d']. unfold Qeq, trunc. simpl. intros H.
  rewrite <- (Z.quot_mul_cancel_r n (Zpos d) (Zpos d')) by discriminate.
  rewrite H.
  rewrite (Z.mul_comm (Zpos d) (Zpos d')).
  now rewrite Z.quot_mul_cancel_r by discriminate.
Qed.

Lemma trunc_nonneg (x : Q) :
  0 <= x -> inject_Z (trunc x) <= x /\ x < inject_Z (trunc x) + 1.
Proof.
  destruct x as [n d]. unfold Qle, Qlt, trunc, inject_Z, Qplus. simpl.
  intros Hn. rewrite Z.mul_1_r in Hn.
  pose proof (Z.quot_rem' n (Zpos d)) as E.
  assert (0 <= Z.rem n (Zpos d) < Zpos d)%Z by (apply Z.rem_bound_pos; lia).
  split; nia.
Qed.

Lemma trunc_nonpos (x : Q) :
  x <= 0 -> x <= inject_Z (trunc x) /\ inject_Z (trunc x) - 1 < x.
Proof.
  destruct x as [n d].
  unfold Qle, Qlt, trunc, inject_Z, Qminus, Qplus, Qopp. simpl.
  intros Hn. rewrite Z.mul_1_r in Hn.
  pose proof (Z.quot_rem' n (Zpos d)) as E.
  assert (Z.rem n (Zpos d) <= 0)%Z by (apply Z.rem_nonpos; lia).
  assert (Z.abs (Z.rem n (Zpos d)) < Z.abs (Zpos d))%Z
    by (apply Z.rem_bound_abs; lia).
  split; nia.
Qed.

Lemma trunc_inject_Z (z : Z) : trunc (inject_Z z) = z.
Proof. unfold trunc, inject_Z. simpl. apply Z.quot_1_r. Qed.

Lemma wrap16_small (z : Z) : is_int16 z -> wrap16 z = z.
Proof.
  unfold is_int16, wrap16. intros H.
  rewrite Z.mod_small by lia. lia.
Qed.

(** *** Clamping *)

Lemma clamp_Fin (q : Q) :
  exists c, clamp (Fin q) = Fin c /\
            ((q <= -1 /\ c == -1) \/ (-1 <= q /\ q <= 1 /\ c == q)
             \/ (1 <= q /\ c == 1)).
Proof.
  unfold clamp, Math_min, Math_max.
  destruct (Qle_bool 1 q) eqn:H1.
  - apply Qle_bool_iff in H1.
    exists 1. split; [reflexivity|]. right. right. split; [assumption|reflexivity].
  - assert (q < 1).
    { apply Qnot_le_lt. intros C. apply Qle_bool_iff in C. congruence. }
    destruct (Qle_bool (-1) q) eqn:H2.
    + apply Qle_bool_iff in H2. exists q. split; [reflexivity|].
      right. left. split; [assumption|]. split; [lra|reflexivity].
    + assert (q < -1).
      { apply Qnot_le_lt. intros C. apply Qle_bool_iff in C. congruence. }
      exists (-1). split; [reflexivity|]. left. split; [lra|reflexivity].
Qed.

Lemma lt_zero_Fin (c : Q) : lt_zero (Fin c) = true <-> c < 0.
Proof.
  unfold lt_zero. destruct (Qle_bool 0 c) eqn:H; simpl.
  - apply Qle_bool_iff in H. split; [discriminate|lra].
  - split; [intros _|reflexivity].
    apply Qnot_le_lt. intros C. apply Qle_bool_iff in C. congruence.
Qed.

Lemma clamp_range (q c : Q) : clamp (Fin q) = Fin c -> -1 <= c /\ c <= 1.
Proof.
  intros E. destruct (clamp_Fin q) as [c' [E' Hc]].
  rewrite E in E'. injection E' as <-.
  destruct Hc as [[? ->]|[[? [? ->]]|[? ->]]]; split; lra.
Qed.

Lemma clamp_in_range (q c : Q) :
  clamp (Fin q) = Fin c -> -1 <= q -> q <= 1 -> c == q.
Proof.
  intros E Hlo Hhi. destruct (clamp_Fin q) as [c' [E' Hc]].
  rewrite E in E'. injection E' as <-.
  destruct Hc as [[? ->]|[[? [? ->]]|[? ->]]]; lra.
Qed.

(** Truncating the scaled value of a clamped sample stays within 16 bits,
    so the store into the [Int16Array] does not wrap. *)
Lemma trunc_scaled_range (c : Q) :
  -1 <= c -> c <= 1 ->
  (c < 0 -> is_int16 (trunc (c * 32768)))
  /\ (0 <= c -> is_int16 (trunc (c * 32767))).
Proof.
  intros Hlo Hhi. unfold is_int16. split; intros Hs.
  - destruct (@trunc_nonpos (c * 32768)) as [B1 B2]; [lra|].
    rewrite !Zle_Qle.
    change (inject_Z (-32768)) with (-32768).
    change (inject_Z 32767) with 32767. split; lra.
  - destruct (@trunc_nonneg (c * 32767)) as [B1 B2]; [lra|].
    rewrite !Zle_Qle.
    change (inject_Z (-32768)) with (-32768).
    change (inject_Z 32767) with 32767. split; lra.
Qed.

Lemma sample_to_int16_clamped (q c : Q) :
  clamp (Fin q) = Fin c ->
  sample_to_int16 (Fin q)
  = if lt_zero (Fin c) then trunc (c * 32768) else trunc (c * 32767).
Proof.
  intros E. unfold sample_to_int16. rewrite E.
  destruct (clamp_range E) as [Hlo Hhi].
  destruct (trunc_scaled_range Hlo Hhi) as [Rn Rp].
  destruct (lt_zero (Fin c)) eqn:Hs; cbn [times ToInt16].
  - apply wrap16_small, Rn. now apply lt_zero_Fin.
  - apply wrap16_small, Rp.
    apply Qnot_lt_le. intros C. apply lt_zero_Fin in C. congruence.
Qed.

(** *** Bytes *)

Local Open Scope Z_scope.

Lemma int16_bytes_le (v : Z) : int16_bytes v = spec_le_bytes v.
Proof.
  unfold int16_bytes, spec_le_bytes.
  change 255 with (Z.ones 8).
  rewrite Z.land_ones by lia. rewrite Z.shiftr_div_pow2 by lia.
  change (2 ^ 8) with 256.
  f_equal; [|f_equal]; Z.div_mod_to_equations; lia.
Qed.

Lemma int16_bytes_range (v : Z) : Forall Base64.is_byte (int16_bytes v).
Proof.
  rewrite int16_bytes_le. unfold spec_le_bytes, Base64.is_byte.
  repeat constructor; Z.div_mod_to_equations; lia.
Qed.

Lemma land_low_shiftl (lo hi : Z) :
  0 <= lo < 256 -> Z.land lo (Z.shiftl hi 8) = 0.
Proof.
  intros Hlo. apply Z.bits_inj'. intros n Hn.
  rewrite Z.land_spec, Z.bits_0.
  destruct (Z.lt_ge_cases n 8) as [Hlt | Hge].
  - rewrite Z.shiftl_spec_low by assumption. apply andb_false_r.
  - destruct (Z.eq_dec lo 0) as [-> | Hnz].
    + now rewrite Z.bits_0.
    + rewrite (Z.bits_above_log2 lo n); [reflexivity | lia |].
      apply Z.lt_le_trans with 8; [|assumption].
      apply Z.log2_lt_pow2; lia.
Qed.

Lemma lor_low_shiftl (lo hi : Z) :
  0 <= lo < 256 -> Z.lor lo (Z.shiftl hi 8) = lo + 256 * hi.
Proof.
  intros Hlo.
  rewrite <- Z.lxor_lor by now apply land_low_shiftl.
  rewrite <- Z.add_nocarry_lxor by now apply land_low_shiftl.
  rewrite Z.shiftl_mul_pow2 by lia. change (2 ^ 8) with 256. lia.
Qed.

(** Reading back the two bytes of a 16-bit value gives the value. *)
Lemma read_int16_bytes (v : Z) (rest : list Z) :
  is_int16 v ->
  Int16Array_of_bytes (int16_bytes v ++ rest)
  = option_map (cons v) (Int16Array_of_bytes rest).
Proof.
  intros Hv. rewrite int16_bytes_le. unfold spec_le_bytes.
  cbn [app Int16Array_of_bytes].
  rewrite lor_low_shiftl by (Z.div_mod_to_equations; lia).
  replace (to_signed16 (v mod 256 + 256 * ((v / 256) mod 256))) with v.
  - now destruct (Int16Array_of_bytes rest).
  - unfold to_signed16, is_int16 in *.
    destruct (Z.ltb_spec (v mod 256 + 256 * ((v / 256) mod 256)) 32768);
      Z.div_mod_to_equations; lia.
Qed.

Lemma Int16Array_of_bytes_of_int16 (a : list Z) :
  Forall is_int16 a -> Int16Array_of_bytes (bytes_of_int16 a) = Some a.
Proof.
  unfold bytes_of_int16.
  induction 1 as [|v a Hv _ IH]; [reflexivity|].
  cbn [flat_map]. rewrite read_int16_bytes by assumption. now rewrite IH.
Qed.

Lemma bytes_of_int16_range (a : list Z) :
  Forall Base64.is_byte (bytes_of_int16 a).
Proof.
  unfold bytes_of_int16. induction a as [|v a IH]; cbn [flat_map].
  - constructor.
  - apply Forall_app. split; [apply int16_bytes_range | exact IH].
Qed.

Lemma bytes_of_binary_of_bytes (bytes : list Z) :
  Forall Base64.is_byte bytes -> bytes_of_binary (binary_of_bytes bytes) = bytes.
Proof.
  intros H. unfold bytes_of_binary, binary_of_bytes.
  rewrite list_ascii_of_string_of_list_ascii, map_map.
  induction H as [|b bytes Hb _ IH]; [reflexivity|].
  cbn [map]. now rewrite code_chr, IH.
Qed.

Lemma length_bytes_of_int16 (a : list Z) :
  List.length (bytes_of_int16 a) = (2 * List.length a)%nat.
Proof.
  unfold bytes_of_int16. induction a as [|v a IH]; [reflexivity|].
  cbn [flat_map]. rewrite length_app, IH. cbn. lia.
Qed.

(** Induction two bytes at a time, the way [Int16Array_of_bytes] reads. *)
Lemma list_ind2 (A : Type) (P : list A -> Prop) :
  P [] -> (forall a, P [a]) ->
  (forall a b r, P r -> P (a :: b :: r)) ->
  forall l, P l.
Proof.
  intros H0 H1 H2.
  fix IH 1. intros [|a [|b r]].
  - exact H0.
  - apply H1.
  - apply H2, IH.
Qed.

Lemma Int16Array_of_bytes_step (lo hi : Z) (r : list Z) :
  Int16Array_of_bytes (lo :: hi :: r)
  = match Int16Array_of_bytes r with
    | Some a => Some (to_signed16 (Z.lor lo (Z.shiftl hi 8)) :: a)
    | None => None
    end.
Proof. reflexivity. Qed.

(** Decoding reads little-endian 16-bit values. *)
Lemma Int16Array_of_bytes_le (bs a : list Z) :
  Forall Base64.is_byte bs ->
  Int16Array_of_bytes bs = Some a ->
  Forall is_int16 a /\ bs = flat_map spec_le_bytes a.
Proof.
  revert a. induction bs as [|lo|lo hi r IH] using list_ind2;
    intros a Hbs E.
  - injection E as <-. split; [constructor|reflexivity].
  - discriminate.
  - inversion_clear Hbs as [|? ? Hlo H']. inversion_clear H' as [|? ? Hhi Hr].
    rewrite Int16Array_of_bytes_step in E.
    destruct (Int16Array_of_bytes r) as [a'|]; [|discriminate].
    assert (Ea : a = to_signed16 (Z.lor lo (Z.shiftl hi 8)) :: a')
      by congruence.
    subst a. clear E.
    destruct (IH a' Hr eq_refl) as [Ha' ->].
    unfold Base64.is_byte in *.
    rewrite lor_low_shiftl by assumption.
    unfold to_signed16, spec_le_bytes, is_int16. cbn [flat_map app].
    destruct (Z.ltb_spec (lo + 256 * hi) 32768);
      (split; [constructor; [lia|assumption]|]);
      repeat f_equal; Z.div_mod_to_equations; lia.
Qed.

Lemma Int16Array_of_bytes_odd (bs : list Z) :
  Nat.odd (List.length bs) = true -> Int16Array_of_bytes bs = None.
Proof.
  induction bs as [|lo|lo hi r IH] using list_ind2; intros H.
  - discriminate.
  - reflexivity.
  - rewrite Int16Array_of_bytes_step, IH; [reflexivity|exact H].
Qed.

Lemma Int16Array_of_bytes_even (bs : list Z) :
  Nat.even (List.length bs) = true ->
  exists a, Int16Array_of_bytes bs = Some a
            /\ (2 * List.length a = List.length bs)%nat.
Proof.
  induction bs as [|lo|lo hi r IH] using list_ind2; intros H.
  - now exists [].
  - discriminate.
  - destruct (IH H) as [a [E L]].
    exists (to_signed16 (Z.lor lo (Z.shiftl hi 8)) :: a).
    rewrite Int16Array_of_bytes_step, E. split; [reflexivity|].
    cbn [List.length]. lia.
Qed.

Local Open Scope Q_scope.

(** *** The quantizer *)

Lemma sample_to_int16_range (x : float) : is_int16 (sample_to_int16 x).
Proof.
  destruct x as [q| | |]; try (vm_compute; split; discriminate).
  destruct (clamp_Fin q) as [c [E _]].
  rewrite (sample_to_int16_clamped E).
  destruct (clamp_range E) as [Hlo Hhi].
  destruct (trunc_scaled_range Hlo Hhi) as [Rn Rp].
  destruct (lt_zero (Fin c)) eqn:Hs.
  - apply Rn. now apply lt_zero_Fin.
  - apply Rp. apply Qnot_lt_le. intros C. apply lt_zero_Fin in C. congruence.
Qed.

(** The source's quantizer computes what the specification words say. *)
Lemma sample_to_int16_spec (x : float) : sample_to_int16 x = spec_quantize x.
Proof.
  destruct x as [q| | |]; try reflexivity.
  destruct (clamp_Fin q) as [c [E Hc]].
  rewrite (sample_to_int16_clamped E). unfold spec_quantize.
  destruct (Qle_bool q (-1)) eqn:H1.
  { apply Qle_bool_iff in H1.
    assert (Ec : c == -1)
      by (destruct Hc as [[? ->]|[[? [? ->]]|[? ->]]]; lra).
    replace (lt_zero (Fin c)) with true
      by (symmetry; apply lt_zero_Fin; lra).
    rewrite (@trunc_Qeq (c * 32768) (inject_Z (-32768)));
      [apply trunc_inject_Z|].
    rewrite Ec. reflexivity. }
  assert (Hq1 : -1 < q).
  { apply Qnot_le_lt. intros C. apply Qle_bool_iff in C. congruence. }
  destruct (Qle_bool 1 q) eqn:H2.
  { apply Qle_bool_iff in H2.
    assert (Ec : c == 1)
      by (destruct Hc as [[? ->]|[[? [? ->]]|[? ->]]]; lra).
    replace (lt_zero (Fin c)) with false.
    2:{ symmetry. apply not_true_is_false. intros C.
        apply lt_zero_Fin in C. lra. }
    rewrite (@trunc_Qeq (c * 32767) (inject_Z 32767));
      [apply trunc_inject_Z|].
    rewrite Ec. reflexivity. }
  assert (Hq2 : q < 1).
  { apply Qnot_le_lt. intros C. apply Qle_bool_iff in C. congruence. }
  assert (Ec : c == q)
    by (destruct Hc as [[? ->]|[[? [? ->]]|[? ->]]]; lra).
  assert (Hlt : lt_zero (Fin c) = negb (Qle_bool 0 q)).
  { destruct (Qle_bool 0 q) eqn:H0; cbn [negb].
    - apply Qle_bool_iff in H0. apply not_true_is_false. intros C.
      apply lt_zero_Fin in C. lra.
    - apply lt_zero_Fin. rewrite Ec.
      apply Qnot_le_lt. intros C. apply Qle_bool_iff in C. congruence. }
  rewrite Hlt.
  destruct (negb (Qle_bool 0 q)); apply trunc_Qeq; now rewrite Ec.
Qed.

(** *** Encode, then decode *)

(** What [decodeAudioData] returns for the chunk [createPcmBlob] built. *)
Lemma decode_encode (samples : list float) :
  decodeAudioData (data (createPcmBlob samples))
  = match samples with
    | [] => inr NotSupportedError
    | _ :: _ =>
        inl {| numberOfChannels := 1; sampleRate := 24000;
               channelData :=
                 map (fun x => inject_Z (sample_to_int16 x) / 32768) samples |}
    end.
Proof.
  unfold decodeAudioData, createPcmBlob. cbn [data].
  rewrite atob_btoa.
  rewrite bytes_of_binary_of_bytes by apply bytes_of_int16_range.
  rewrite Int16Array_of_bytes_of_int16.
  2:{ apply Forall_forall. intros v Hv. apply in_map_iff in Hv.
      destruct Hv as [x [<- _]]. apply sample_to_int16_range. }
  rewrite length_map.
  destruct samples as [|x samples]; [reflexivity|].
  cbn [List.length createBuffer numberOfChannels sampleRate].
  now rewrite map_map.
Qed.

(** One sample through the codec: the error is below two quantization
    steps, and below one step for a negative sample. *)
Lemma sample_error (q : Q) :
  -1 <= q -> q <= 1 ->
  let y := inject_Z (sample_to_int16 (Fin q)) / 32768 in
  (q < 0 -> q <= y /\ y - q < 1 / 32768)
  /\ (0 <= q -> y <= q /\ q - y < 2 / 32768).
Proof.
  intros Hlo Hhi y. subst y.
  destruct (clamp_Fin q) as [c [E _]].
  pose proof (clamp_in_range E Hlo Hhi) as Ec.
  rewrite (sample_to_int16_clamped E).
  unfold Qdiv. change (/ 32768) with (1 # 32768).
  split; intros Hs.
  - replace (lt_zero (Fin c)) with true
      by (symmetry; apply lt_zero_Fin; lra).
    destruct (@trunc_nonpos (c * 32768)) as [B1 B2]; [lra|].
    split; lra.
  - replace (lt_zero (Fin c)) with false.
    2:{ symmetry. apply not_true_is_false. intros C.
        apply lt_zero_Fin in C. lra. }
    destruct (@trunc_nonneg (c * 32767)) as [B1 B2]; [lra|].
    split; lra.
Qed.

(** *** When decoding fails, and what a successful decode holds *)

Lemma length_bytes_of_binary (s : string) :
  List.length (bytes_of_binary s) = String.length s.
Proof.
  unfold bytes_of_binary. rewrite length_map.
  induction s as [|c s IH]; [reflexivity|]. cbn. now rewrite IH.
Qed.

Lemma bytes_of_binary_range (s : string) :
  Forall Base64.is_byte (bytes_of_binary s).
Proof.
  apply Forall_forall. intros z Hz. apply in_map_iff in Hz.
  destruct Hz as [c [<- _]]. apply code_is_byte.
Qed.

Lemma decodeAudioData_malformed (base64 : string) :
  Base64.atob base64 = None ->
  decodeAudioData base64 = inr InvalidCharacterError.
Proof. intros E. unfold decodeAudioData. now rewrite E. Qed.

Lemma decodeAudioData_odd (base64 binary : string) :
  Base64.atob base64 = Some binary ->
  Nat.odd (String.length binary) = true ->
  decodeAudioData base64 = inr RangeError.
Proof.
  intros E Hodd. unfold decodeAudioData. rewrite E.
  rewrite Int16Array_of_bytes_odd; [reflexivity|].
  now rewrite length_bytes_of_binary.
Qed.

(** A decoded buffer is mono at 24000 Hz and holds the little-endian
    16-bit values of the chunk, each divided by 32768. *)
Lemma decodeAudioData_ok (base64 : string) (buffer : AudioBuffer) :
  decodeAudioData base64 = inl buffer ->
  numberOfChannels buffer = 1%Z /\ sampleRate buffer = 24000%Z /\
  exists binary a,
    Base64.atob base64 = Some binary /\
    Forall is_int16 a /\
    bytes_of_binary binary = flat_map spec_le_bytes a /\
    channelData buffer = map (fun v => inject_Z v / 32768) a.
Proof.
  unfold decodeAudioData.
  destruct (Base64.atob base64) as [binary|]; [|discriminate].
  destruct (Int16Array_of_bytes (bytes_of_binary binary)) as [a|] eqn:Ea;
    [|discriminate].
  destruct (createBuffer 1 (List.length a) 24000) as [b|] eqn:Eb;
    [|discriminate].
  intros E. injection E as <-. cbn.
  destruct a as [|v a]; [discriminate|]. injection Eb as <-. cbn.
  split; [reflexivity|]. split; [reflexivity|].
  exists binary, (v :: a). split; [reflexivity|].
  destruct (Int16Array_of_bytes_le (bytes_of_binary_range binary) Ea)
    as [R L].
  split; [exact R|]. split; [exact L|reflexivity].
Qed.

(** The chunk [createPcmBlob] builds, laid out. *)
Lemma createPcmBlob_bytes (samples : list float) :
  let int16 := map spec_quantize samples in
  let bytes := flat_map spec_le_bytes int16 in
  Forall is_int16 int16 /\
  Forall Base64.is_byte bytes /\
  List.length bytes = (2 * List.length samples)%nat /\
  createPcmBlob samples
  = {| data := Base64.btoa (binary_of_bytes bytes);
       mimeType := "audio/pcm;rate=16000" |} /\
  Base64.atob (data (createPcmBlob samples)) = Some (binary_of_bytes bytes).
Proof.
  intros int16 bytes.
  assert (E1 : map sample_to_int16 samples = int16).
  { unfold int16. apply map_ext. apply sample_to_int16_spec. }
  assert (E2 : bytes_of_int16 int16 = bytes).
  { unfold bytes, bytes_of_int16. clear.
    induction int16 as [|v l IH]; [reflexivity|].
    cbn [flat_map]. now rewrite int16_bytes_le, IH. }
  split.
  { rewrite <- E1. apply Forall_forall. intros v Hv.
    apply in_map_iff in Hv. destruct Hv as [x [<- _]].
    apply sample_to_int16_range. }
  split.
  { rewrite <- E2. apply bytes_of_int16_range. }
  split.
  { rewrite <- E2, length_bytes_of_int16. unfold int16.
    now rewrite length_map. }
  assert (E3 : createPcmBlob samples
               = {| data := Base64.btoa (binary_of_bytes bytes);
                    mimeType := "audio/pcm;rate=16000" |}).
  { unfold createPcmBlob. now rewrite E1, E2. }
  split; [exact E3|].
  rewrite E3. cbn [data]. apply atob_btoa.
Qed.

(** The text of the chunk is the base64 alphabet over the little-endian
    bytes, three bytes to four characters; [atob] gives back a string
    whose character codes are those bytes; and read two by two, low byte
    first, the bytes are the 16-bit values. *)
Lemma createPcmBlob_text (samples : list float) :
  let int16 := map spec_quantize samples in
  let bytes := flat_map spec_le_bytes int16 in
  data (createPcmBlob samples)
  = string_of_list_ascii (Base64.btoa_chars bytes) /\
  (exists binary,
      Base64.atob (data (createPcmBlob samples)) = Some binary /\
      map (fun c => Z.of_nat (nat_of_ascii c)) (list_ascii_of_string binary)
      = bytes) /\
  Int16Array_of_bytes bytes = Some int16.
Proof.
  intros int16 bytes.
  pose proof (createPcmBlob_bytes samples) as H. cbn zeta in H.
  fold int16 in H. fold bytes in H.
  destruct H as [H1 [H2 [_ [H4 H5]]]].
  pose proof (bytes_of_binary_of_bytes H2) as Hb.
  split; [|split].
  - rewrite H4. cbn [data]. unfold Base64.btoa.
    now fold (bytes_of_binary (binary_of_bytes bytes)); rewrite Hb.
  - exists (binary_of_bytes bytes). split; [exact H5|exact Hb].
  - assert (E2 : bytes_of_int16 int16 = bytes).
    { unfold bytes, bytes_of_int16. clear.
      induction int16 as [|v l IH]; [reflexivity|].
      cbn [flat_map]. now rewrite int16_bytes_le, IH. }
    rewrite <- E2. now apply Int16Array_of_bytes_of_int16.
Qed.

End PcmFacts.

(* ================================================================== *)
(** ** Facts: playback scheduler and tool dispatch *)
(* ================================================================== *)

Module LiveFacts.

Import Pcm.
Import Live.
Local Open Scope Q_scope.

Lemma Math_max_ge_l (a b : Q) : a <= Math_max a b.
Proof.
  unfold Math_max. destruct (Qle_bool a b) eqn:E.
  - now apply Qle_bool_iff.
  - apply Qle_refl.
Qed.

Lemma Math_max_ge_r (a b : Q) : b <= Math_max a b.
Proof.
  unfold Math_max. destruct (Qle_bool a b) eqn:E.
  - apply Qle_refl.
  - apply Qlt_le_weak, Qnot_le_lt. intros C.
    apply Qle_bool_iff in C. congruence.
Qed.

Lemma Math_max_cursor (a b : Q) : b <= a -> Math_max a b == a.
Proof.
  intros H. unfold Math_max. destruct (Qle_bool a b) eqn:E.
  - apply Qle_bool_iff in E. now apply Qle_antisym.
  - reflexivity.
Qed.

(** *** Traces *)

Lemma frames_sent_app (e1 e2 : list Event) :
  frames_sent (e1 ++ e2) = frames_sent e1 ++ frames_sent e2.
Proof.
  induction e1 as [|e e1 IH]; [reflexivity|].
  destruct e; cbn [app frames_sent]; now rewrite IH.
Qed.

Lemma starts_app (e1 e2 : list Event) :
  starts (e1 ++ e2) = starts e1 ++ starts e2.
Proof.
  induction e1 as [|e e1 IH]; [reflexivity|].
  destruct e; cbn [app starts]; now rewrite IH.
Qed.

Lemma frames_sent_stopped (l : list nat) :
  frames_sent (map BufferStopped l) = [].
Proof. induction l; [reflexivity|exact IHl]. Qed.

Lemma starts_stopped (l : list nat) : starts (map BufferStopped l) = [].
Proof. induction l; [reflexivity|exact IHl]. Qed.

Lemma frames_sent_playAudio now node b st :
  frames_sent (snd (playAudio now node b st)) = [].
Proof. unfold playAudio. now destruct (decodeAudioData b). Qed.

Lemma frames_sent_sendToolResponse rs st :
  frames_sent (sendToolResponse rs st)
  = match activeSessionPromise st with
    | Some session => [(session, rs)]
    | None => []
    end.
Proof. unfold sendToolResponse. now destruct (activeSessionPromise st). Qed.

(** The frames [afterToolCalls] sends: the batch, if there is one and a
    session to send it on. *)
Lemma frames_sent_afterToolCalls now node responses message st :
  frames_sent (snd (afterToolCalls now node responses message st))
  = match responses, activeSessionPromise st with
    | Some rs, Some session => [(session, rs)]
    | _, _ => []
    end.
Proof.
  unfold afterToolCalls, onInterrupted.
  assert (Hsent : frames_sent (match responses with
                               | Some rs => sendToolResponse rs st
                               | None => []
                               end)
                  = match responses, activeSessionPromise st with
                    | Some rs, Some session => [(session, rs)]
                    | _, _ => []
                    end).
  { destruct responses as [rs|]; [|reflexivity].
    rewrite frames_sent_sendToolResponse.
    now destruct (activeSessionPromise st). }
  destruct (chunkToDecode message st) as [b|].
  - pose proof (frames_sent_playAudio now node b st) as Hp.
    destruct (playAudio now node b st) as [st1 played]. cbn [snd] in Hp.
    destruct (isInterrupted message); cbn [stopAudioPlayback snd];
      rewrite !frames_sent_app, Hp, Hsent, ?frames_sent_stopped,
        ?app_nil_r; reflexivity.
  - destruct (isInterrupted message); cbn [stopAudioPlayback snd];
      rewrite ?frames_sent_app, ?frames_sent_stopped, Hsent; reflexivity.
Qed.

(** *** A chunk that fails to decode *)

Lemma keep_stopped (l : list nat) :
  filter keep (map BufferStopped l) = map BufferStopped l.
Proof. induction l as [|n l IH]; [reflexivity|]. cbn. now rewrite IH. Qed.

Lemma keep_callbacks (calls : list FunctionCall) :
  filter keep (map ToolCallback calls) = map ToolCallback calls.
Proof. induction calls as [|c l IH]; [reflexivity|]. cbn. now rewrite IH. Qed.

Lemma keep_sendToolResponse rs st :
  filter keep (sendToolResponse rs st) = sendToolResponse rs st.
Proof. unfold sendToolResponse. now destruct (activeSessionPromise st). Qed.

Lemma base64Audio_withoutAudio message :
  base64Audio (withoutAudio message) = None.
Proof.
  unfold base64Audio, withoutAudio. cbn.
  now destruct (serverContent message).
Qed.

Lemma isInterrupted_withoutAudio message :
  isInterrupted (withoutAudio message) = isInterrupted message.
Proof.
  unfold isInterrupted, withoutAudio. cbn.
  now destruct (serverContent message).
Qed.

Lemma chunkToDecode_withoutAudio message st :
  chunkToDecode (withoutAudio message) st = None.
Proof. unfold chunkToDecode. now rewrite base64Audio_withoutAudio. Qed.

Lemma onInterrupted_withoutAudio now message st :
  onInterrupted now (withoutAudio message) st = onInterrupted now message st.
Proof. unfold onInterrupted. now rewrite isInterrupted_withoutAudio. Qed.

(** With a chunk that does not decode, the handler ends in the state it
    would reach without the chunk and starts no buffer; the decode is
    attempted, and its failure logged, exactly when there is an output
    to play on; apart from the log the effects are those of the message
    without the chunk, the tool response coming before the interruption
    instead of after it when the decode was attempted. *)
Lemma afterToolCalls_failed_chunk now node responses message st b e :
  base64Audio message = Some b ->
  decodeAudioData b = inr e ->
  let sent := match responses with
              | Some rs => sendToolResponse rs st
              | None => []
              end in
  let stopped := snd (onInterrupted now message st) in
  fst (afterToolCalls now node responses message st)
  = fst (onInterrupted now message st)
  /\ afterToolCalls now node responses (withoutAudio message) st
     = (fst (onInterrupted now message st), stopped ++ sent)
  /\ snd (afterToolCalls now node responses message st)
     = match chunkToDecode message st with
       | Some _ => sent ++ ConsoleError "Error decoding audio:" :: stopped
       | None => stopped ++ sent
       end.
Proof.
  intros Hb He sent stopped. unfold afterToolCalls.
  rewrite chunkToDecode_withoutAudio, onInterrupted_withoutAudio.
  fold sent.
  assert (Hc : chunkToDecode message st = Some b
               \/ chunkToDecode message st = None).
  { unfold chunkToDecode. rewrite Hb.
    destruct (outputAudioContext st), (outputNode st), (truthy b); auto. }
  unfold stopped.
  destruct Hc as [-> | ->].
  - unfold playAudio. rewrite He.
    destruct (onInterrupted now message st) as [st2 ev2]. cbn [fst snd].
    repeat split; reflexivity.
  - destruct (onInterrupted now message st) as [st2 ev2]. cbn [fst snd].
    repeat split; reflexivity.
Qed.

Lemma afterToolCalls_withoutAudio now node responses message st :
  fst (afterToolCalls now node responses (withoutAudio message) st)
  = if isInterrupted message then fst (stopAudioPlayback now st) else st.
Proof.
  unfold afterToolCalls.
  rewrite chunkToDecode_withoutAudio, onInterrupted_withoutAudio.
  unfold onInterrupted. now destruct (isInterrupted message).
Qed.

(** Effects other than the error log. *)
Lemma quiet_filter (evs : list Event) :
  forallb keep evs = true ->
  filter keep evs = evs /\ filter is_console_error evs = [].
Proof.
  induction evs as [|e evs IH]; intros H; [split; reflexivity|].
  cbn [forallb] in H. apply andb_true_iff in H. destruct H as [He H].
  destruct (IH H) as [I1 I2]. cbn [filter]. rewrite He.
  unfold keep in He. apply negb_true_iff in He. rewrite He.
  now rewrite I1, I2.
Qed.

Lemma quiet_sent responses st :
  forallb keep (match responses with
                | Some rs => sendToolResponse rs st
                | None => []
                end) = true.
Proof.
  destruct responses; [|reflexivity]. unfold sendToolResponse.
  now destruct (activeSessionPromise st).
Qed.

Lemma quiet_onInterrupted now message st :
  forallb keep (snd (onInterrupted now message st)) = true.
Proof.
  unfold onInterrupted. destruct (isInterrupted message); [|reflexivity].
  cbn [stopAudioPlayback snd].
  induction (sources st) as [|n l IH]; [reflexivity|exact IH].
Qed.

Lemma quiet_callbacks (calls : list FunctionCall) :
  forallb keep (map ToolCallback calls) = true.
Proof. induction calls as [|c l IH]; [reflexivity|exact IH]. Qed.

Lemma starts_sent responses st :
  starts (match responses with
          | Some rs => sendToolResponse rs st
          | None => []
          end) = [].
Proof.
  destruct responses; [|reflexivity]. unfold sendToolResponse.
  now destruct (activeSessionPromise st).
Qed.

Lemma starts_onInterrupted now message st :
  starts (snd (onInterrupted now message st)) = [].
Proof.
  unfold onInterrupted. destruct (isInterrupted message); [|reflexivity].
  apply starts_stopped.
Qed.

Lemma set_playback_twice st a b c d :
  set_playback (set_playback st a b) c d = set_playback st c d.
Proof. reflexivity. Qed.

(** The handler changes the playback cursor and the pending set only. *)
Lemma afterToolCalls_frame now node responses message st :
  let st1 := fst (afterToolCalls now node responses message st) in
  set_playback st1 (nextStartTime st) (sources st) = st.
Proof.
  unfold afterToolCalls, onInterrupted.
  destruct (chunkToDecode message st) as [b|].
  - assert (Hplay : set_playback (fst (playAudio now node b st))
                      (nextStartTime st) (sources st) = st).
    { unfold playAudio, schedule.
      destruct (decodeAudioData b); destruct st; reflexivity. }
    destruct (playAudio now node b st) as [st1 played]. cbn [fst] in Hplay.
    destruct (isInterrupted message); unfold stopAudioPlayback; cbn [fst].
    + now rewrite set_playback_twice.
    + exact Hplay.
  - destruct (isInterrupted message); unfold stopAudioPlayback; cbn [fst];
      destruct st; reflexivity.
Qed.

(** A message that carries only a chunk that decodes is scheduled. *)
Lemma afterToolCalls_schedules now node responses message st b buffer c g :
  base64Audio message = Some b -> truthy b = true ->
  decodeAudioData b = inl buffer ->
  outputAudioContext st = Some c -> outputNode st = Some g ->
  isInterrupted message = false ->
  afterToolCalls now node responses message st
  = (fst (schedule now node buffer st),
     match responses with
     | Some rs => sendToolResponse rs st
     | None => []
     end ++ snd (schedule now node buffer st)).
Proof.
  intros Hb Ht Hd Hc Hg Hi.
  unfold afterToolCalls, chunkToDecode, onInterrupted, playAudio.
  rewrite Hb, Hc, Hg, Ht, Hd, Hi. cbn [schedule fst snd].
  now rewrite app_nil_r.
Qed.

(** *** The tool loop *)

Section DispatchFacts.

Variable W : Type.
Implicit Type cb : Callback W.

Lemma dispatch_responses cb (calls : list FunctionCall) (w : W) :
  fst (fst (dispatch cb calls w))
  = map (fun p => respond (fst p) (snd p))
      (combine calls (outcomes cb calls w)).
Proof.
  revert w. induction calls as [|fc calls IH]; intros w; [reflexivity|].
  cbn [dispatch outcomes].
  destruct (cb (fc_name fc) (fc_args fc) w) as [o w1].
  specialize (IH w1).
  destruct (dispatch cb calls w1) as [[rs evs] w2].
  cbn [fst combine map] in *. now rewrite IH.
Qed.

Lemma length_outcomes cb (calls : list FunctionCall) (w : W) :
  List.length (outcomes cb calls w) = List.length calls.
Proof.
  revert w. induction calls as [|fc calls IH]; intros w; [reflexivity|].
  cbn [outcomes]. destruct (cb (fc_name fc) (fc_args fc) w) as [o w1].
  cbn [List.length]. now rewrite IH.
Qed.

Lemma dispatch_events cb (calls : list FunctionCall) (w : W) :
  snd (fst (dispatch cb calls w)) = map ToolCallback calls.
Proof.
  revert w. induction calls as [|fc calls IH]; intros w; [reflexivity|].
  cbn [dispatch]. destruct (cb (fc_name fc) (fc_args fc) w) as [o w1].
  specialize (IH w1). destruct (dispatch cb calls w1) as [[rs evs] w2].
  cbn [fst snd map] in *. now rewrite IH.
Qed.

(** One response per call, in order, with the call's id and name. *)
Lemma dispatch_one_to_one cb (calls : list FunctionCall) (w : W) :
  Forall2 (fun fc fr => fr_id fr = fc_id fc /\ fr_name fr = fc_name fc)
    calls (fst (fst (dispatch cb calls w))).
Proof.
  revert w. induction calls as [|fc calls IH]; intros w.
  - constructor.
  - cbn [dispatch]. destruct (cb (fc_name fc) (fc_args fc) w) as [o w1].
    specialize (IH w1). destruct (dispatch cb calls w1) as [[rs evs] w2].
    cbn [fst] in *. constructor; [|exact IH].
    destruct o; cbn; auto.
Qed.

(** The body of each response follows the outcome of its callback: the
    resolved value as [result], or the constant [error] text. *)
Lemma dispatch_bodies cb (calls : list FunctionCall) (w : W) :
  Forall2 (fun o fr =>
             fr_response fr
             = match o with
               | Resolved value => result value
               | Rejected _ => error "Failed to execute function"
               end)
    (outcomes cb calls w) (fst (fst (dispatch cb calls w))).
Proof.
  revert w. induction calls as [|fc calls IH]; intros w.
  - constructor.
  - cbn [dispatch outcomes].
    destruct (cb (fc_name fc) (fc_args fc) w) as [o w1].
    specialize (IH w1). destruct (dispatch cb calls w1) as [[rs evs] w2].
    cbn [fst] in *. constructor; [|exact IH].
    now destruct o.
Qed.

Lemma dispatch_nth cb (calls : list FunctionCall) (w : W) (k : nat)
  (fc : FunctionCall) (o : Outcome) :
  nth_error calls k = Some fc ->
  nth_error (outcomes cb calls w) k = Some o ->
  nth_error (fst (fst (dispatch cb calls w))) k = Some (respond fc o).
Proof.
  revert w k. induction calls as [|fc' calls IH]; intros w k Hc Ho.
  - destruct k; discriminate.
  - cbn [dispatch outcomes] in *.
    destruct (cb (fc_name fc') (fc_args fc') w) as [o' w1].
    specialize (IH w1).
    destruct (dispatch cb calls w1) as [[rs evs] w2]. cbn [fst] in *.
    destruct k as [|k]; cbn [nth_error] in *.
    + congruence.
    + now apply IH.
Qed.

Lemma frames_sent_callbacks (calls : list FunctionCall) :
  frames_sent (map ToolCallback calls) = [].
Proof. induction calls; [reflexivity|assumption]. Qed.

(** The frames one run of [handleMessage] sends. *)
Lemma frames_sent_handleMessage now node (ocb : option (Callback W))
  message st w :
  frames_sent (snd (fst (handleMessage now node ocb message st w)))
  = match toolCall message, ocb, activeSessionPromise st with
    | Some tc, Some f, Some session =>
        [(session, fst (fst (dispatch f (functionCalls tc) w)))]
    | _, _, _ => []
    end.
Proof.
  unfold handleMessage.
  destruct (toolCall message) as [tc|], ocb as [f|].
  - pose proof (frames_sent_afterToolCalls now node
                  (Some (fst (fst (dispatch f (functionCalls tc) w))))
                  message st) as H.
    pose proof (dispatch_events f (functionCalls tc) w) as He.
    destruct (dispatch f (functionCalls tc) w) as [[rs called] w1].
    cbn [fst snd] in *.
    destruct (afterToolCalls now node (Some rs) message st) as [st1 evs].
    cbn [fst snd] in *.
    rewrite frames_sent_app, He, frames_sent_callbacks, H. reflexivity.
  - pose proof (frames_sent_afterToolCalls now node None message st) as H.
    destruct (afterToolCalls now node None message st) as [st1 evs].
    cbn [fst snd] in *. rewrite H. reflexivity.
  - pose proof (frames_sent_afterToolCalls now node None message st) as H.
    destruct (afterToolCalls now node None message st) as [st1 evs].
    cbn [fst snd] in *. rewrite H. reflexivity.
  - pose proof (frames_sent_afterToolCalls now node None message st) as H.
    destruct (afterToolCalls now node None message st) as [st1 evs].
    cbn [fst snd] in *. rewrite H. reflexivity.
Qed.

End DispatchFacts.

End LiveFacts.

(* ================================================================== *)
(** ** Facts: life cycle *)
(* ================================================================== *)

Module LifecycleFacts.

Import Pcm.
Import Live.
Local Open Scope Q_scope.

(** The manager with everything released. *)
Lemma cleanup_state (now : Q) (st : LiveSessionManager) :
  fst (cleanup now st)
  = {| activeSessionPromise := None; inputAudioContext := None;
       outputAudioContext := None; mediaStream := None; processor := None;
       source := None; nextStartTime := 0; sources := [];
       outputNode := outputNode st |}.
Proof. reflexivity. Qed.

Lemma cleanup_events (now : Q) (st : LiveSessionManager) :
  snd (cleanup now st)
  = map BufferStopped (sources st) ++ teardown_events st.
Proof. reflexivity. Qed.

(** [cleanup] is idempotent: a second run releases nothing. *)
Lemma cleanup_twice (now later : Q) (st : LiveSessionManager) :
  cleanup later (fst (cleanup now st)) = (fst (cleanup now st), []).
Proof. reflexivity. Qed.

Lemma mics_alive_app (alive : list nat) (e1 e2 : list Event) :
  mics_alive alive (e1 ++ e2) = mics_alive (mics_alive alive e1) e2.
Proof.
  revert alive. induction e1 as [|e e1 IH]; intros alive; [reflexivity|].
  destruct e; cbn [app mics_alive]; apply IH.
Qed.

Lemma at_most_one_mic_app (alive : list nat) (e1 e2 : list Event) :
  at_most_one_mic alive e1 ->
  at_most_one_mic (mics_alive alive e1) e2 ->
  at_most_one_mic alive (e1 ++ e2).
Proof.
  revert alive. induction e1 as [|e e1 IH]; intros alive H1 H2.
  - exact H2.
  - destruct H1 as [Hlen H1]. split; [exact Hlen|].
    apply IH; [exact H1|].
    destruct e; exact H2.
Qed.

Lemma mics_alive_stopped (alive l : list nat) :
  mics_alive alive (map BufferStopped l) = alive.
Proof. induction l as [|n l IH]; [reflexivity|exact IH]. Qed.

Lemma at_most_one_mic_stopped (alive l : list nat) :
  (List.length alive <= 1)%nat ->
  at_most_one_mic alive (map BufferStopped l).
Proof.
  intros H. induction l as [|n l IH]; cbn; [auto|split; [exact H|exact IH]].
Qed.

Lemma sessions_open_app (open : list nat) (e1 e2 : list Event) :
  sessions_open open (e1 ++ e2) = sessions_open (sessions_open open e1) e2.
Proof.
  revert open. induction e1 as [|e e1 IH]; intros open; [reflexivity|].
  destruct e; cbn [app sessions_open]; apply IH.
Qed.

Lemma sessions_open_stopped (open l : list nat) :
  sessions_open open (map BufferStopped l) = open.
Proof. induction l as [|n l IH]; [reflexivity|exact IH]. Qed.

Lemma acquires_stopped (l : list nat) :
  existsb acquires (map BufferStopped l) = false.
Proof. induction l as [|n l IH]; [reflexivity|exact IH]. Qed.

Lemma filter_self (m : nat) :
  filter (fun x => negb (Nat.eqb x m)) [m] = [].
Proof. cbn. now rewrite Nat.eqb_refl. Qed.

(** After the teardown no microphone stream the manager held is live. *)
Lemma teardown_mics (st : LiveSessionManager) :
  at_most_one_mic (opt_list (mediaStream st)) (teardown_events st)
  /\ mics_alive (opt_list (mediaStream st)) (teardown_events st) = [].
Proof.
  unfold teardown_events.
  destruct (processor st), (source st), (mediaStream st) as [m|],
    (inputAudioContext st), (outputAudioContext st);
    cbn; unfold step_mics; cbn; rewrite ?Nat.eqb_refl; cbn;
    repeat split; auto.
Qed.

Lemma teardown_no_acquire (st : LiveSessionManager) :
  existsb acquires (teardown_events st) = false.
Proof.
  unfold teardown_events.
  now destruct (processor st), (source st), (mediaStream st),
    (inputAudioContext st), (outputAudioContext st).
Qed.

Lemma teardown_sessions (open : list nat) (st : LiveSessionManager) :
  sessions_open open (teardown_events st) = open.
Proof.
  unfold teardown_events.
  now destruct (processor st), (source st), (mediaStream st),
    (inputAudioContext st), (outputAudioContext st).
Qed.

(** Everything the manager held has its release in the events of
    [cleanup]. *)
Lemma cleanup_releases (now : Q) (st : LiveSessionManager) :
  let evs := snd (cleanup now st) in
  (forall n, In n (sources st) -> In (BufferStopped n) evs) /\
  (forall p, processor st = Some p -> In (ProcessorDisconnected p) evs) /\
  (forall s, source st = Some s -> In (SourceDisconnected s) evs) /\
  (forall m, mediaStream st = Some m -> In (TrackStopped m) evs) /\
  (forall c, inputAudioContext st = Some c ->
             In (ContextClosed (ctx_id c)) evs) /\
  (forall c, outputAudioContext st = Some c ->
             In (ContextClosed (ctx_id c)) evs).
Proof.
  cbn zeta. rewrite cleanup_events. unfold teardown_events.
  repeat split.
  - intros n Hn. apply in_or_app. left. now apply in_map.
  - intros p ->. apply in_or_app. right. cbn. now left.
  - intros s ->. apply in_or_app. right.
    apply in_or_app. right. cbn. now left.
  - intros m ->. apply in_or_app. right.
    do 2 (apply in_or_app; right). cbn. now left.
  - intros c ->. apply in_or_app. right.
    do 3 (apply in_or_app; right). cbn. now left.
  - intros c ->. apply in_or_app. right.
    do 4 (apply in_or_app; right). cbn. now left.
Qed.

(** A start that cannot get the microphone throws, leaves no session
    and holds nothing: the contexts it had created are closed again. *)
Lemma start_denied (now : Q) (env : StartEnv) (st : LiveSessionManager) :
  getUserMedia env = None ->
  let '(res, st1, evs) := startSession now env st in
  res = Thrown /\
  st1 = {| activeSessionPromise := None; inputAudioContext := None;
           outputAudioContext := None; mediaStream := None;
           processor := None; source := None; nextStartTime := 0;
           sources := []; outputNode := Some (newGain env) |} /\
  In (ContextClosed (newInput env)) evs /\
  In (ContextClosed (newOutput env)) evs /\
  mics_alive (opt_list (mediaStream st)) evs = [].
Proof.
  intros Hmic. unfold startSession, stopSession. rewrite Hmic.
  pose proof (cleanup_events now st) as Ev.
  pose proof (cleanup_state now st) as St.
  destruct (cleanup now st) as [st0 evs0]. cbn [fst snd] in *. subst st0.
  cbn [cleanup stopAudioPlayback set_playback sources processor source
       mediaStream inputAudioContext outputAudioContext outputNode
       opt_events map app ctx_id].
  split; [reflexivity|]. split; [reflexivity|].
  split; [|split].
  - apply in_or_app. right. cbn. auto 10.
  - apply in_or_app. right. cbn. auto 10.
  - rewrite !mics_alive_app, Ev, mics_alive_app, mics_alive_stopped.
    assert (Hc : forall alive,
              mics_alive alive
                (match activeSessionPromise st with
                 | Some session =>
                     match closing env with
                     | CloseReturned => [CloseRequested session]
                     | CloseThrew =>
                         [CloseRequested session;
                          ConsoleWarn "Error closing session:"]
                     | PromiseRejected =>
                         [ConsoleWarn "Error closing session:"]
                     end
                 | None => []
                 end) = alive).
    { intros alive.
      destruct (activeSessionPromise st); [|reflexivity].
      destruct (closing env); reflexivity. }
    rewrite Hc. destruct (teardown_mics st) as [_ ->]. reflexivity.
Qed.

End LifecycleFacts.

(* ================================================================== *)
(** ** Facts: message delivery *)
(* ================================================================== *)

Module LoopFacts.

Import Pcm.
Import Live.
Import Loop.












(** *** The handler run to completion is one run of the loop *)

Section Completion.

Variable W : Type.
Variable cb : Callback W.
Variables (now : Q) (node : nat) (message : LiveServerMessage).

Lemma settle_all (rest : list FunctionCall) :
  forall (fc : FunctionCall) (acc : list FunctionResponse) (w : W)
         (st : LiveSessionManager) (flag : bool)
         (queued : list LiveServerMessage) (n m : nat)
         (tr : list (nat * Event)),
    let after :=
      afterToolCalls now node
        (Some (acc ++ fst (fst (dispatch cb (fc :: rest) w)))) message st in
    run (settles cb now node (fc :: rest) w)
      {| manager := st; hasCallback := flag; inbox := queued; arrived := m;
         suspended := [{| s_index := n; s_message := message;
                          s_responses := acc; s_call := fc;
                          s_rest := rest |}];
         trace := tr |}
    = Some {| manager := fst after; hasCallback := flag; inbox := queued;
              arrived := m; suspended := [];
              trace := tr ++ tag n (map ToolCallback rest ++ snd after) |}.
Proof.
  induction rest as [|fc' rest IH]; intros fc acc w st flag queued n m tr.
  - cbn zeta. unfold settles. cbn [outcomes dispatch].
    destruct (cb (fc_name fc) (fc_args fc) w) as [o w1].
    cbn [map run exec nth_error suspended s_index s_message s_responses
         s_call s_rest manager continue fst snd app].
    destruct (afterToolCalls now node (Some (acc ++ [respond fc o])) message st)
      as [st1 evs].
    cbn [remove_nth opt_list app hasCallback inbox arrived trace fst snd].
    reflexivity.
  - cbn zeta. unfold settles.
    change (outcomes cb (fc :: fc' :: rest) w)
      with (let '(o, w1) := cb (fc_name fc) (fc_args fc) w in
            o :: outcomes cb (fc' :: rest) w1).
    change (dispatch cb (fc :: fc' :: rest) w)
      with (let '(o, w1) := cb (fc_name fc) (fc_args fc) w in
            let '(rs, evs, w2) := dispatch cb (fc' :: rest) w1 in
            (respond fc o :: rs, ToolCallback fc :: evs, w2)).
    destruct (cb (fc_name fc) (fc_args fc) w) as [o w1].
    cbn [map run exec nth_error suspended s_index s_message s_responses
         s_call s_rest manager continue].
    cbn [remove_nth opt_list app hasCallback inbox arrived trace].
    specialize (IH fc' (acc ++ [respond fc o]) w1 st flag queued n m
                  (tr ++ tag n [ToolCallback fc'])).
    cbn zeta in IH. unfold settles in IH. rewrite IH.
    destruct (dispatch cb (fc' :: rest) w1) as [[rs evs] w2].
    cbn [fst snd]. rewrite <- !app_assoc. cbn [app tag map].
    reflexivity.
Qed.

(** Delivering a message and settling each of its callbacks at once gives
    the state and the effects of [handleMessage]. *)
Lemma handleMessage_as_run (st : LiveSessionManager) (w : W)
  (queued : list LiveServerMessage) (n : nat) (tr : list (nat * Event)) :
  let calls := match toolCall message with
               | Some tc => functionCalls tc
               | None => []
               end in
  let done := handleMessage now node (Some cb) message st w in
  run (Deliver now node :: settles cb now node calls w)
    {| manager := st; hasCallback := true; inbox := message :: queued;
       arrived := n; suspended := []; trace := tr |}
  = Some {| manager := fst (fst done); hasCallback := true; inbox := queued;
            arrived := S n; suspended := [];
            trace := tr ++ tag n (snd (fst done)) |}.
Proof.
  cbn zeta. unfold handleMessage.
  cbn [run exec inbox hasCallback arrived manager suspended trace].
  destruct (toolCall message) as [tc|].
  - destruct (functionCalls tc) as [|fc rest].
    + cbn [continue dispatch settles outcomes map run].
      destruct (afterToolCalls now node (Some []) message st) as [st1 evs].
      reflexivity.
    + cbn [continue app opt_list].
      rewrite settle_all. cbn zeta.
      pose proof (LiveFacts.dispatch_events cb (fc :: rest) w) as He.
      destruct (dispatch cb (fc :: rest) w) as [[rs called] w1].
      cbn [fst snd app] in *. subst called.
      destruct (afterToolCalls now node (Some rs) message st) as [st1 evs].
      cbn [fst snd]. rewrite <- app_assoc. reflexivity.
  - cbn [settles outcomes map run].
    destruct (afterToolCalls now node None message st) as [st1 evs].
    reflexivity.
Qed.

End Completion.

End LoopFacts.

(* ================================================================== *)
(** ** Facts: calls in flight *)
(* ================================================================== *)

Module CallsFacts.

Import Pcm.
Import Live.
Import Calls.
Local Open Scope Q_scope.




(** *** Sample rates *)

Lemma rates_cleanup (now : Q) (st : LiveSessionManager) :
  rates_as_created (fst (cleanup now st)).
Proof. split; intros c H; discriminate H. Qed.

Lemma rates_finishStop k now pre st :
  rates_as_created (snd (fst (finishStop k now pre st))).
Proof.
  unfold finishStop. pose proof (rates_cleanup now st) as H.
  destruct (cleanup now st) as [st1 evs]. exact H.
Qed.

Lemma rates_enter k now st :
  rates_as_created st -> rates_as_created (snd (fst (enter k now st))).
Proof.
  intros H. unfold enter.
  destruct (activeSessionPromise st); [exact H|apply rates_finishStop].
Qed.

Lemma rates_resume k p now st :
  rates_as_created st -> rates_as_created (snd (fst (resume k p now st))).
Proof.
  intros H. unfold resume. destruct p.
  - destruct (closing_of k); [exact H| |]; apply rates_finishStop.
  - apply rates_finishStop.
  - destruct k; [|exact H].
    split; intros c E; injection E as <-; reflexivity.
  - destruct k; [|exact H].
    destruct (getUserMedia env).
    + exact H.
    + pose proof (rates_cleanup now st) as Hc.
      destruct (cleanup now st) as [st1 evs]. exact Hc.
Qed.

Lemma rates_settle k others r c :
  rates_as_created (snd (fst r)) -> rates_as_created (held (settle k others r c)).
Proof. destruct r as [[progress st1] evs]. intros H. exact H. Qed.

Lemma rates_exec (l : Label) (c c1 : Config) :
  rates_as_created (held c) -> exec l c = Some c1 ->
  rates_as_created (held c1).
Proof.
  intros H E. destruct l; cbn [exec] in E.
  - injection E as <-. apply rates_settle. now apply rates_enter.
  - injection E as <-. apply rates_settle. now apply rates_enter.
  - destruct (nth_error (inFlight c) k) as [call|]; [|discriminate].
    injection E as <-. apply rates_settle. now apply rates_resume.
  - unfold onclose in E. pose proof (rates_cleanup now (held c)) as Hc.
    destruct (cleanup now (held c)) as [st1 evs].
    injection E as <-. exact Hc.
  - unfold setupAudioInput in E.
    destruct (inputAudioContext (held c)) eqn:Ei,
      (mediaStream (held c)); injection E as <-; try exact H.
    destruct H as [H1 H2]. split; cbn; [|exact H2].
    intros c0 E0. apply H1. congruence.
Qed.

Lemma rates_run (ls : list Label) (c c1 : Config) :
  rates_as_created (held c) -> run ls c = Some c1 ->
  rates_as_created (held c1).
Proof.
  revert c. induction ls as [|l ls IH]; intros c H R.
  - injection R as <-. exact H.
  - cbn [run] in R. destruct (exec l c) as [c'|] eqn:E; [|discriminate].
    apply (IH c'); [|exact R]. eapply rates_exec; eassumption.
Qed.

End CallsFacts.

(* ================================================================== *)
(** ** Codec properties *)
(* ================================================================== *)

Module CodecClaims.

Import Pcm.
Import PcmFacts.
Local Open Scope Q_scope.

Example quantize_saturates :
  map sample_to_int16 [Fin 3; Fin (-2); PosInf; NegInf; NaN; Fin 1; Fin (-1)]
  = [32767; -32768; 32767; -32768; 0; 32767; -32768]%Z.
Proof. reflexivity. Qed.

Example encode_two_samples :
  createPcmBlob [Fin (1 # 2); Fin (- (1 # 2))]
  = {| data := "/z8AwA=="; mimeType := "audio/pcm;rate=16000" |}.
Proof. reflexivity. Qed.

Example decode_empty_chunk : decodeAudioData "" = inr NotSupportedError.
Proof. reflexivity. Qed.

Lemma samples_within_two_steps (xs : list Q) :
  Forall (fun q => -1 <= q /\ q <= 1) xs ->
  Forall2 (fun x y => Qabs (y - x) < 2 / 32768) xs
    (map (fun x => inject_Z (sample_to_int16 x) / 32768) (map Fin xs)).
Proof.
  induction 1 as [|q xs [Hlo Hhi] _ IH]; cbn [map]; constructor;
    [|exact IH].
  destruct (sample_error Hlo Hhi) as [Hn Hp].
  apply Qabs_Qlt_condition.
  unfold Qdiv in *. change (/ 32768) with (1 # 32768) in *.
  destruct (Qlt_le_dec q 0) as [Hs | Hs].
  - destruct (Hn Hs). split; lra.
  - destruct (Hp Hs). split; lra.
Qed.

(** C4, as amended.  For every non-empty sequence of samples in [-1, 1],
    decoding the encoded chunk succeeds, gives as many frames as there
    were samples, and each decoded sample is within less than two
    quantization steps (2/32768) of the original. *)
Theorem roundtrip_within_two_steps (xs : list Q) :
  xs <> [] ->
  Forall (fun q => -1 <= q /\ q <= 1) xs ->
  exists buffer,
    decodeAudioData (data (createPcmBlob (map Fin xs))) = inl buffer /\
    frames buffer = List.length xs /\
    Forall2 (fun x y => Qabs (y - x) < 2 / 32768) xs (channelData buffer).
Proof.
  intros Hne Hxs. rewrite decode_encode.
  pose proof (samples_within_two_steps Hxs) as F.
  destruct xs as [|x0 xs0]; [congruence|].
  cbn [map] in *.
  eexists. split; [reflexivity|]. unfold frames. cbn [channelData].
  split; [|exact F].
  cbn [List.length]. now rewrite !length_map.
Qed.

Lemma roundtrip_within_two_steps_witness :
  exists buffer,
    decodeAudioData (data (createPcmBlob (map Fin [65535 # 65536; - (1 # 3)])))
    = inl buffer /\
    frames buffer = 2%nat /\
    Forall2 (fun x y => Qabs (y - x) < 2 / 32768)
      [65535 # 65536; - (1 # 3)] (channelData buffer).
Proof.
  apply (@roundtrip_within_two_steps [65535 # 65536; - (1 # 3)]).
  - discriminate.
  - repeat constructor; discriminate.
Defined.

(** C4 as claimed does not hold.  The sample 65535/65536 is encoded as
    32766 and comes back as 32766/32768, one and a half quantization steps
    away; and the chunk of the empty sequence does not decode at all. *)
Lemma roundtrip_one_step_refuted :
  ~ (forall xs : list Q,
       Forall (fun q => -1 <= q /\ q <= 1) xs ->
       exists buffer,
         decodeAudioData (data (createPcmBlob (map Fin xs))) = inl buffer /\
         frames buffer = List.length xs /\
         Forall2 (fun x y => Qabs (y - x) <= 1 / 32768) xs
           (channelData buffer))
  /\ ~ (exists buffer,
          decodeAudioData (data (createPcmBlob (map Fin []))) = inl buffer).
Proof.
  split.
  - intros H.
    destruct (H [65535 # 65536]) as [buffer [E [_ F]]].
    + repeat constructor; discriminate.
    + vm_compute in E. injection E as <-.
      inversion F as [|x y xs ys Hxy _]; subst.
      vm_compute in Hxy. apply Hxy. reflexivity.
  - intros [buffer E]. discriminate E.
Qed.

(** C5.  [createPcmBlob] never fails; each sample is saturated to
    [-1, 1] and scaled by 32768 when negative and by 32767 otherwise
    (as [spec_quantize] words it) into the signed 16-bit range; each
    value is laid out as two bytes, low byte first, so that reading the
    bytes two by two as little-endian 16-bit integers gives the values
    back; the text of the chunk is the base64 encoding of exactly those
    bytes ([atob] gives back a string of as many characters whose codes
    are the bytes, in order); the label is audio/pcm;rate=16000. *)
Theorem createPcmBlob_layout (samples : list float) :
  let int16 := map spec_quantize samples in
  let bytes := flat_map spec_le_bytes int16 in
  Forall is_int16 int16 /\
  Forall Base64.is_byte bytes /\
  List.length bytes = (2 * List.length samples)%nat /\
  Int16Array_of_bytes bytes = Some int16 /\
  createPcmBlob samples
  = {| data := string_of_list_ascii (Base64.btoa_chars bytes);
       mimeType := "audio/pcm;rate=16000" |} /\
  exists binary,
    Base64.atob (data (createPcmBlob samples)) = Some binary /\
    String.length binary = List.length bytes /\
    map (fun c => Z.of_nat (nat_of_ascii c)) (list_ascii_of_string binary)
    = bytes.
Proof.
  intros int16 bytes.
  pose proof (createPcmBlob_bytes samples) as H. cbn zeta in H.
  fold int16 in H. fold bytes in H.
  destruct H as [H1 [H2 [H3 [H4 _]]]].
  pose proof (createPcmBlob_text samples) as T. cbn zeta in T.
  fold int16 in T. fold bytes in T.
  destruct T as [T1 [[binary [T2 T3]] T4]].
  split; [exact H1|]. split; [exact H2|]. split; [exact H3|].
  split; [exact T4|]. split.
  - rewrite <- T1, H4. reflexivity.
  - exists binary. split; [exact T2|]. split; [|exact T3].
    rewrite <- T3, length_map. clear.
    induction binary as [|c r IH]; [reflexivity|].
    cbn [String.length list_ascii_of_string List.length]. now rewrite IH.
Qed.

Example layout_of_two_samples :
  flat_map spec_le_bytes (map spec_quantize [Fin (1 # 2); Fin (- (1 # 2))])
  = [255; 63; 0; 192]%Z
  /\ string_of_list_ascii (Base64.btoa_chars [255; 63; 0; 192]%Z)
     = "/z8AwA=="%string.
Proof. split; reflexivity. Qed.

End CodecClaims.

(* ================================================================== *)
(** ** Tool-call properties *)
(* ================================================================== *)

Module ToolClaims.

Import Pcm.
Import Live.
Import LiveFacts.
Import Samples.
Local Open Scope string_scope.
Local Open Scope Q_scope.

Example handle_tool_batch :
  handleMessage 0 9 (Some callback0) (toolMessage [call0; call1]) open0 0%nat
  = (open0,
     [ToolCallback call0; ToolCallback call1;
      ToolResponseSent 5
        [{| fr_id := "call-1"; fr_name := "generate_image";
            fr_response := result "ok" |};
         {| fr_id := "call-2"; fr_name := "control_location";
            fr_response := error "Failed to execute function" |}]],
     2%nat).
Proof. reflexivity. Qed.

(** C1, as amended.  For a message carrying a batch of N function calls:
    when a tool callback is registered and the manager holds a session,
    exactly one frame is sent on that session, with exactly N entries; the
    k-th carries the id and name of the k-th request, and as its body the
    value the k-th callback resolved with, or, when that callback threw
    or rejected, the error text "Failed to execute function".  When no
    callback is registered or no session is held, nothing is sent. *)
Theorem tool_batch_responses (W : Type) (now : Q) (node : nat)
  (ocb : option (Callback W)) (message : LiveServerMessage)
  (tc : LiveServerToolCall) (st : LiveSessionManager) (w : W) :
  toolCall message = Some tc ->
  let '(st1, evs, w1) := handleMessage now node ocb message st w in
  match ocb, activeSessionPromise st with
  | Some cb, Some session =>
      exists rs,
        frames_sent evs = [(session, rs)] /\
        List.length rs = List.length (functionCalls tc) /\
        Forall2 (fun fc fr => fr_id fr = fc_id fc /\ fr_name fr = fc_name fc)
          (functionCalls tc) rs /\
        Forall2 (fun o fr =>
                   fr_response fr
                   = match o with
                     | Resolved value => result value
                     | Rejected _ => error "Failed to execute function"
                     end)
          (outcomes cb (functionCalls tc) w) rs
  | _, _ => frames_sent evs = []
  end.
Proof.
  intros Htc.
  pose proof (frames_sent_handleMessage now node ocb message st w) as H.
  destruct (handleMessage now node ocb message st w) as [[st1 evs] w1].
  cbn [fst snd] in H. rewrite Htc in H.
  destruct ocb as [cb|]; [|exact H].
  destruct (activeSessionPromise st) as [session|]; [|exact H].
  exists (fst (fst (dispatch cb (functionCalls tc) w))).
  split; [exact H|].
  pose proof (dispatch_one_to_one cb (functionCalls tc) w) as F.
  split; [symmetry; eapply Forall2_length; exact F|].
  split; [exact F|]. apply dispatch_bodies.
Qed.

Lemma tool_batch_responses_witness :
  exists rs,
    frames_sent
      (snd (fst (handleMessage 0 9 (Some callback0)
                   (toolMessage [call0; call1]) open0 0%nat)))
    = [(5%nat, rs)] /\
    List.length rs = 2%nat /\
    Forall2 (fun fc fr => fr_id fr = fc_id fc /\ fr_name fr = fc_name fc)
      [call0; call1] rs /\
    Forall2 (fun o fr =>
               fr_response fr
               = match o with
                 | Resolved value => result value
                 | Rejected _ => error "Failed to execute function"
                 end)
      [Resolved "ok"; Rejected "geolocation denied"] rs.
Proof.
  exact (@tool_batch_responses nat 0 9 (Some callback0)
           (toolMessage [call0; call1])
           {| functionCalls := [call0; call1] |} open0 0%nat eq_refl).
Defined.

(** C1 as claimed does not hold.  With no callback registered, a message
    with one function call gets no response entry; and with a callback
    registered but the session handle forgotten (after [stopSession]),
    the response that was built is not sent. *)
Lemma tool_batch_unanswered :
  ~ (forall (now : Q) (node : nat) (ocb : option (Callback nat))
            (message : LiveServerMessage) (tc : LiveServerToolCall)
            (st : LiveSessionManager) (w : nat),
        toolCall message = Some tc ->
        List.length
          (List.concat (map snd
             (frames_sent
                (snd (fst (handleMessage now node ocb message st w))))))
        = List.length (functionCalls tc))
  /\ ~ (forall (now : Q) (node : nat) (cb : Callback nat)
              (message : LiveServerMessage) (tc : LiveServerToolCall)
              (st : LiveSessionManager) (w : nat),
          toolCall message = Some tc ->
          List.length
            (List.concat (map snd
               (frames_sent
                  (snd (fst (handleMessage now node (Some cb) message
                               st w))))))
          = List.length (functionCalls tc)).
Proof.
  split; intros H.
  - specialize (H 0 9%nat None (toolMessage [call0])
                  {| functionCalls := [call0] |} open0 0%nat eq_refl).
    discriminate H.
  - specialize (H 0 9%nat callback0 (toolMessage [call0])
                  {| functionCalls := [call0] |}
                  (fst (stopSession 0 CloseReturned open0)) 0%nat eq_refl).
    discriminate H.
Qed.

(** C10.  When the callback rejects the k-th call of a batch, the k-th
    entry of the frame sent back carries the call's id and name and the
    constant error text, whatever value the callback threw. *)
Theorem rejected_call_constant_error (W : Type) (now : Q) (node : nat)
  (cb : Callback W) (message : LiveServerMessage)
  (tc : LiveServerToolCall) (st : LiveSessionManager) (w : W)
  (session k : nat) (fc : FunctionCall) (reason : json) :
  toolCall message = Some tc ->
  activeSessionPromise st = Some session ->
  nth_error (functionCalls tc) k = Some fc ->
  nth_error (outcomes cb (functionCalls tc) w) k = Some (Rejected reason) ->
  exists rs,
    frames_sent (snd (fst (handleMessage now node (Some cb) message st w)))
    = [(session, rs)] /\
    nth_error rs k
    = Some {| fr_id := fc_id fc; fr_name := fc_name fc;
              fr_response := error "Failed to execute function" |}.
Proof.
  intros Htc Hs Hfc Ho.
  rewrite frames_sent_handleMessage, Htc, Hs.
  eexists. split; [reflexivity|].
  now rewrite (dispatch_nth cb _ _ _ Hfc Ho).
Qed.

Lemma rejected_call_constant_error_witness :
  exists rs,
    frames_sent
      (snd (fst (handleMessage 0 9 (Some callback0)
                   (toolMessage [call0; call1]) open0 0%nat)))
    = [(5%nat, rs)] /\
    nth_error rs 1
    = Some {| fr_id := "call-2"; fr_name := "control_location";
              fr_response := error "Failed to execute function" |}.
Proof.
  exact (@rejected_call_constant_error nat 0 9 callback0
           (toolMessage [call0; call1])
           {| functionCalls := [call0; call1] |} open0 0%nat
           5%nat 1%nat call1 "geolocation denied"
           eq_refl eq_refl eq_refl eq_refl).
Defined.

End ToolClaims.

(* ================================================================== *)
(** ** Playback properties *)
(* ================================================================== *)

Module PlaybackClaims.

Import Pcm.
Import Live.
Import LiveFacts.
Import Samples.
Local Open Scope string_scope.
Local Open Scope Q_scope.

Example two_chunks_no_delay :
  let '(st, evs) := schedule_all [(0, 10%nat, tick); (0, 11%nat, tick)] open0 in
  starts evs = [(0, duration tick); (0 + duration tick, duration tick)]
  /\ sources st = [10; 11]%nat
  /\ nextStartTime st == 2 / 24000.
Proof. repeat split. Qed.

Example chunk_then_interrupt_then_stop :
  let '(st1, ev1, _) :=
    handleMessage 0 10 (Some callback0) (audioMessage oneFrame false)
      open0 0%nat in
  let '(st2, ev2, _) :=
    handleMessage (1 # 2) 11 (Some callback0)
      {| toolCall := None;
         serverContent := Some {| modelTurn := None; interrupted := true |} |}
      st1 0%nat in
  let '(st3, ev3) := stopSession 1 CloseReturned st2 in
  sources st1 = [10%nat] /\ ev2 = [BufferStopped 10] /\
  nextStartTime st2 = 1 # 2 /\ sources st3 = [] /\
  ev3 = [CloseRequested 5; TrackStopped 4; ContextClosed 1; ContextClosed 2].
Proof. repeat split. Qed.

(** *** Scheduling *)

Lemma schedule_all_plan (arrivals : list (Q * nat * AudioBuffer))
  (st : LiveSessionManager) :
  starts (snd (schedule_all arrivals st))
  = fst (spec_plan (nextStartTime st) arrivals)
  /\ nextStartTime (fst (schedule_all arrivals st))
     = snd (spec_plan (nextStartTime st) arrivals).
Proof.
  revert st. induction arrivals as [|[[now node] buffer] rest IH]; intros st.
  - split; reflexivity.
  - cbn [schedule_all spec_plan]. unfold schedule.
    set (startAt := Math_max (nextStartTime st) now).
    set (st1 := set_playback st (startAt + duration buffer)
                  (set_add Nat.eq_dec node (sources st))).
    destruct (IH st1) as [IH1 IH2].
    change (nextStartTime st1) with (startAt + duration buffer) in IH1, IH2.
    change (if Qle_bool (nextStartTime st) now then now else nextStartTime st)
      with startAt.
    destruct (schedule_all rest st1) as [st2 ev2].
    destruct (spec_plan (startAt + duration buffer) rest) as [plan final].
    cbn [fst snd app starts] in *. now rewrite IH1, IH2.
Qed.

Lemma plan_head cursor now node buffer rest :
  exists plan,
    fst (spec_plan cursor ((now, node, buffer) :: rest))
    = (Math_max cursor now, duration buffer) :: plan
    /\ plan = fst (spec_plan (Math_max cursor now + duration buffer) rest).
Proof.
  cbn [spec_plan]. fold (Math_max cursor now).
  destruct (spec_plan (Math_max cursor now + duration buffer) rest)
    as [plan final].
  exists plan. split; reflexivity.
Qed.

Lemma plan_no_overlap (arrivals : list (Q * nat * AudioBuffer)) (cursor : Q) :
  chain no_overlap (fst (spec_plan cursor arrivals)).
Proof.
  revert cursor.
  induction arrivals as [|[[now node] buffer] rest IH]; intros cursor.
  - exact I.
  - destruct (plan_head cursor now node buffer rest) as [plan [-> Hplan]].
    specialize (IH (Math_max cursor now + duration buffer)).
    rewrite <- Hplan in IH.
    destruct rest as [|[[now' node'] buffer'] rest'].
    + cbn in Hplan. subst plan. exact I.
    + destruct (plan_head (Math_max cursor now + duration buffer)
                  now' node' buffer' rest') as [plan' [E _]].
      rewrite <- Hplan in E. rewrite E in *.
      split; [|exact IH].
      unfold no_overlap. cbn [fst snd]. apply Math_max_ge_l.
Qed.

Lemma plan_back_to_back (rest : list (Q * nat * AudioBuffer)) (s d : Q) :
  punctual (s + d) rest ->
  chain back_to_back ((s, d) :: fst (spec_plan (s + d) rest)).
Proof.
  revert s d.
  induction rest as [|[[now node] buffer] rest IH]; intros s d Hp.
  - exact I.
  - destruct (plan_head (s + d) now node buffer rest) as [plan [E Hplan]].
    rewrite E. cbn [punctual] in Hp. destruct Hp as [Hnow Hrest].
    fold (Math_max (s + d) now) in Hrest.
    split.
    + unfold back_to_back. cbn [fst snd]. now apply Math_max_cursor.
    + rewrite Hplan. now apply IH.
Qed.

(** C2, as amended.  For buffers scheduled one after the other with no
    interrupt in between: each starts at the later of the cursor and the
    clock reading at its scheduling, and the cursor then advances to that
    start plus the buffer's duration; no buffer starts before the previous
    one has ended; the first start is not before the clock reading of the
    first scheduling; and the buffers are back to back, with no gap,
    provided each later buffer is scheduled while the clock has not yet
    passed the cursor. *)
Theorem schedule_all_spec (arrivals : list (Q * nat * AudioBuffer))
  (st : LiveSessionManager) :
  let '(st1, evs) := schedule_all arrivals st in
  let '(plan, final) := spec_plan (nextStartTime st) arrivals in
  starts evs = plan /\
  nextStartTime st1 = final /\
  chain no_overlap plan /\
  match arrivals, plan with
  | (now, _, _) :: rest, (startAt, d) :: _ =>
      now <= startAt /\
      (punctual (startAt + d) rest -> chain back_to_back plan)
  | _, _ => True
  end.
Proof.
  pose proof (schedule_all_plan arrivals st) as [H1 H2].
  pose proof (plan_no_overlap arrivals (nextStartTime st)) as H3.
  destruct (schedule_all arrivals st) as [st1 evs].
  destruct arrivals as [|[[now node] buffer] rest].
  - cbn in *. auto.
  - destruct (plan_head (nextStartTime st) now node buffer rest)
      as [plan' [E Hplan]].
    destruct (spec_plan (nextStartTime st) ((now, node, buffer) :: rest))
      as [plan final].
    cbn [fst snd] in *. rewrite E in H1, H3 |- *. clear E plan.
    repeat (split; [assumption|]).
    split; [apply Math_max_ge_r|].
    intros Hp. rewrite Hplan. now apply plan_back_to_back.
Qed.

Lemma schedule_all_spec_witness :
  let plan := [(0, duration tick); (0 + duration tick, duration tick)] in
  starts (snd (schedule_all [(0, 10%nat, tick); (0, 11%nat, tick)] open0))
  = plan /\
  chain no_overlap plan /\ chain back_to_back plan.
Proof.
  pose proof (schedule_all_spec [(0, 10%nat, tick); (0, 11%nat, tick)] open0)
    as H.
  cbv beta iota zeta delta [schedule_all spec_plan schedule] in H.
  destruct H as [H1 [_ [H3 [_ H4]]]].
  split; [exact H1|]. split; [exact H3|].
  apply H4. split; [discriminate|exact I].
Defined.

(** C2 as claimed does not hold: a buffer scheduled after the clock has
    passed the cursor starts at the clock reading, leaving a gap. *)
Lemma late_chunk_leaves_gap :
  ~ (forall (arrivals : list (Q * nat * AudioBuffer))
            (st : LiveSessionManager),
        chain back_to_back (starts (snd (schedule_all arrivals st)))).
Proof.
  intros H.
  specialize (H [(0, 10%nat, tick); (1, 11%nat, tick)] open0).
  destruct H as [H _]. vm_compute in H. discriminate H.
Qed.

(** *** Interruption *)

(** C3.  [stopAudioPlayback] stops exactly the buffers of the pending
    set, leaves the set empty, and sets the cursor to the reading of the
    output clock, or to 0 when there is no output context; nothing else
    in the manager changes.  A second call right after stops nothing and
    changes nothing, and called twice it leaves the state one call at the
    time of the second would. *)
Theorem stopAudioPlayback_spec (now later : Q) (st : LiveSessionManager) :
  let '(st1, evs) := stopAudioPlayback now st in
  evs = map BufferStopped (sources st) /\
  sources st1 = [] /\
  nextStartTime st1
  = match outputAudioContext st with
    | Some _ => now
    | None => 0
    end /\
  set_playback st1 (nextStartTime st) (sources st) = st /\
  stopAudioPlayback now st1 = (st1, []) /\
  fst (stopAudioPlayback later st1) = fst (stopAudioPlayback later st).
Proof.
  destruct st; cbn. repeat split.
Qed.

(** *** Chunks that do not decode *)

Example odd_chunk_dropped :
  handleMessage 0 10 (Some callback0) (audioMessage oddChunk false)
    open0 0%nat
  = (open0, [ConsoleError "Error decoding audio:"], 0%nat).
Proof. reflexivity. Qed.

Example bad_chunk_dropped :
  handleMessage 0 10 (Some callback0) (audioMessage badChunk false)
    open0 0%nat
  = (open0, [ConsoleError "Error decoding audio:"], 0%nat).
Proof. reflexivity. Qed.

(** C6.  A chunk that is not base64, or whose decoded byte length is
    odd, makes [decodeAudioData] fail.  The handler of a message carrying
    such a chunk completes; it ends in the state of the same message
    without the chunk and starts no buffer; the failure is logged exactly
    when the decode was attempted (there is an output to play on), and
    apart from that log the handler performs the effects of the message
    without the chunk (the tool response may come before the stops of an
    interruption instead of after them); only the playback cursor and
    the pending set can differ from before, and they change only if the
    message also signals an interruption. *)
Theorem failed_chunk_skipped (W : Type) (now : Q) (node : nat)
  (ocb : option (Callback W)) (message : LiveServerMessage)
  (st : LiveSessionManager) (w : W) (b : string) :
  base64Audio message = Some b ->
  (Base64.atob b = None \/
   exists binary, Base64.atob b = Some binary
                  /\ Nat.odd (String.length binary) = true) ->
  (exists e : DecodeError, decodeAudioData b = inr e) /\
  let '(st1, evs, w1) := handleMessage now node ocb message st w in
  let '(st2, evs2, w2) :=
    handleMessage now node ocb (withoutAudio message) st w in
  st1 = st2 /\ w1 = w2 /\
  Permutation (filter keep evs) evs2 /\
  frames_sent evs = frames_sent evs2 /\
  filter is_console_error evs
  = match chunkToDecode message st with
    | Some _ => [ConsoleError "Error decoding audio:"]
    | None => []
    end /\
  starts evs = [] /\
  set_playback st1 (nextStartTime st) (sources st) = st /\
  (sources st1, nextStartTime st1)
  = if isInterrupted message
    then ([], match outputAudioContext st with
              | Some _ => now
              | None => 0
              end)
    else (sources st, nextStartTime st).
Proof.
  intros Hb Hbad.
  assert (Hfail : exists e, decodeAudioData b = inr e).
  { destruct Hbad as [Hn | [binary [Hs Hodd]]].
    - exists InvalidCharacterError. now apply PcmFacts.decodeAudioData_malformed.
    - exists RangeError. now apply PcmFacts.decodeAudioData_odd with binary. }
  split; [exact Hfail|]. destruct Hfail as [e He].
  assert (Hafter : forall responses called,
    let '(st1, evs) := afterToolCalls now node responses message st in
    let '(st2, evs2) :=
      afterToolCalls now node responses (withoutAudio message) st in
    st1 = st2 /\
    Permutation (filter keep (map ToolCallback called ++ evs))
      (map ToolCallback called ++ evs2) /\
    frames_sent (map ToolCallback called ++ evs)
    = frames_sent (map ToolCallback called ++ evs2) /\
    filter is_console_error (map ToolCallback called ++ evs)
    = match chunkToDecode message st with
      | Some _ => [ConsoleError "Error decoding audio:"]
      | None => []
      end /\
    starts (map ToolCallback called ++ evs) = [] /\
    set_playback st1 (nextStartTime st) (sources st) = st /\
    (sources st1, nextStartTime st1)
    = if isInterrupted message
      then ([], match outputAudioContext st with
                | Some _ => now
                | None => 0
                end)
      else (sources st, nextStartTime st)).
  { intros responses called.
    pose proof (afterToolCalls_failed_chunk now node responses message st
                  Hb He) as A. cbn zeta in A. destruct A as [A1 [A2 A3]].
    pose proof (afterToolCalls_frame now node responses message st) as A4.
    pose proof (frames_sent_afterToolCalls now node responses message st)
      as F1.
    pose proof (frames_sent_afterToolCalls now node responses
                  (withoutAudio message) st) as F2.
    destruct (quiet_filter _ (quiet_sent responses st)) as [K1 E1].
    destruct (quiet_filter _ (quiet_onInterrupted now message st))
      as [K2 E2].
    destruct (quiet_filter _ (quiet_callbacks called)) as [K3 E3].
    pose proof (starts_sent responses st) as S1.
    pose proof (starts_onInterrupted now message st) as S2.
    destruct (afterToolCalls now node responses message st) as [st1 evs].
    rewrite A2 in *. cbn [fst snd] in *. subst st1 evs.
    split; [reflexivity|].
    split.
    { rewrite filter_app, K3. apply Permutation_app_head.
      destruct (chunkToDecode message st).
      - rewrite filter_app. cbn [filter keep is_console_error negb].
        rewrite K1, K2. apply Permutation_app_comm.
      - rewrite filter_app, K1, K2. apply Permutation_refl. }
    split.
    { etransitivity; [apply frames_sent_app|]. rewrite F1.
      symmetry. etransitivity; [apply frames_sent_app|]. now rewrite F2. }
    split.
    { rewrite filter_app, E3. cbn [app].
      destruct (chunkToDecode message st).
      - rewrite filter_app. cbn [filter is_console_error].
        now rewrite E1, E2.
      - now rewrite filter_app, E1, E2. }
    split.
    { rewrite starts_app.
      replace (starts (map ToolCallback called)) with (@nil (Q * Q))
        by (clear; induction called; [reflexivity|assumption]).
      destruct (chunkToDecode message st).
      - rewrite starts_app. cbn [starts]. now rewrite S1, S2.
      - now rewrite starts_app, S1, S2. }
    split; [exact A4|].
    unfold onInterrupted. now destruct (isInterrupted message). }
  unfold handleMessage.
  change (toolCall (withoutAudio message)) with (toolCall message).
  destruct (toolCall message) as [tc|], ocb as [cb|];
    try (specialize (Hafter None []);
         destruct (afterToolCalls now node None message st) as [st1 evs];
         destruct (afterToolCalls now node None (withoutAudio message) st)
           as [st2 evs2];
         destruct Hafter as [B1 [B2 [B3 [B4 [B5 [B6 B7]]]]]];
         repeat (split; [assumption || reflexivity|]); exact B7).
  pose proof (dispatch_events cb (functionCalls tc) w) as Hev.
  destruct (dispatch cb (functionCalls tc) w) as [[rs called] w1].
  cbn [fst snd] in Hev. subst called.
  specialize (Hafter (Some rs) (functionCalls tc)).
  destruct (afterToolCalls now node (Some rs) message st) as [st1 evs].
  destruct (afterToolCalls now node (Some rs) (withoutAudio message) st)
    as [st2 evs2].
  destruct Hafter as [B1 [B2 [B3 [B4 [B5 [B6 B7]]]]]].
  repeat (split; [assumption || reflexivity|]). exact B7.
Qed.

Example failing_chunk_with_tool_call_and_interruption :
  snd (fst (handleMessage 1 10 (Some callback0)
              {| toolCall := Some {| functionCalls := [call0] |};
                 serverContent :=
                   serverContent (audioMessage oddChunk true) |}
              (fst (schedule 0 7 tick open0)) 0%nat))
  = [ToolCallback call0;
     ToolResponseSent 5
       [{| fr_id := "call-1"; fr_name := "generate_image";
           fr_response := result "ok" |}];
     ConsoleError "Error decoding audio:";
     BufferStopped 7]
  /\ snd (fst (handleMessage 1 10 (Some callback0)
                 (withoutAudio
                    {| toolCall := Some {| functionCalls := [call0] |};
                       serverContent :=
                         serverContent (audioMessage oddChunk true) |})
                 (fst (schedule 0 7 tick open0)) 0%nat))
     = [ToolCallback call0;
        BufferStopped 7;
        ToolResponseSent 5
          [{| fr_id := "call-1"; fr_name := "generate_image";
              fr_response := result "ok" |}]].
Proof. split; reflexivity. Qed.

Lemma failed_chunk_skipped_witness :
  (exists e : DecodeError, decodeAudioData oddChunk = inr e) /\
  let '(st1, evs, w1) :=
    handleMessage (1 # 2) 10 (Some callback0) (audioMessage oddChunk false)
      open0 0%nat in
  let '(st2, evs2, w2) :=
    handleMessage (1 # 2) 10 (Some callback0)
      (withoutAudio (audioMessage oddChunk false)) open0 0%nat in
  st1 = st2 /\ w1 = w2 /\
  Permutation (filter keep evs) evs2 /\
  frames_sent evs = frames_sent evs2 /\
  filter is_console_error evs = [ConsoleError "Error decoding audio:"] /\
  starts evs = [] /\
  set_playback st1 (nextStartTime open0) (sources open0) = open0 /\
  (sources st1, nextStartTime st1) = (sources open0, nextStartTime open0).
Proof.
  apply (@failed_chunk_skipped nat (1 # 2) 10 (Some callback0)
           (audioMessage oddChunk false) open0 0%nat oddChunk eq_refl).
  right. exists (String.String "000" (String.String "000"
                  (String.String "000" String.EmptyString))).
  split; reflexivity.
Defined.

End PlaybackClaims.

(* ================================================================== *)
(** ** Life-cycle properties *)
(* ================================================================== *)

Module LifecycleClaims.

Import Pcm.
Import Live.
Import LifecycleFacts.
Import Calls.
Import CallsFacts.
Import Samples.
Local Open Scope string_scope.
Local Open Scope list_scope.
Local Open Scope Q_scope.

Example restart :
  startSession 0 env1 open0
  = (Started,
     {| activeSessionPromise := Some 15%nat;
        inputAudioContext := Some {| ctx_id := 11; ctx_sampleRate := 16000 |};
        outputAudioContext := Some {| ctx_id := 12; ctx_sampleRate := 24000 |};
        mediaStream := Some 14%nat; processor := None; source := None;
        nextStartTime := 0; sources := []; outputNode := Some 13%nat |},
     [CloseRequested 5; TrackStopped 4; ContextClosed 1; ContextClosed 2;
      ContextCreated 11 16000; ContextCreated 12 24000;
      MicAcquired 14; Connected 15]).
Proof. reflexivity. Qed.

(** A start that nothing interrupts ([CallsFacts.startSession_alone]),
    called while the manager holds a session whose promise has fulfilled,
    with the microphone granted: the whole of [stopSession] comes first
    (the close of the prior session is requested, every pending buffer is
    stopped, processor, source, microphone tracks and both audio contexts
    are released, the cursor is reset, and nothing is acquired
    meanwhile); only then are the new contexts, the microphone and the
    connection acquired.  When it returns the manager holds the new
    session, and up to there at most one microphone stream is live. *)
Lemma start_replaces_session (now : Q) (env : StartEnv)
  (st : LiveSessionManager) (old stream : nat) :
  activeSessionPromise st = Some old ->
  closing env <> PromiseRejected ->
  getUserMedia env = Some stream ->
  let '(st0, stopEvs) := stopSession now (closing env) st in
  let '(res, st1, evs) := startSession now env st in
  res = Started /\
  evs = stopEvs
        ++ [ContextCreated (newInput env) 16000;
            ContextCreated (newOutput env) 24000;
            MicAcquired stream; Connected (newSession env)] /\
  existsb acquires stopEvs = false /\
  In (CloseRequested old) stopEvs /\
  (forall n, In n (sources st) -> In (BufferStopped n) stopEvs) /\
  (forall p, processor st = Some p -> In (ProcessorDisconnected p) stopEvs) /\
  (forall s, source st = Some s -> In (SourceDisconnected s) stopEvs) /\
  (forall m, mediaStream st = Some m -> In (TrackStopped m) stopEvs) /\
  (forall c, inputAudioContext st = Some c ->
             In (ContextClosed (ctx_id c)) stopEvs) /\
  (forall c, outputAudioContext st = Some c ->
             In (ContextClosed (ctx_id c)) stopEvs) /\
  st0 = {| activeSessionPromise := None; inputAudioContext := None;
           outputAudioContext := None; mediaStream := None;
           processor := None; source := None; nextStartTime := 0;
           sources := []; outputNode := outputNode st |} /\
  st1 = {| activeSessionPromise := Some (newSession env);
           inputAudioContext :=
             Some {| ctx_id := newInput env; ctx_sampleRate := 16000 |};
           outputAudioContext :=
             Some {| ctx_id := newOutput env; ctx_sampleRate := 24000 |};
           mediaStream := Some stream; processor := None; source := None;
           nextStartTime := 0; sources := [];
           outputNode := Some (newGain env) |} /\
  sessions_open [old] evs = [newSession env] /\
  at_most_one_mic (opt_list (mediaStream st)) evs /\
  mics_alive (opt_list (mediaStream st)) evs = [stream].
Proof.
  intros Hold Hclose Hmic.
  unfold startSession, stopSession. rewrite Hold, Hmic.
  set (closed := match closing env with
                 | CloseReturned => [CloseRequested old]
                 | CloseThrew =>
                     [CloseRequested old; ConsoleWarn "Error closing session:"]
                 | PromiseRejected => [ConsoleWarn "Error closing session:"]
                 end).
  assert (Hc : exists tl, closed = CloseRequested old :: tl
                          /\ (tl = [] \/ tl = [ConsoleWarn "Error closing session:"])).
  { unfold closed. destruct (closing env); [eauto|eauto|congruence]. }
  destruct Hc as [tl [Ec Htl]].
  pose proof (cleanup_releases now st) as R. cbn zeta in R.
  pose proof (cleanup_events now st) as Ev.
  pose proof (cleanup_state now st) as St.
  destruct (cleanup now st) as [st0 evs0]. cbn [fst snd] in *.
  subst st0. cbn [activeSessionPromise mediaStream processor source
                  nextStartTime sources outputNode inputAudioContext
                  outputAudioContext].
  destruct R as [R1 [R2 [R3 [R4 [R5 R6]]]]].
  assert (Hin : forall e, In e evs0 -> In e (closed ++ evs0))
    by (intros e He; apply in_or_app; now right).
  change ([ContextCreated (newInput env) 16000;
           ContextCreated (newOutput env) 24000]
          ++ [MicAcquired stream; Connected (newSession env)])
    with [ContextCreated (newInput env) 16000;
          ContextCreated (newOutput env) 24000;
          MicAcquired stream; Connected (newSession env)].
  split; [reflexivity|].
  split; [reflexivity|].
  split.
  { rewrite Ev, Ec, !existsb_app, acquires_stopped, teardown_no_acquire.
    cbn. destruct Htl as [-> | ->]; reflexivity. }
  split; [rewrite Ec; now left|].
  split; [auto|]. split; [auto|]. split; [auto|]. split; [auto|].
  split; [auto|]. split; [auto|].
  split; [reflexivity|]. split; [reflexivity|].
  assert (Hmics : forall alive,
            mics_alive alive (closed ++ evs0)
            = mics_alive alive (teardown_events st)).
  { intros alive. rewrite Ev, Ec, !mics_alive_app, mics_alive_stopped.
    destruct Htl as [-> | ->]; reflexivity. }
  split.
  { rewrite sessions_open_app.
    rewrite Ev, !sessions_open_app.
    assert (Hs : sessions_open [old] closed = []).
    { rewrite Ec. cbn. rewrite Nat.eqb_refl.
      destruct Htl as [-> | ->]; reflexivity. }
    rewrite Hs, sessions_open_stopped, teardown_sessions. reflexivity. }
  destruct (teardown_mics st) as [T1 T2].
  assert (Hlen : (List.length (opt_list (mediaStream st)) <= 1)%nat)
    by (destruct (mediaStream st); cbn; lia).
  split.
  - apply at_most_one_mic_app.
    + rewrite Ev. apply at_most_one_mic_app.
      * rewrite Ec. split; [exact Hlen|].
        destruct Htl as [-> | ->]; cbn; unfold step_mics; cbn; auto.
      * replace (mics_alive (opt_list (mediaStream st)) closed)
          with (opt_list (mediaStream st))
          by (rewrite Ec; destruct Htl as [-> | ->]; reflexivity).
        apply at_most_one_mic_app.
        -- now apply at_most_one_mic_stopped.
        -- now rewrite mics_alive_stopped.
    + rewrite Hmics, T2. cbn. unfold step_mics. cbn.
      repeat split; auto.
  - rewrite mics_alive_app, Hmics, T2. reflexivity.
Qed.

Lemma start_replaces_session_witness :
  sessions_open [5%nat] (snd (startSession 0 env1 open0)) = [15%nat]
  /\ at_most_one_mic [4%nat] (snd (startSession 0 env1 open0))
  /\ mics_alive [4%nat] (snd (startSession 0 env1 open0)) = [14%nat].
Proof.
  pose proof (@start_replaces_session 0 env1 open0 5%nat 14%nat eq_refl
                ltac:(discriminate) eq_refl) as H.
  cbv beta iota zeta delta [stopSession startSession] in H.
  destruct H as [_ [_ [_ [_ [_ [_ [_ [_ [_ [_ [_ [_ [H1 [H2 H3]]]]]]]]]]]]]].
  exact (conj H1 (conj H2 H3)).
Defined.

(** *** The close event of the replaced connection *)

(** C7.  [startSession] is called while a session is open (session 5,
    microphone stream 4, contexts 1 and 2), the microphone is granted,
    and the call runs to its return.  The prior session is stopped first:
    its close is requested and its microphone stream and contexts are
    released before anything is acquired.  But that close request makes
    the replaced connection deliver its close event, and [onclose] tears
    down whatever the manager holds by then: the new microphone stream
    (14) is stopped, the new contexts (11, 12) are closed and the new
    session (15) is forgotten.  Its connection is left open, and a
    [stopSession] that follows requests no close: afterwards the manager
    holds no session, while one connection is still open. *)
Theorem restart_torn_down_by_prior_close :
  run [CallStart env1 0; Resume 0 0; Resume 0 0; Resume 0 0; Resume 0 0;
       CloseEvent 1; CallStop CloseReturned 2]
    (idle open0)
  = Some {| held :=
              {| activeSessionPromise := None; inputAudioContext := None;
                 outputAudioContext := None; mediaStream := None;
                 processor := None; source := None; nextStartTime := 0;
                 sources := []; outputNode := Some 13%nat |};
            inFlight := [];
            returned := [Started];
            effects :=
              [CloseRequested 5; TrackStopped 4; ContextClosed 1;
               ContextClosed 2;
               ContextCreated 11 16000; ContextCreated 12 24000;
               MicAcquired 14; Connected 15;
               TrackStopped 14; ContextClosed 11; ContextClosed 12;
               OnClose] |}
  /\ sessions_open [5%nat]
       [CloseRequested 5; TrackStopped 4; ContextClosed 1; ContextClosed 2;
        ContextCreated 11 16000; ContextCreated 12 24000;
        MicAcquired 14; Connected 15;
        TrackStopped 14; ContextClosed 11; ContextClosed 12; OnClose]
     = [15%nat]
  /\ mics_alive [4%nat]
       [CloseRequested 5; TrackStopped 4; ContextClosed 1; ContextClosed 2;
        ContextCreated 11 16000; ContextCreated 12 24000;
        MicAcquired 14; Connected 15;
        TrackStopped 14; ContextClosed 11; ContextClosed 12; OnClose]
     = [].
Proof. repeat split. Qed.

(** The same close event delivered while the start waits for the
    microphone: the new contexts are closed and forgotten before the
    session is opened, so that [onopen] wires no capture; the manager
    ends holding a session and a live microphone stream but no audio
    context. *)
Example close_event_during_start :
  run [CallStart env1 0; Resume 0 0; Resume 0 0; Resume 0 0;
       CloseEvent 1; Resume 0 2; OpenEvent 16 17]
    (idle open0)
  = Some {| held :=
              {| activeSessionPromise := Some 15%nat;
                 inputAudioContext := None; outputAudioContext := None;
                 mediaStream := Some 14%nat;
                 processor := None; source := None; nextStartTime := 0;
                 sources := []; outputNode := Some 13%nat |};
            inFlight := [];
            returned := [Started];
            effects :=
              [CloseRequested 5; TrackStopped 4; ContextClosed 1;
               ContextClosed 2;
               ContextCreated 11 16000; ContextCreated 12 24000;
               ContextClosed 11; ContextClosed 12; OnClose;
               MicAcquired 14; Connected 15] |}.
Proof. reflexivity. Qed.

(** Two starts, the second called while the first waits for the
    microphone: both streams are acquired and the first is never
    stopped. *)
Example overlapping_starts :
  option_map (fun c => (held c, mics_alive [] (effects c),
                        sessions_open [] (effects c)))
    (run [CallStart env0 0; Resume 0 0; CallStart env1 0; Resume 1 0;
          Resume 0 0; Resume 0 0]
       (idle initial))
  = Some ({| activeSessionPromise := Some 15%nat;
             inputAudioContext :=
               Some {| ctx_id := 11; ctx_sampleRate := 16000 |};
             outputAudioContext :=
               Some {| ctx_id := 12; ctx_sampleRate := 24000 |};
             mediaStream := Some 14%nat;
             processor := None; source := None; nextStartTime := 0;
             sources := []; outputNode := Some 13%nat |},
          [14%nat; 4%nat], [15%nat; 5%nat]).
Proof. reflexivity. Qed.

(** *** Wire formats *)

(** C9, as amended.  Audio received from the service is base64-wrapped
    little-endian signed 16-bit mono PCM, decoded at 24000 Hz: the
    character codes of what [atob] returns are, two by two and low byte
    first, the 16-bit values whose 32768th parts are the samples.  Audio
    sent to the service is the same encoding, labelled
    audio/pcm;rate=16000: the text is the base64 encoding of the
    little-endian bytes of the quantized samples.  And whatever calls and
    callbacks have run on the manager, in whatever order, a capture
    context it holds is at 16000 Hz and a playback context at
    24000 Hz. *)
Theorem wire_formats (base64 : string) (buffer : AudioBuffer)
  (samples : list float) (st : LiveSessionManager)
  (labels : list Label) (c : Config) :
  decodeAudioData base64 = inl buffer ->
  rates_as_created st ->
  run labels (idle st) = Some c ->
  (sampleRate buffer = 24000%Z /\ numberOfChannels buffer = 1%Z /\
   exists binary a,
     Base64.atob base64 = Some binary /\
     Forall is_int16 a /\
     map (fun ch => Z.of_nat (nat_of_ascii ch)) (list_ascii_of_string binary)
     = flat_map spec_le_bytes a /\
     channelData buffer = map (fun v => inject_Z v / 32768) a) /\
  (let bytes := flat_map spec_le_bytes (map spec_quantize samples) in
   mimeType (createPcmBlob samples) = "audio/pcm;rate=16000" /\
   Forall is_int16 (map spec_quantize samples) /\
   data (createPcmBlob samples)
   = string_of_list_ascii (Base64.btoa_chars bytes) /\
   exists binary,
     Base64.atob (data (createPcmBlob samples)) = Some binary /\
     map (fun ch => Z.of_nat (nat_of_ascii ch)) (list_ascii_of_string binary)
     = bytes) /\
  ((forall ctx, inputAudioContext (held c) = Some ctx ->
                ctx_sampleRate ctx = 16000%Z) /\
   (forall ctx, outputAudioContext (held c) = Some ctx ->
                ctx_sampleRate ctx = 24000%Z)).
Proof.
  intros Hdec Hrates Hrun.
  destruct (PcmFacts.decodeAudioData_ok _ Hdec) as [Hch [Hrate Hle]].
  split; [split; [exact Hrate|split; [exact Hch|exact Hle]]|].
  split.
  - pose proof (PcmFacts.createPcmBlob_bytes samples) as H.
    cbn zeta in H. destruct H as [H1 [_ [_ [H4 _]]]].
    pose proof (PcmFacts.createPcmBlob_text samples) as T.
    cbn zeta in T. destruct T as [T1 [T2 _]].
    split; [now rewrite H4|]. split; [exact H1|]. split; [exact T1|exact T2].
  - exact (rates_run labels (idle st) Hrates Hrun).
Qed.

Lemma wire_formats_witness :
  (sampleRate {| numberOfChannels := 1; sampleRate := 24000;
                 channelData := [inject_Z 256 / 32768] |} = 24000%Z /\
   exists binary a,
     Base64.atob "AAE=" = Some binary /\
     Forall is_int16 a /\
     map (fun ch => Z.of_nat (nat_of_ascii ch)) (list_ascii_of_string binary)
     = flat_map spec_le_bytes a /\
     [inject_Z 256 / 32768] = map (fun v => inject_Z v / 32768) a) /\
  (mimeType (createPcmBlob [Fin (1 # 2)]) = "audio/pcm;rate=16000" /\
   data (createPcmBlob [Fin (1 # 2)])
   = string_of_list_ascii (Base64.btoa_chars [255; 63]%Z)) /\
  exists c,
    run [CallStart env0 0; Resume 0 0; Resume 0 0] (idle initial) = Some c /\
    rates (held c) = (Some 16000%Z, Some 24000%Z) /\
    (forall ctx, inputAudioContext (held c) = Some ctx ->
                 ctx_sampleRate ctx = 16000%Z).
Proof.
  assert (R0 : rates_as_created initial)
    by (split; intros ctx H; discriminate H).
  pose proof (@wire_formats "AAE="
                {| numberOfChannels := 1; sampleRate := 24000;
                   channelData := [inject_Z 256 / 32768] |}
                [Fin (1 # 2)] initial
                [CallStart env0 0; Resume 0 0; Resume 0 0]
                _ eq_refl R0 eq_refl) as H.
  cbv zeta in H.
  destruct H as [[H1 [_ H2]] [[H3 [_ [H4 _]]] [H5 _]]].
  split; [split; [exact H1|exact H2]|].
  split; [split; [exact H3|exact H4]|].
  eexists. split; [reflexivity|]. split; [reflexivity|exact H5].
Defined.

(** C9 as claimed does not hold: a received chunk is decoded at 24000 Hz,
    not 16000 Hz, and a sent chunk is labelled rate=16000, not 24000. *)
Lemma wire_rates_not_as_claimed :
  ~ (forall (base64 : string) (buffer : AudioBuffer),
       decodeAudioData base64 = inl buffer -> sampleRate buffer = 16000%Z)
  /\ ~ (forall samples : list float,
          mimeType (createPcmBlob samples) = "audio/pcm;rate=24000").
Proof.
  split.
  - intros H.
    specialize (H oneFrame
                  {| numberOfChannels := 1; sampleRate := 24000;
                     channelData := [inject_Z 0 / 32768] |} eq_refl).
    discriminate H.
  - intros H. specialize (H []). discriminate H.
Qed.

End LifecycleClaims.

(* ================================================================== *)
(** ** Ordering of message handling *)
(* ================================================================== *)

Module OrderClaims.

Import Pcm.
Import Live.
Import Loop.
Import LoopFacts.
Import Samples.
Local Open Scope string_scope.
Local Open Scope list_scope.
Local Open Scope Q_scope.

Example overtaking_trace :
  option_map trace (run overtaking (start open0 true queue0))
  = Some [(0%nat, ToolCallback call0);
          (1%nat, BufferStarted 11 0
                    {| numberOfChannels := 1; sampleRate := 24000;
                       channelData := [inject_Z 0 / 32768] |});
          (0%nat, ToolResponseSent 5
                    [{| fr_id := "call-1"; fr_name := "generate_image";
                        fr_response := result "ok" |}])].
Proof. reflexivity. Qed.

Example oneByOne_trace :
  option_map trace (run oneByOne (start open0 true queue0))
  = Some [(0%nat, ToolCallback call0);
          (0%nat, ToolResponseSent 5
                    [{| fr_id := "call-1"; fr_name := "generate_image";
                        fr_response := result "ok" |}]);
          (1%nat, BufferStarted 11 0
                    {| numberOfChannels := 1; sampleRate := 24000;
                       channelData := [inject_Z 0 / 32768] |})].
Proof. reflexivity. Qed.




End OrderClaims.

(* ================================================================== *)
(** ** Further properties of the codec *)
(* ================================================================== *)

Module CodecExtras.

Import Pcm.
Import Base64Facts.
Import PcmFacts.
Local Open Scope Q_scope.

(** *** Truncation is monotone *)

Lemma inject_Z_lt_succ (a b : Z) : inject_Z a < inject_Z b + 1 -> (a <= b)%Z.
Proof.
  intros H.
  assert (H1 : inject_Z a < inject_Z (b + 1)).
  { rewrite inject_Z_plus. exact H. }
  rewrite <- Zlt_Qlt in H1. lia.
Qed.

Lemma inject_Z_pred (v : Z) : inject_Z (v - 1) == inject_Z v - 1.
Proof. unfold Z.sub. rewrite inject_Z_plus. reflexivity. Qed.

Lemma trunc_sign (x : Q) :
  (0 <= x -> (0 <= trunc x)%Z) /\ (x <= 0 -> (trunc x <= 0)%Z).
Proof.
  split; intros H.
  - destruct (@trunc_nonneg x H) as [_ B].
    assert (inject_Z (-1) < inject_Z (trunc x)).
    { change (inject_Z (-1)) with (-1). lra. }
    rewrite <- Zlt_Qlt in H0. lia.
  - destruct (@trunc_nonpos x H) as [_ B].
    apply inject_Z_lt_succ. change (inject_Z 0) with 0. lra.
Qed.

Lemma trunc_le (x y : Q) : x <= y -> (trunc x <= trunc y)%Z.
Proof.
  intros Hxy.
  destruct (Qlt_le_dec x 0) as [Hx | Hx], (Qlt_le_dec y 0) as [Hy | Hy].
  - destruct (@trunc_nonpos x) as [_ Bx]; [lra|].
    destruct (@trunc_nonpos y) as [By _]; [lra|].
    apply inject_Z_lt_succ. lra.
  - destruct (trunc_sign x) as [_ Sx]. destruct (trunc_sign y) as [Sy _].
    specialize (Sx ltac:(lra)). specialize (Sy Hy). lia.
  - lra.
  - destruct (@trunc_nonneg x Hx) as [Bx _].
    destruct (@trunc_nonneg y Hy) as [_ By].
    apply inject_Z_lt_succ. lra.
Qed.

(** The quantized value has the sign of the sample. *)
Lemma quantize_sign (q : Q) :
  (q < 0 -> (-32768 <= sample_to_int16 (Fin q) <= 0)%Z)
  /\ (0 <= q -> (0 <= sample_to_int16 (Fin q) <= 32767)%Z).
Proof.
  destruct (clamp_Fin q) as [c [E Hc]].
  rewrite (sample_to_int16_clamped E).
  destruct (clamp_range E) as [Hlo Hhi].
  destruct (trunc_scaled_range Hlo Hhi) as [Rn Rp].
  split; intros Hq.
  - assert (Hcn : c < 0)
      by (destruct Hc as [[? ->]|[[? [? ->]]|[? ->]]]; lra).
    replace (lt_zero (Fin c)) with true
      by (symmetry; now apply lt_zero_Fin).
    specialize (Rn Hcn). unfold is_int16 in Rn.
    destruct (trunc_sign (c * 32768)) as [_ S]. specialize (S ltac:(lra)).
    lia.
  - assert (Hcp : 0 <= c)
      by (destruct Hc as [[? ->]|[[? [? ->]]|[? ->]]]; lra).
    replace (lt_zero (Fin c)) with false.
    2:{ symmetry. apply not_true_is_false. intros C.
        apply lt_zero_Fin in C. lra. }
    specialize (Rp Hcp). unfold is_int16 in Rp.
    destruct (trunc_sign (c * 32767)) as [S _]. specialize (S ltac:(lra)).
    lia.
Qed.

(** X1.  The quantizer of [createPcmBlob] is monotone on finite samples,
    clamped or not: a larger sample never encodes to a smaller 16-bit
    value; a negative sample encodes to a value in [-32768, 0] and a
    non-negative one to a value in [0, 32767]. *)
Theorem quantizer_monotone (x y : Q) :
  x <= y ->
  (sample_to_int16 (Fin x) <= sample_to_int16 (Fin y))%Z
  /\ (x < 0 -> (-32768 <= sample_to_int16 (Fin x) <= 0)%Z)
  /\ (0 <= x -> (0 <= sample_to_int16 (Fin x) <= 32767)%Z).
Proof.
  intros Hxy.
  destruct (quantize_sign x) as [Sxn Sxp].
  destruct (quantize_sign y) as [Syn Syp].
  split; [|split; assumption].
  destruct (Qlt_le_dec x 0) as [Hx | Hx], (Qlt_le_dec y 0) as [Hy | Hy].
  - destruct (clamp_Fin x) as [cx [Ex Hcx]].
    destruct (clamp_Fin y) as [cy [Ey Hcy]].
    rewrite (sample_to_int16_clamped Ex), (sample_to_int16_clamped Ey).
    assert (cx < 0) by (destruct Hcx as [[? ->]|[[? [? ->]]|[? ->]]]; lra).
    assert (cy < 0) by (destruct Hcy as [[? ->]|[[? [? ->]]|[? ->]]]; lra).
    assert (cx <= cy).
    { destruct Hcx as [[? ->]|[[? [? ->]]|[? ->]]];
        destruct Hcy as [[? ->]|[[? [? ->]]|[? ->]]]; lra. }
    replace (lt_zero (Fin cx)) with true
      by (symmetry; now apply lt_zero_Fin).
    replace (lt_zero (Fin cy)) with true
      by (symmetry; now apply lt_zero_Fin).
    apply trunc_le. lra.
  - specialize (Sxn Hx). specialize (Syp Hy). lia.
  - lra.
  - destruct (clamp_Fin x) as [cx [Ex Hcx]].
    destruct (clamp_Fin y) as [cy [Ey Hcy]].
    rewrite (sample_to_int16_clamped Ex), (sample_to_int16_clamped Ey).
    assert (0 <= cx) by (destruct Hcx as [[? ->]|[[? [? ->]]|[? ->]]]; lra).
    assert (0 <= cy) by (destruct Hcy as [[? ->]|[[? [? ->]]|[? ->]]]; lra).
    assert (cx <= cy).
    { destruct Hcx as [[? ->]|[[? [? ->]]|[? ->]]];
        destruct Hcy as [[? ->]|[[? [? ->]]|[? ->]]]; lra. }
    replace (lt_zero (Fin cx)) with false.
    2:{ symmetry. apply not_true_is_false. intros C.
        apply lt_zero_Fin in C. lra. }
    replace (lt_zero (Fin cy)) with false.
    2:{ symmetry. apply not_true_is_false. intros C.
        apply lt_zero_Fin in C. lra. }
    apply trunc_le. lra.
Qed.

Lemma quantizer_monotone_witness :
  (sample_to_int16 (Fin (- (1 # 3))) <= sample_to_int16 (Fin (5 # 2)))%Z.
Proof.
  apply (proj1 (@quantizer_monotone (- (1 # 3)) (5 # 2)
                  ltac:(discriminate))).
Defined.

(** *** What a decode returns *)

Lemma even_or_odd (n : nat) : Nat.even n = true \/ Nat.odd n = true.
Proof.
  rewrite <- Nat.negb_even. destruct (Nat.even n); auto.
Qed.

(** X2.  Once [atob] accepts a chunk, [decodeAudioData] is decided by the
    number of bytes: none gives NotSupportedError (no frames), an odd
    number gives RangeError, and an even non-zero number gives a mono
    buffer at 24000 Hz with one frame for every two bytes. *)
Theorem decodeAudioData_outcome (base64 binary : string) :
  Base64.atob base64 = Some binary ->
  match decodeAudioData base64 with
  | inl buffer =>
      binary <> ""%string /\
      Nat.even (String.length binary) = true /\
      (2 * frames buffer = String.length binary)%nat /\
      sampleRate buffer = 24000%Z /\ numberOfChannels buffer = 1%Z
  | inr RangeError => Nat.odd (String.length binary) = true
  | inr NotSupportedError => binary = ""%string
  | inr InvalidCharacterError => False
  end.
Proof.
  intros E. unfold decodeAudioData. rewrite E.
  destruct (even_or_odd (String.length binary)) as [Hev | Hodd].
  - rewrite <- length_bytes_of_binary in Hev.
    destruct (Int16Array_of_bytes_even _ Hev) as [a [Ea La]].
    rewrite Ea. rewrite length_bytes_of_binary in La, Hev.
    destruct a as [|v a]; cbn [List.length createBuffer].
    + destruct binary; [reflexivity|discriminate].
    + unfold frames. cbn [channelData numberOfChannels sampleRate].
      rewrite length_map. cbn [List.length] in *.
      repeat split; try assumption.
      intros ->. discriminate.
  - rewrite Int16Array_of_bytes_odd; [exact Hodd|].
    now rewrite length_bytes_of_binary.
Qed.

Lemma decodeAudioData_outcome_witness :
  match decodeAudioData "AAECAw==" with
  | inl buffer =>
      String "000" (String "001" (String "002" (String "003" EmptyString)))
      <> ""%string /\
      Nat.even 4 = true /\
      (2 * frames buffer = 4)%nat /\
      sampleRate buffer = 24000%Z /\ numberOfChannels buffer = 1%Z
  | inr RangeError => Nat.odd 4 = true
  | inr NotSupportedError =>
      String "000" (String "001" (String "002" (String "003" EmptyString)))
      = ""%string
  | inr InvalidCharacterError => False
  end.
Proof.
  exact (@decodeAudioData_outcome "AAECAw=="
           (String "000" (String "001" (String "002"
              (String "003" EmptyString)))) eq_refl).
Defined.

(** X3.  Every sample of a decoded buffer lies in [-1, 32767/32768], and
    the buffer has a positive duration. *)
Theorem decoded_samples_bounded (base64 : string) (buffer : AudioBuffer) :
  decodeAudioData base64 = inl buffer ->
  Forall (fun q => -1 <= q /\ q <= 32767 # 32768) (channelData buffer)
  /\ 0 < duration buffer.
Proof.
  intros E.
  destruct (decodeAudioData_ok _ E) as [Hch [Hrate [binary [a [_ [Ha [_ Hd]]]]]]].
  split.
  - rewrite Hd. clear Hd E. induction Ha as [|v a Hv _ IH]; cbn [map].
    + constructor.
    + constructor; [|exact IH].
      unfold is_int16 in Hv. destruct Hv as [H1 H2].
      rewrite Zle_Qle in H1, H2.
      change (inject_Z (-32768)) with (-32768) in H1.
      change (inject_Z 32767) with 32767 in H2.
      unfold Qdiv. change (/ 32768) with (1 # 32768). split; lra.
  - unfold duration. rewrite Hrate.
    assert (Hf : (0 < frames buffer)%nat).
    { unfold frames. rewrite Hd, length_map.
      unfold decodeAudioData in E.
      destruct (Base64.atob base64); [|discriminate].
      destruct (Int16Array_of_bytes (bytes_of_binary s)) as [a'|];
        [|discriminate].
      destruct a' as [|v' a'']; [discriminate|].
      injection E as E. rewrite <- E in Hd. cbn [channelData] in Hd.
      apply (f_equal (@List.length Q)) in Hd. rewrite !length_map in Hd.
      rewrite <- Hd. cbn. lia. }
    unfold Qdiv. change (/ inject_Z 24000) with (1 # 24000).
    assert (0 < inject_Z (Z.of_nat (frames buffer))).
    { change 0 with (inject_Z 0). rewrite <- Zlt_Qlt. lia. }
    lra.
Qed.

Lemma decoded_samples_bounded_witness :
  exists buffer,
    decodeAudioData "AID/fw==" = inl buffer /\
    Forall (fun q => -1 <= q /\ q <= 32767 # 32768) (channelData buffer).
Proof.
  eexists. split; [reflexivity|].
  apply (@decoded_samples_bounded "AID/fw==" _ eq_refl).
Defined.

(** *** Decoding, then encoding again *)

Lemma requantize (v : Z) :
  is_int16 v ->
  sample_to_int16 (Fin (inject_Z v / 32768))
  = if (0 <? v)%Z then (v - 1)%Z else v.
Proof.
  intros [Hlo Hhi].
  assert (Qlo : inject_Z (-32768) <= inject_Z v) by now rewrite <- Zle_Qle.
  assert (Qhi : inject_Z v <= inject_Z 32767) by now rewrite <- Zle_Qle.
  change (inject_Z (-32768)) with (-32768) in Qlo.
  change (inject_Z 32767) with 32767 in Qhi.
  set (q := inject_Z v / 32768).
  assert (Eq : q == inject_Z v * (1 # 32768)) by reflexivity.
  clearbody q.
  destruct (clamp_Fin q) as [c [E Hc]].
  assert (Ec : c == q)
    by (destruct Hc as [[? ->]|[[? [? ->]]|[? ->]]]; lra).
  rewrite (sample_to_int16_clamped E).
  destruct (Z.ltb_spec 0 v) as [Hpos | Hneg].
  - assert (Qpos : inject_Z 1 <= inject_Z v) by (rewrite <- Zle_Qle; lia).
    change (inject_Z 1) with 1 in Qpos.
    replace (lt_zero (Fin c)) with false.
    2:{ symmetry. apply not_true_is_false. intros C.
        apply lt_zero_Fin in C. lra. }
    destruct (@trunc_nonneg (c * 32767)) as [B1 B2]; [lra|].
    assert (L1 : (trunc (c * 32767) <= v - 1)%Z).
    { apply inject_Z_lt_succ. rewrite inject_Z_pred. lra. }
    assert (L2 : (v - 1 <= trunc (c * 32767))%Z).
    { apply inject_Z_lt_succ. rewrite inject_Z_pred. lra. }
    lia.
  - assert (Qneg : inject_Z v <= inject_Z 0) by (rewrite <- Zle_Qle; lia).
    change (inject_Z 0) with 0 in Qneg.
    destruct (Qlt_le_dec c 0) as [Hc0 | Hc0].
    + replace (lt_zero (Fin c)) with true
        by (symmetry; now apply lt_zero_Fin).
      rewrite (@trunc_Qeq (c * 32768) (inject_Z v)); [apply trunc_inject_Z|].
      rewrite Ec, Eq. field.
    + replace (lt_zero (Fin c)) with false.
      2:{ symmetry. apply not_true_is_false. intros C.
          apply lt_zero_Fin in C. lra. }
      assert (inject_Z v == 0) by lra.
      assert (v = 0%Z).
      { assert (inject_Z v <= inject_Z 0 /\ inject_Z 0 <= inject_Z v)
          by (change (inject_Z 0) with 0; split; lra).
        destruct H0 as [A B]. rewrite <- Zle_Qle in A, B. lia. }
      subst v.
      rewrite (@trunc_Qeq (c * 32767) (inject_Z 0)); [apply trunc_inject_Z|].
      rewrite Ec, Eq. reflexivity.
Qed.

(** X4.  Decoding a chunk and encoding the samples again does not give
    the chunk back: every positive 16-bit value comes out one lower
    (scaled by 32767/32768 and truncated), while zero and the negative
    values are kept. *)
Theorem reencode_drifts (base64 : string) (buffer : AudioBuffer) :
  decodeAudioData base64 = inl buffer ->
  exists a,
    Forall is_int16 a /\
    channelData buffer = map (fun v => inject_Z v / 32768) a /\
    map sample_to_int16 (map Fin (channelData buffer))
    = map (fun v => if (0 <? v)%Z then (v - 1)%Z else v) a.
Proof.
  intros E.
  destruct (decodeAudioData_ok _ E) as [_ [_ [binary [a [_ [Ha [_ Hd]]]]]]].
  exists a. split; [exact Ha|]. split; [exact Hd|].
  rewrite Hd, !map_map. clear Hd E.
  induction Ha as [|v a Hv _ IH]; [reflexivity|].
  cbn [map]. now rewrite requantize, IH.
Qed.

Lemma reencode_drifts_witness :
  let buffer :=
    {| numberOfChannels := 1; sampleRate := 24000;
       channelData := map (fun v => inject_Z v / 32768)
                        [-32768; 32767; 0; 1]%Z |} in
  exists a,
    Forall is_int16 a /\
    channelData buffer = map (fun v => inject_Z v / 32768) a /\
    map sample_to_int16 (map Fin (channelData buffer))
    = map (fun v => if (0 <? v)%Z then (v - 1)%Z else v) a.
Proof.
  exact (@reencode_drifts "AID/fwAAAQA="
           {| numberOfChannels := 1; sampleRate := 24000;
              channelData := map (fun v => inject_Z v / 32768)
                               [-32768; 32767; 0; 1]%Z |} eq_refl).
Defined.

Example reencode_example :
  map sample_to_int16
    (map Fin (map (fun v => inject_Z v / 32768) [-32768; 32767; 0; 1]%Z))
  = [-32768; 32766; 0; 0]%Z.
Proof. reflexivity. Qed.

(** *** Size of an encoded chunk *)

Lemma length_btoa_chars_exact (bs : list Z) :
  List.length (Base64.btoa_chars bs) = (4 * ((List.length bs + 2) / 3))%nat.
Proof.
  induction bs as [|a|a b|a b c r IH] using list_ind3; try reflexivity.
  cbn [Base64.btoa_chars List.length]. rewrite IH.
  replace (S (S (S (List.length r))) + 2)%nat
    with (List.length r + 2 + 1 * 3)%nat by lia.
  rewrite Nat.div_add by discriminate. lia.
Qed.

Lemma length_string_of_list_ascii (l : list ascii) :
  String.length (string_of_list_ascii l) = List.length l.
Proof. induction l as [|c l IH]; [reflexivity|]. cbn. now rewrite IH. Qed.

(** X5.  A chunk of n samples is encoded as 2n bytes, hence as
    4 * ceil(2n / 3) base64 characters, whatever the samples are. *)
Theorem createPcmBlob_length (samples : list float) :
  String.length (data (createPcmBlob samples))
  = (4 * ((2 * List.length samples + 2) / 3))%nat.
Proof.
  unfold createPcmBlob. cbn [data]. unfold Base64.btoa.
  rewrite length_string_of_list_ascii, length_btoa_chars_exact, length_map.
  unfold binary_of_bytes. rewrite list_ascii_of_string_of_list_ascii.
  now rewrite !length_map, length_bytes_of_int16, length_map.
Qed.

End CodecExtras.

(* ================================================================== *)
(** ** Further properties of message handling *)
(* ================================================================== *)

Module HandlerExtras.

Import Pcm.
Import Live.
Import LiveFacts.
Import Replay.
Import Samples.
Local Open Scope string_scope.
Local Open Scope list_scope.
Local Open Scope Q_scope.

(** *** Shape of a handler's result *)

(** The state and the events of [handleMessage], by the tool branch. *)
Lemma handleMessage_after (W : Type) now node (ocb : option (Callback W))
  message st w :
  exists responses called,
    fst (fst (handleMessage now node ocb message st w))
    = fst (afterToolCalls now node responses message st)
    /\ snd (fst (handleMessage now node ocb message st w))
       = map ToolCallback called
         ++ snd (afterToolCalls now node responses message st).
Proof.
  unfold handleMessage.
  destruct (toolCall message) as [tc|], ocb as [cb|];
    try (exists None, [];
         destruct (afterToolCalls now node None message st);
         split; reflexivity).
  pose proof (dispatch_events cb (functionCalls tc) w) as He.
  destruct (dispatch cb (functionCalls tc) w) as [[rs called] w1].
  cbn [fst snd] in He. subst called.
  exists (Some rs), (functionCalls tc).
  destruct (afterToolCalls now node (Some rs) message st).
  split; reflexivity.
Qed.

Lemma duration_nonneg_decoded (b : string) (buffer : AudioBuffer) :
  decodeAudioData b = inl buffer -> 0 <= duration buffer.
Proof.
  intros E.
  destruct (PcmFacts.decodeAudioData_ok _ E) as [_ [Hrate _]].
  unfold duration. rewrite Hrate.
  unfold Qdiv. change (/ inject_Z 24000) with (1 # 24000).
  assert (0 <= inject_Z (Z.of_nat (frames buffer))).
  { change 0 with (inject_Z 0). rewrite <- Zle_Qle. lia. }
  lra.
Qed.

(** What the audio branch does to the cursor and to the pending set. *)
Lemma playAudio_cases now node b st :
  (exists buffer,
      decodeAudioData b = inl buffer /\
      playAudio now node b st = schedule now node buffer st)
  \/ (exists e,
        decodeAudioData b = inr e /\
        playAudio now node b st = (st, [ConsoleError "Error decoding audio:"])).
Proof.
  unfold playAudio. destruct (decodeAudioData b) as [buffer|e].
  - left. now exists buffer.
  - right. now exists e.
Qed.

Lemma afterToolCalls_parts now node responses message st :
  afterToolCalls now node responses message st
  = (let '(st1, played) := audioPart now node message st in
     let '(st2, stopped) :=
       if isInterrupted message then stopAudioPlayback now st1
       else (st1, []) in
     (st2,
      match chunkToDecode message st with
      | Some _ =>
          match responses with
          | Some rs => sendToolResponse rs st
          | None => []
          end ++ played ++ stopped
      | None =>
          stopped ++ match responses with
                     | Some rs => sendToolResponse rs st
                     | None => []
                     end
      end)).
Proof.
  unfold afterToolCalls, audioPart, chunkToDecode, onInterrupted.
  destruct (base64Audio message) as [b|], (outputAudioContext st),
    (outputNode st); try reflexivity.
  destruct (truthy b); reflexivity.
Qed.

(** The audio part either leaves the manager alone and starts nothing,
    or schedules one decoded buffer. *)
Lemma audioPart_cases now node message st :
  (fst (audioPart now node message st) = st
   /\ starts (snd (audioPart now node message st)) = []
   /\ forallb handler_event (snd (audioPart now node message st)) = true
   /\ (forall n, ~ In (BufferStopped n) (snd (audioPart now node message st))))
  \/ (exists b buffer,
        base64Audio message = Some b /\
        decodeAudioData b = inl buffer /\
        audioPart now node message st = schedule now node buffer st).
Proof.
  unfold audioPart.
  destruct (base64Audio message) as [b|];
    [|left; repeat split; auto].
  destruct (outputAudioContext st); [|left; repeat split; auto].
  destruct (outputNode st); [|left; repeat split; auto].
  destruct (truthy b); [|left; repeat split; auto].
  destruct (playAudio_cases now node b st) as [[buffer [E ->]] | [e [E ->]]].
  - right. now exists b, buffer.
  - left. repeat split; auto. intros k [H | []]. discriminate.
Qed.

Lemma forallb_handler_stopped (l : list nat) :
  forallb handler_event (map BufferStopped l) = true.
Proof. induction l; [reflexivity|assumption]. Qed.

Lemma forallb_handler_callbacks (l : list FunctionCall) :
  forallb handler_event (map ToolCallback l) = true.
Proof. induction l; [reflexivity|assumption]. Qed.

Lemma forallb_handler_send rs st :
  forallb handler_event
    (match rs with
     | Some r => sendToolResponse r st
     | None => []
     end) = true.
Proof.
  destruct rs; [|reflexivity]. unfold sendToolResponse.
  now destruct (activeSessionPromise st).
Qed.

Lemma starts_send rs st :
  starts (match rs with
          | Some r => sendToolResponse r st
          | None => []
          end) = [].
Proof.
  destruct rs; [|reflexivity]. unfold sendToolResponse.
  now destruct (activeSessionPromise st).
Qed.

Lemma starts_callbacks (l : list FunctionCall) :
  starts (map ToolCallback l) = [].
Proof. induction l; [reflexivity|assumption]. Qed.

(** X6.  [handleMessage] starts at most one buffer, never in the past
    and never before the cursor, and, unless the message signals an
    interruption, it never moves the cursor backward. *)
Theorem cursor_never_backward (W : Type) (now : Q) (node : nat)
  (ocb : option (Callback W)) (message : LiveServerMessage)
  (st : LiveSessionManager) (w : W) :
  let '(st1, evs, w1) := handleMessage now node ocb message st w in
  (List.length (starts evs) <= 1)%nat /\
  Forall (fun sd => now <= fst sd /\ nextStartTime st <= fst sd
                    /\ 0 <= snd sd) (starts evs) /\
  (isInterrupted message = false -> nextStartTime st <= nextStartTime st1).
Proof.
  destruct (handleMessage_after now node ocb message st w)
    as [responses [called [Hst Hev]]].
  destruct (handleMessage now node ocb message st w) as [[st1 evs] w1].
  cbn [fst snd] in Hst, Hev. subst st1 evs.
  rewrite afterToolCalls_parts.
  destruct (audioPart_cases now node message st)
    as [[His [Hs _]] | [b [buffer [Hb [Hd Hsch]]]]].
  - destruct (audioPart now node message st) as [st1 played].
    cbn [fst snd] in His, Hs. subst st1.
    destruct (isInterrupted message), (chunkToDecode message st);
      cbn [fst snd stopAudioPlayback];
      rewrite ?starts_app, starts_callbacks, starts_send, ?Hs,
        ?starts_stopped; cbn [app starts List.length];
      (split; [lia|]); (split; [constructor|]);
      first [discriminate|intros _; apply Qle_refl].
  - rewrite Hsch. unfold schedule.
    pose proof (duration_nonneg_decoded _ Hd) as Hdur.
    pose proof (Math_max_ge_l (nextStartTime st) now) as H1.
    pose proof (Math_max_ge_r (nextStartTime st) now) as H2.
    destruct (isInterrupted message), (chunkToDecode message st);
      cbn [fst snd stopAudioPlayback];
      rewrite ?starts_app, starts_callbacks, starts_send,
        ?starts_stopped; cbn [app starts List.length fst snd];
      (split; [lia|]);
      (split; [repeat constructor; auto|]);
      first [discriminate
            |intros _; cbn [nextStartTime set_playback]; lra].
Qed.

(** *** Audio and interruption in one message *)

(** X8.  When a message carries both a chunk that decodes and the
    interruption signal, its buffer is started and stopped at once: the
    stop comes after the start, together with the stop of every buffer
    that was pending; the pending set ends empty and the cursor at the
    clock reading. *)
Theorem interrupting_message_cuts_own_audio (W : Type) (now : Q)
  (node : nat) (ocb : option (Callback W)) (message : LiveServerMessage)
  (st : LiveSessionManager) (w : W) (b : string) (buffer : AudioBuffer)
  (c : AudioContext) (g : nat) :
  base64Audio message = Some b -> truthy b = true ->
  decodeAudioData b = inl buffer ->
  outputAudioContext st = Some c -> outputNode st = Some g ->
  isInterrupted message = true ->
  let '(st1, evs, w1) := handleMessage now node ocb message st w in
  sources st1 = [] /\ nextStartTime st1 = now /\
  exists before,
    evs = before
          ++ BufferStarted node (Math_max (nextStartTime st) now) buffer
             :: map BufferStopped (set_add Nat.eq_dec node (sources st))
    /\ In (BufferStopped node)
         (map BufferStopped (set_add Nat.eq_dec node (sources st)))
    /\ starts before = [].
Proof.
  intros Hb Ht Hd Hc Hg Hi.
  destruct (handleMessage_after now node ocb message st w)
    as [responses [called [Hst Hev]]].
  destruct (handleMessage now node ocb message st w) as [[st1 evs] w1].
  cbn [fst snd] in Hst, Hev. subst st1 evs.
  rewrite afterToolCalls_parts. unfold audioPart, chunkToDecode, playAudio.
  rewrite Hb, Hc, Hg, Ht, Hd, Hi. unfold schedule.
  cbn [fst snd stopAudioPlayback sources nextStartTime set_playback
       outputAudioContext].
  rewrite Hc. split; [reflexivity|]. split; [reflexivity|].
  exists (map ToolCallback called
          ++ match responses with
             | Some rs => sendToolResponse rs st
             | None => []
             end).
  split; [now rewrite <- !app_assoc|]. split.
  - apply in_map. apply set_add_intro2. reflexivity.
  - now rewrite starts_app, starts_callbacks, starts_send.
Qed.

Lemma interrupting_message_cuts_own_audio_witness :
  let '(st1, evs, w1) :=
    handleMessage (1 # 2) 10 (Some callback0) (audioMessage oneFrame true)
      open0 0%nat in
  sources st1 = [] /\ nextStartTime st1 = 1 # 2.
Proof.
  pose proof (@interrupting_message_cuts_own_audio nat (1 # 2) 10
                (Some callback0) (audioMessage oneFrame true) open0 0%nat
                oneFrame
                {| numberOfChannels := 1; sampleRate := 24000;
                   channelData := [inject_Z 0 / 32768] |}
                {| ctx_id := 2; ctx_sampleRate := 24000 |} 3%nat
                eq_refl eq_refl eq_refl eq_refl eq_refl eq_refl) as H.
  destruct (handleMessage (1 # 2) 10 (Some callback0)
              (audioMessage oneFrame true) open0 0%nat) as [[st1 evs] w1].
  destruct H as [H1 [H2 _]]. exact (conj H1 H2).
Defined.

(** *** Audio that is not played *)

(** X9.  A chunk is not even decoded when the manager has no output
    context or no output node (after a teardown), or when the chunk is
    the empty string: the message is handled exactly as if it carried no
    audio, with no error logged. *)
Theorem audio_ignored_without_output (W : Type) (now : Q) (node : nat)
  (ocb : option (Callback W)) (message : LiveServerMessage)
  (st : LiveSessionManager) (w : W) (b : string) :
  base64Audio message = Some b ->
  outputAudioContext st = None \/ outputNode st = None \/ b = ""%string ->
  handleMessage now node ocb message st w
  = handleMessage now node ocb (withoutAudio message) st w.
Proof.
  intros Hb Hno.
  assert (Hafter : forall responses,
             afterToolCalls now node responses message st
             = afterToolCalls now node responses (withoutAudio message) st).
  { intros responses. rewrite !afterToolCalls_parts.
    rewrite isInterrupted_withoutAudio. unfold audioPart, chunkToDecode.
    rewrite Hb, base64Audio_withoutAudio.
    destruct Hno as [-> | [H | ->]].
    - reflexivity.
    - rewrite H. now destruct (outputAudioContext st).
    - cbn [truthy]. now destruct (outputAudioContext st), (outputNode st). }
  unfold handleMessage.
  change (toolCall (withoutAudio message)) with (toolCall message).
  destruct (toolCall message) as [tc|], ocb as [cb|];
    try (now rewrite Hafter).
  destruct (dispatch cb (functionCalls tc) w) as [[rs called] w1].
  now rewrite Hafter.
Qed.

Lemma audio_ignored_without_output_witness :
  handleMessage 0 10 (Some callback0) (audioMessage badChunk false)
    (fst (stopSession 0 CloseReturned open0)) 0%nat
  = handleMessage 0 10 (Some callback0)
      (withoutAudio (audioMessage badChunk false))
      (fst (stopSession 0 CloseReturned open0)) 0%nat.
Proof.
  apply (@audio_ignored_without_output nat 0 10 (Some callback0)
           (audioMessage badChunk false)
           (fst (stopSession 0 CloseReturned open0)) 0%nat badChunk eq_refl).
  left. reflexivity.
Defined.

(** *** What a handler leaves alone *)

(** X10.  [handleMessage] changes nothing in the manager but the cursor
    and the pending set (session handle, contexts, microphone stream,
    processor, source and output node are kept), and its only effects
    are callback invocations, the tool response, buffer starts and stops
    and a logged decode error: it never acquires, releases or closes
    anything. *)
Theorem handler_touches_playback_only (W : Type) (now : Q) (node : nat)
  (ocb : option (Callback W)) (message : LiveServerMessage)
  (st : LiveSessionManager) (w : W) :
  let '(st1, evs, w1) := handleMessage now node ocb message st w in
  set_playback st1 (nextStartTime st) (sources st) = st /\
  forallb handler_event evs = true.
Proof.
  destruct (handleMessage_after now node ocb message st w)
    as [responses [called [Hst Hev]]].
  pose proof (afterToolCalls_frame now node responses message st) as Hfr.
  cbn zeta in Hfr.
  destruct (handleMessage now node ocb message st w) as [[st1 evs] w1].
  cbn [fst snd] in Hst, Hev. subst st1 evs.
  split; [exact Hfr|].
  rewrite forallb_app, forallb_handler_callbacks. cbn [andb].
  rewrite afterToolCalls_parts.
  destruct (audioPart_cases now node message st)
    as [[His [_ [Hh _]]] | [b [buffer [_ [_ Hsch]]]]].
  - destruct (audioPart now node message st) as [st1 played].
    cbn [fst snd] in His, Hh. subst st1.
    destruct (isInterrupted message), (chunkToDecode message st);
      cbn [fst snd stopAudioPlayback app];
      rewrite ?forallb_app, forallb_handler_send, ?Hh,
        ?forallb_handler_stopped; reflexivity.
  - rewrite Hsch. unfold schedule.
    destruct (isInterrupted message), (chunkToDecode message st);
      cbn [fst snd stopAudioPlayback app];
      rewrite ?forallb_app, forallb_handler_send;
      cbn [forallb handler_event andb];
      rewrite ?forallb_handler_stopped; reflexivity.
Qed.

End HandlerExtras.

(* ================================================================== *)
(** ** Further properties of the life cycle and of the tool loop *)
(* ================================================================== *)

Module LifecycleExtras.

Import Pcm.
Import Live.
Import LiveFacts.
Import LifecycleFacts.
Import Calls.
Import CallsFacts.
Import Replay.
Import Samples.
Local Open Scope string_scope.
Local Open Scope list_scope.
Local Open Scope Q_scope.

(** *** The tool loop *)

Lemma dispatch_app (W : Type) (cb : Callback W)
  (calls1 calls2 : list FunctionCall) (w : W) :
  dispatch cb (calls1 ++ calls2) w
  = (let '(r1, e1, w1) := dispatch cb calls1 w in
     let '(r2, e2, w2) := dispatch cb calls2 w1 in
     (r1 ++ r2, e1 ++ e2, w2)).
Proof.
  revert w. induction calls1 as [|fc calls1 IH]; intros w.
  - cbn [app dispatch]. now destruct (dispatch cb calls2 w) as [[r2 e2] w2].
  - cbn [app dispatch].
    destruct (cb (fc_name fc) (fc_args fc) w) as [o w1].
    rewrite IH.
    destruct (dispatch cb calls1 w1) as [[r1 e1] w1'].
    now destruct (dispatch cb calls2 w1') as [[r2 e2] w2].
Qed.

(** X11.  The tool loop handles the calls of a batch strictly one after
    the other: handling a batch is handling its first part and then, from
    the application state that leaves, its second part; every call is
    invoked exactly once and in order, also after a call that was
    rejected. *)
Theorem tool_loop_sequential (W : Type) (cb : Callback W)
  (calls1 calls2 : list FunctionCall) (w : W) :
  let '(r1, e1, w1) := dispatch cb calls1 w in
  let '(r2, e2, w2) := dispatch cb calls2 w1 in
  dispatch cb (calls1 ++ calls2) w = (r1 ++ r2, e1 ++ e2, w2) /\
  e1 ++ e2 = map ToolCallback (calls1 ++ calls2) /\
  List.length (r1 ++ r2) = List.length (calls1 ++ calls2).
Proof.
  pose proof (dispatch_app cb calls1 calls2 w) as Happ.
  pose proof (dispatch_events cb calls1 w) as He1.
  pose proof (dispatch_one_to_one cb calls1 w) as F1.
  destruct (dispatch cb calls1 w) as [[r1 e1] w1].
  pose proof (dispatch_events cb calls2 w1) as He2.
  pose proof (dispatch_one_to_one cb calls2 w1) as F2.
  destruct (dispatch cb calls2 w1) as [[r2 e2] w2].
  cbn [fst snd] in *. subst e1 e2.
  split; [exact Happ|]. split; [now rewrite map_app|].
  rewrite !length_app.
  now rewrite (Forall2_length F1), (Forall2_length F2).
Qed.

Example rejected_call_does_not_stop_the_loop :
  dispatch callback0 [call1; call0] 0%nat
  = ([{| fr_id := "call-2"; fr_name := "control_location";
         fr_response := error "Failed to execute function" |};
      {| fr_id := "call-1"; fr_name := "generate_image";
         fr_response := result "ok" |}],
     [ToolCallback call1; ToolCallback call0], 2%nat).
Proof. reflexivity. Qed.

(** *** Replaying contexts *)

Lemma contexts_open_app (open : list nat) (e1 e2 : list Event) :
  contexts_open open (e1 ++ e2) = contexts_open (contexts_open open e1) e2.
Proof.
  revert open. induction e1 as [|e e1 IH]; intros open; [reflexivity|].
  destruct e; cbn [app contexts_open]; apply IH.
Qed.

Lemma contexts_open_stopped (open l : list nat) :
  contexts_open open (map BufferStopped l) = open.
Proof. induction l as [|n l IH]; [reflexivity|exact IH]. Qed.

Lemma close_request_stopped (l : list nat) :
  existsb is_close_request (map BufferStopped l) = false.
Proof. induction l as [|n l IH]; [reflexivity|exact IH]. Qed.

Lemma teardown_contexts (st : LiveSessionManager) :
  contexts_open (held_contexts st) (teardown_events st) = [].
Proof.
  unfold teardown_events, held_contexts.
  destruct (processor st), (source st), (mediaStream st),
    (inputAudioContext st) as [[i ri]|], (outputAudioContext st) as [[o ro]|];
    cbn; rewrite ?Nat.eqb_refl; cbn;
    try reflexivity;
    destruct (Nat.eqb o i); cbn; rewrite ?Nat.eqb_refl; reflexivity.
Qed.

Lemma filter_close_stopped (l : list nat) :
  filter is_close_request (map BufferStopped l) = [].
Proof. induction l as [|n l IH]; [reflexivity|exact IH]. Qed.

Lemma teardown_no_close (st : LiveSessionManager) :
  existsb is_close_request (teardown_events st) = false.
Proof.
  unfold teardown_events.
  now destruct (processor st), (source st), (mediaStream st),
    (inputAudioContext st), (outputAudioContext st).
Qed.

(** *** Teardown *)

(** X12.  [cleanup] leaves the manager holding nothing but the output
    node; everything it held has its release among the events, after
    which no microphone stream and no audio context of the manager is
    left; it acquires nothing and never asks the connection to close; a
    second [cleanup] changes nothing and releases nothing. *)
Theorem cleanup_releases_all (now later : Q) (st : LiveSessionManager) :
  let '(st1, evs) := cleanup now st in
  st1 = {| activeSessionPromise := None; inputAudioContext := None;
           outputAudioContext := None; mediaStream := None;
           processor := None; source := None; nextStartTime := 0;
           sources := []; outputNode := outputNode st |} /\
  cleanup later st1 = (st1, []) /\
  existsb acquires evs = false /\
  existsb is_close_request evs = false /\
  mics_alive (opt_list (mediaStream st)) evs = [] /\
  contexts_open (held_contexts st) evs = [] /\
  (forall n, In n (sources st) -> In (BufferStopped n) evs) /\
  (forall p, processor st = Some p -> In (ProcessorDisconnected p) evs) /\
  (forall s, source st = Some s -> In (SourceDisconnected s) evs).
Proof.
  pose proof (cleanup_releases now st) as R. cbn zeta in R.
  pose proof (cleanup_events now st) as Ev.
  pose proof (cleanup_state now st) as St.
  destruct (cleanup now st) as [st1 evs]. cbn [fst snd] in *. subst st1.
  destruct R as [R1 [R2 [R3 _]]].
  split; [reflexivity|]. split; [reflexivity|].
  rewrite Ev.
  split; [now rewrite existsb_app, acquires_stopped, teardown_no_acquire|].
  split; [now rewrite existsb_app, close_request_stopped, teardown_no_close|].
  split.
  { rewrite mics_alive_app, mics_alive_stopped.
    now destruct (teardown_mics st). }
  split.
  { rewrite contexts_open_app, contexts_open_stopped.
    apply teardown_contexts. }
  rewrite <- Ev. auto.
Qed.

(** X13.  [stopSession] asks for the close of the held session exactly
    when one is held and its promise fulfilled, and then tears down as
    [cleanup] does; with no session held it only tears down; and after
    any [stopSession] a further one does nothing at all. *)
Theorem stopSession_once (now later : Q) (c1 c2 : CloseOutcome)
  (st : LiveSessionManager) :
  let '(st1, evs) := stopSession now c1 st in
  st1 = fst (cleanup now st) /\
  filter is_close_request evs
  = match activeSessionPromise st, c1 with
    | Some session, (CloseReturned | CloseThrew) => [CloseRequested session]
    | _, _ => []
    end /\
  (exists closing,
      evs = closing ++ snd (cleanup now st) /\
      existsb releases_resource closing = false) /\
  stopSession later c2 st1 = (st1, []).
Proof.
  unfold stopSession.
  pose proof (cleanup_events now st) as Ev.
  pose proof (cleanup_state now st) as St.
  destruct (cleanup now st) as [st1 evs]. cbn [fst snd] in *. subst st1.
  assert (Hf : filter is_close_request evs = []).
  { rewrite Ev, filter_app.
    rewrite filter_close_stopped. unfold teardown_events.
    now destruct (processor st), (source st), (mediaStream st),
      (inputAudioContext st), (outputAudioContext st). }
  split; [reflexivity|]. split.
  - rewrite filter_app, Hf, app_nil_r.
    destruct (activeSessionPromise st); [|reflexivity].
    destruct c1; reflexivity.
  - split; [|reflexivity].
    eexists. split; [reflexivity|].
    destruct (activeSessionPromise st); [|reflexivity].
    destruct c1; reflexivity.
Qed.

(** *** A whole session *)

Lemma stop_events_replay (now : Q) (st : LiveSessionManager) :
  mics_alive (opt_list (mediaStream st)) (snd (cleanup now st)) = []
  /\ contexts_open (held_contexts st) (snd (cleanup now st)) = []
  /\ (forall open, sessions_open open (snd (cleanup now st)) = open).
Proof.
  rewrite cleanup_events. split; [|split].
  - rewrite mics_alive_app, mics_alive_stopped.
    now destruct (teardown_mics st).
  - rewrite contexts_open_app, contexts_open_stopped.
    apply teardown_contexts.
  - intros open.
    now rewrite sessions_open_app, sessions_open_stopped, teardown_sessions.
Qed.

(** X14.  A whole session: after [startSession] has succeeded, [onopen]
    wires the capture (source and processor), and a later [stopSession]
    undoes all of it: the close of the new session is requested, the
    processor and the source are disconnected, the microphone track is
    stopped and both contexts are closed, so that no microphone stream,
    no audio context and no session is left open, and the manager holds
    nothing but its output node. *)
Theorem session_is_undone_by_stop (now later : Q) (env : StartEnv)
  (st : LiveSessionManager) (stream src proc : nat) :
  getUserMedia env = Some stream ->
  closing env = CloseReturned ->
  let '(res, st1, e1) := startSession now env st in
  let '(st2, e2) := setupAudioInput src proc st1 in
  let '(st3, e3) := stopSession later CloseReturned st2 in
  res = Started /\
  e2 = [CaptureWired src proc] /\
  processor st2 = Some proc /\ source st2 = Some src /\
  In (CloseRequested (newSession env)) e3 /\
  In (ProcessorDisconnected proc) e3 /\
  In (SourceDisconnected src) e3 /\
  In (TrackStopped stream) e3 /\
  In (ContextClosed (newInput env)) e3 /\
  In (ContextClosed (newOutput env)) e3 /\
  st3 = {| activeSessionPromise := None; inputAudioContext := None;
           outputAudioContext := None; mediaStream := None;
           processor := None; source := None; nextStartTime := 0;
           sources := []; outputNode := Some (newGain env) |} /\
  mics_alive (opt_list (mediaStream st)) (e1 ++ e2 ++ e3) = [] /\
  contexts_open (held_contexts st) (e1 ++ e2 ++ e3) = [] /\
  sessions_open (opt_list (activeSessionPromise st)) (e1 ++ e2 ++ e3) = [].
Proof.
  intros Hmic Hclose.
  unfold startSession, stopSession. rewrite Hmic, Hclose.
  destruct (stop_events_replay now st) as [M [C S]].
  pose proof (cleanup_state now st) as St.
  destruct (cleanup now st) as [st0 evs0]. cbn [fst snd] in *. subst st0.
  cbn [activeSessionPromise mediaStream processor source nextStartTime
       sources outputNode inputAudioContext outputAudioContext
       setupAudioInput cleanup stopAudioPlayback set_playback opt_events
       map app ctx_id].
  split; [reflexivity|]. split; [reflexivity|].
  split; [reflexivity|]. split; [reflexivity|].
  split; [cbn; auto|]. split; [cbn; auto|]. split; [cbn; auto|].
  split; [cbn; auto|]. split; [cbn; auto 10|]. split; [cbn; auto 10|].
  split; [reflexivity|].
  split.
  { rewrite !mics_alive_app.
    replace (mics_alive (opt_list (mediaStream st))
               (match activeSessionPromise st with
                | Some session => [CloseRequested session]
                | None => []
                end))
      with (opt_list (mediaStream st))
      by (now destruct (activeSessionPromise st)).
    rewrite M. cbn. now rewrite Nat.eqb_refl. }
  split.
  { rewrite !contexts_open_app.
    replace (contexts_open (held_contexts st)
               (match activeSessionPromise st with
                | Some session => [CloseRequested session]
                | None => []
                end))
      with (held_contexts st)
      by (now destruct (activeSessionPromise st)).
    rewrite C. cbn. rewrite !Nat.eqb_refl. cbn.
    destruct (Nat.eqb (newOutput env) (newInput env)); cbn;
      rewrite ?Nat.eqb_refl; reflexivity. }
  rewrite !sessions_open_app.
  replace (sessions_open (opt_list (activeSessionPromise st))
             (match activeSessionPromise st with
              | Some session => [CloseRequested session]
              | None => []
              end))
    with (@nil nat).
  2:{ destruct (activeSessionPromise st); cbn; [|reflexivity].
      now rewrite Nat.eqb_refl. }
  rewrite S. cbn. now rewrite Nat.eqb_refl.
Qed.

Lemma session_is_undone_by_stop_witness :
  let '(res, st1, e1) := startSession 0 env1 open0 in
  let '(st2, e2) := setupAudioInput 16 17 st1 in
  let '(st3, e3) := stopSession 1 CloseReturned st2 in
  mics_alive [4%nat] (e1 ++ e2 ++ e3) = []
  /\ contexts_open [2%nat; 1%nat] (e1 ++ e2 ++ e3) = []
  /\ sessions_open [5%nat] (e1 ++ e2 ++ e3) = [].
Proof.
  pose proof (@session_is_undone_by_stop 0 1 env1 open0 14%nat 16%nat 17%nat
                eq_refl eq_refl) as H.
  destruct (startSession 0 env1 open0) as [[res st1] e1].
  destruct (setupAudioInput 16 17 st1) as [st2 e2].
  destruct (stopSession 1 CloseReturned st2) as [st3 e3].
  destruct H as [_ [_ [_ [_ [_ [_ [_ [_ [_ [_ [_ [H1 [H2 H3]]]]]]]]]]]]].
  exact (conj H1 (conj H2 H3)).
Defined.

(** X15.  When [getUserMedia] is rejected, [startSession] throws after
    having closed the two contexts it had just created: the manager holds
    no session, no stream and no context, no microphone stream and no
    audio context is left open, and no connection was opened. *)
Theorem denied_start_leaves_nothing (now : Q) (env : StartEnv)
  (st : LiveSessionManager) :
  getUserMedia env = None ->
  let '(res, st1, evs) := startSession now env st in
  res = Thrown /\
  st1 = {| activeSessionPromise := None; inputAudioContext := None;
           outputAudioContext := None; mediaStream := None;
           processor := None; source := None; nextStartTime := 0;
           sources := []; outputNode := Some (newGain env) |} /\
  mics_alive (opt_list (mediaStream st)) evs = [] /\
  contexts_open (held_contexts st) evs = [] /\
  (forall s, ~ In (Connected s) evs) /\
  (forall m, ~ In (MicAcquired m) evs).
Proof.
  intros Hmic.
  pose proof (start_denied now env st Hmic) as H.
  unfold startSession, stopSession in *. rewrite Hmic in *.
  destruct (stop_events_replay now st) as [M [C S]].
  pose proof (cleanup_events now st) as Ev.
  pose proof (cleanup_state now st) as St.
  destruct (cleanup now st) as [st0 evs0]. cbn [fst snd] in *. subst st0.
  cbn [cleanup stopAudioPlayback set_playback sources processor source
       mediaStream inputAudioContext outputAudioContext outputNode
       opt_events map app ctx_id] in *.
  destruct H as [H1 [H2 [_ [_ H5]]]].
  split; [exact H1|]. split; [exact H2|]. split; [exact H5|].
  set (closed := match activeSessionPromise st with
                 | Some session =>
                     match closing env with
                     | CloseReturned => [CloseRequested session]
                     | CloseThrew =>
                         [CloseRequested session;
                          ConsoleWarn "Error closing session:"]
                     | PromiseRejected =>
                         [ConsoleWarn "Error closing session:"]
                     end
                 | None => []
                 end) in *.
  assert (Hc1 : forall open, contexts_open open closed = open).
  { intros open. unfold closed.
    destruct (activeSessionPromise st); [|reflexivity].
    destruct (closing env); reflexivity. }
  assert (Hc2 : forall e, In e closed ->
                          (exists s, e = CloseRequested s)
                          \/ (exists m, e = ConsoleWarn m)).
  { intros e. unfold closed.
    destruct (activeSessionPromise st); [|intros []].
    destruct (closing env); cbn; intros He;
      repeat (destruct He as [<- | He]; eauto); destruct He. }
  split.
  { rewrite !contexts_open_app, Hc1, C. cbn. rewrite !Nat.eqb_refl. cbn.
    destruct (Nat.eqb (newOutput env) (newInput env)); cbn;
      rewrite ?Nat.eqb_refl; reflexivity. }
  assert (Hev0 : forall e, In e evs0 -> releases_resource e = true).
  { intros e He. rewrite Ev in He. apply in_app_or in He.
    destruct He as [He | He].
    - apply in_map_iff in He. now destruct He as [n [<- _]].
    - unfold teardown_events in He.
      destruct (processor st), (source st), (mediaStream st),
        (inputAudioContext st), (outputAudioContext st); cbn in He;
        repeat (destruct He as [<- | He]; [reflexivity|]); destruct He. }
  split; intros x Hin;
    (apply in_app_or in Hin; destruct Hin as [Hin | Hin];
     [apply in_app_or in Hin; destruct Hin as [Hin | Hin];
      [destruct (Hc2 _ Hin) as [[? ?] | [? ?]]; discriminate
      |apply Hev0 in Hin; discriminate]
     |cbn in Hin;
      repeat (destruct Hin as [Hin | Hin]; [discriminate|]);
      destruct Hin]).
Qed.

Lemma denied_start_leaves_nothing_witness :
  let '(res, st1, evs) :=
    startSession 0
      {| closing := CloseReturned; newInput := 11; newOutput := 12;
         newGain := 13; getUserMedia := None; newSession := 15 |} open0 in
  res = Thrown /\ mics_alive [4%nat] evs = []
  /\ contexts_open [2%nat; 1%nat] evs = [].
Proof.
  pose proof (@denied_start_leaves_nothing 0
                {| closing := CloseReturned; newInput := 11;
                   newOutput := 12; newGain := 13; getUserMedia := None;
                   newSession := 15 |} open0 eq_refl) as H.
  cbv beta iota zeta delta [startSession stopSession] in H.
  destruct H as [H1 [_ [H3 [H4 _]]]].
  exact (conj H1 (conj H3 H4)).
Defined.

(** *** After the session has closed *)

(** X16.  Once [onclose] has run, the manager is inert.  [onclose]
    itself only releases resources and then calls [onClose]; it does not
    request a close.  A late [onopen] wires nothing.  A message that is
    still delivered plays nothing and changes nothing; its tool calls
    are nevertheless passed to the callback, one by one, but no response
    is sent for them. *)
Theorem closed_session_is_inert (W : Type) (now later : Q)
  (node src proc : nat) (ocb : option (Callback W))
  (message : LiveServerMessage) (st : LiveSessionManager) (w : W) :
  let '(st1, evs) := onclose now st in
  (exists released,
      evs = released ++ [OnClose]
      /\ forallb releases_resource released = true) /\
  setupAudioInput src proc st1 = (st1, []) /\
  let '(st2, evs2, w2) := handleMessage later node ocb message st1 w in
  st2 = st1 /\
  evs2 = match toolCall message, ocb with
         | Some tc, Some _ => map ToolCallback (functionCalls tc)
         | _, _ => []
         end.
Proof.
  unfold onclose.
  pose proof (cleanup_state now st) as St.
  pose proof (cleanup_events now st) as Ev.
  destruct (cleanup now st) as [st1 evs]. cbn [fst snd] in St, Ev.
  split.
  { exists evs. split; [reflexivity|]. subst evs.
    rewrite forallb_app. apply andb_true_intro. split.
    - induction (sources st) as [|n l IH]; [reflexivity|exact IH].
    - unfold teardown_events.
      now destruct (processor st), (source st), (mediaStream st),
        (inputAudioContext st), (outputAudioContext st). }
  subst st1. split; [reflexivity|].
  assert (Hafter : forall responses,
             afterToolCalls later node responses message
               {| activeSessionPromise := None; inputAudioContext := None;
                  outputAudioContext := None; mediaStream := None;
                  processor := None; source := None; nextStartTime := 0;
                  sources := []; outputNode := outputNode st |}
             = ({| activeSessionPromise := None; inputAudioContext := None;
                   outputAudioContext := None; mediaStream := None;
                   processor := None; source := None; nextStartTime := 0;
                   sources := []; outputNode := outputNode st |}, [])).
  { intros responses.
    unfold afterToolCalls, chunkToDecode, onInterrupted, sendToolResponse.
    cbn [activeSessionPromise outputAudioContext].
    destruct responses, (base64Audio message), (isInterrupted message);
      reflexivity. }
  unfold handleMessage.
  destruct (toolCall message) as [tc|], ocb as [cb|];
    rewrite ?Hafter; try (split; reflexivity).
  pose proof (dispatch_events cb (functionCalls tc) w) as He.
  destruct (dispatch cb (functionCalls tc) w) as [[rs called] w1].
  cbn [fst snd] in He. subst called.
  rewrite Hafter. split; [reflexivity|apply app_nil_r].
Qed.

(** X24.  [onclose] does not look at which connection has closed: it
    tears down whatever the manager holds.  When it runs after a
    successful [startSession] it stops the new microphone stream, closes
    the two new contexts and forgets the new session without requesting
    its close; a [stopSession] that follows does nothing, so no close of
    the new session is requested at all. *)
Theorem close_event_tears_down_current_session (now later last : Q)
  (env : StartEnv) (st : LiveSessionManager) (stream : nat)
  (c : CloseOutcome) :
  getUserMedia env = Some stream ->
  let '(res, st1, e1) := startSession now env st in
  let '(st2, e2) := onclose later st1 in
  let '(st3, e3) := stopSession last c st2 in
  res = Started /\
  activeSessionPromise st1 = Some (newSession env) /\
  In (Connected (newSession env)) e1 /\
  In (TrackStopped stream) e2 /\
  In (ContextClosed (newInput env)) e2 /\
  In (ContextClosed (newOutput env)) e2 /\
  In OnClose e2 /\
  activeSessionPromise st2 = None /\
  e3 = [] /\
  forall s, ~ In (CloseRequested s) (e2 ++ e3).
Proof.
  intros Hmic. unfold startSession, stopSession, onclose. rewrite Hmic.
  pose proof (cleanup_state now st) as St.
  destruct (cleanup now st) as [st0 evs0]. cbn [fst snd] in *. subst st0.
  cbn [activeSessionPromise mediaStream processor source nextStartTime
       sources outputNode inputAudioContext outputAudioContext
       cleanup stopAudioPlayback set_playback opt_events map app ctx_id].
  split; [reflexivity|]. split; [reflexivity|].
  split; [apply in_or_app; right; cbn; auto|].
  split; [cbn; auto|]. split; [cbn; auto|]. split; [cbn; auto|].
  split; [cbn; auto|]. split; [reflexivity|]. split; [reflexivity|].
  intros s. cbn. intros [H | [H | [H | [H | []]]]]; discriminate.
Qed.

Lemma close_event_tears_down_current_session_witness :
  let '(res, st1, e1) := startSession 0 env1 open0 in
  let '(st2, e2) := onclose 1 st1 in
  let '(st3, e3) := stopSession 2 CloseReturned st2 in
  activeSessionPromise st1 = Some 15%nat
  /\ activeSessionPromise st2 = None
  /\ e3 = []
  /\ forall s, ~ In (CloseRequested s) (e2 ++ e3).
Proof.
  pose proof (@close_event_tears_down_current_session 0 1 2 env1 open0
                14%nat CloseReturned eq_refl) as H.
  destruct (startSession 0 env1 open0) as [[res st1] e1].
  destruct (onclose 1 st1) as [st2 e2].
  destruct (stopSession 2 CloseReturned st2) as [st3 e3].
  destruct H as [_ [H1 [_ [_ [_ [_ [_ [H2 [H3 H4]]]]]]]]].
  exact (conj H1 (conj H2 (conj H3 H4))).
Defined.

(** *** Calls, await by await *)


End LifecycleExtras.

(* ================================================================== *)
(** ** Further properties of overlapping handlers *)
(* ================================================================== *)

Module LoopExtras.

Import Pcm.
Import Live.
Import LiveFacts.
Import Loop.
Import Replay.
Import Interleaving.
Import Samples.
Local Open Scope string_scope.
Local Open Scope list_scope.

Lemma tag_same (i : nat) (evs : list Event) :
  map snd (filter (fun p => Nat.eqb (fst p) i) (tag i evs)) = evs.
Proof.
  unfold tag. induction evs as [|e evs IH]; [reflexivity|].
  cbn [map filter fst]. rewrite Nat.eqb_refl. cbn [map snd].
  now rewrite IH.
Qed.

Lemma tag_other (i j : nat) (evs : list Event) :
  j <> i -> filter (fun p => Nat.eqb (fst p) i) (tag j evs) = [].
Proof.
  intros Hne. unfold tag. induction evs as [|e evs IH]; [reflexivity|].
  cbn [map filter fst].
  destruct (Nat.eqb_spec j i) as [E|_]; [contradiction|exact IH].
Qed.

Lemma frames_of_step (i j : nat) (tr : list (nat * Event))
  (evs : list Event) :
  frames_of i (tr ++ tag j evs)
  = frames_of i tr ++ (if Nat.eqb j i then frames_sent evs else []).
Proof.
  unfold frames_of. rewrite filter_app, map_app, frames_sent_app.
  f_equal. destruct (Nat.eqb_spec j i) as [->|Hne].
  - now rewrite tag_same.
  - now rewrite tag_other.
Qed.

Lemma remove_nth_In (A : Type) (k : nat) (l : list A) (x : A) :
  In x (remove_nth k l) -> In x l.
Proof.
  revert k. induction l as [|a l IH]; intros k H.
  - now destruct k.
  - destruct k as [|k]; cbn [remove_nth] in H; [now right|].
    destruct H as [<- | H]; [now left|right; eapply IH; exact H].
Qed.

Lemma remove_nth_split (A : Type) (k : nat) (l : list A) (h x : A) :
  nth_error l k = Some h -> In x l -> x = h \/ In x (remove_nth k l).
Proof.
  revert k. induction l as [|a l IH]; intros k Hk Hx; [destruct Hx|].
  destruct k as [|k]; cbn [nth_error remove_nth] in *.
  - injection Hk as ->. destruct Hx as [<- | Hx]; [now left|now right].
  - destruct Hx as [<- | Hx]; [right; now left|].
    destruct (IH k Hk Hx) as [-> | H]; [now left|right; now right].
Qed.

Lemma remove_nth_NoDup (A : Type) (f : A -> nat) (k : nat) (l : list A)
  (h : A) :
  nth_error l k = Some h -> NoDup (map f l) ->
  NoDup (map f (remove_nth k l))
  /\ (forall x, In x (remove_nth k l) -> f x <> f h).
Proof.
  revert k. induction l as [|a l IH]; intros k Hk Hnd.
  - now destruct k.
  - cbn [map] in Hnd. inversion Hnd as [|? ? Hnot Hnd']. subst.
    destruct k as [|k]; cbn [nth_error remove_nth] in *.
    + injection Hk as ->. split; [exact Hnd'|].
      intros x Hx E. apply Hnot. rewrite <- E. now apply in_map.
    + destruct (IH k Hk Hnd') as [N1 N2]. split.
      * cbn [map]. constructor; [|exact N1].
        intros Hin. apply Hnot. apply in_map_iff in Hin.
        destruct Hin as [x [E Hx]]. rewrite <- E. apply in_map.
        eapply remove_nth_In. exact Hx.
      * intros x [<- | Hx]; [|now apply N2].
        intros E. apply Hnot. rewrite E. apply in_map.
        eapply nth_error_In. exact Hk.
Qed.

(** What one step of a handler's tool loop does: it suspends on the next
    call and sends nothing, or it is over and sends the batch. *)
Lemma continue_cases i now node message responses calls st session :
  activeSessionPromise st = Some session ->
  let '(s, st1, evs) := continue i now node message responses calls st in
  activeSessionPromise st1 = Some session /\
  match calls with
  | fc :: rest =>
      s = Some {| s_index := i; s_message := message;
                  s_responses := responses; s_call := fc; s_rest := rest |}
      /\ frames_sent evs = []
  | [] => s = None /\ frames_sent evs = [(session, responses)]
  end.
Proof.
  intros Hs. unfold continue. destruct calls as [|fc rest].
  - pose proof (frames_sent_afterToolCalls now node (Some responses)
                  message st) as Hf.
    pose proof (afterToolCalls_frame now node (Some responses) message st)
      as Hfr.
    cbn zeta in Hfr. rewrite Hs in Hf.
    destruct (afterToolCalls now node (Some responses) message st)
      as [st1 evs].
    cbn [fst snd] in *. split; [|now split].
    rewrite <- Hs, <- Hfr. reflexivity.
  - split; [exact Hs|]. now split.
Qed.

Lemma start_consistent (st : LiveSessionManager) (session : nat)
  (messages : list LiveServerMessage) :
  activeSessionPromise st = Some session ->
  consistent messages session (start st true messages).
Proof.
  intros Hs. unfold consistent, start.
  cbn [manager hasCallback inbox arrived suspended trace map].
  split; [exact Hs|]. split; [reflexivity|].
  split; [now exists []|]. split; [constructor|].
  split; [intros h []|]. split; [intros i message _ Hi; lia|].
  reflexivity.
Qed.

Lemma NoDup_snoc (l : list nat) (x : nat) :
  NoDup l -> ~ In x l -> NoDup (l ++ [x]).
Proof.
  intros Hnd Hx. induction Hnd as [|a l Ha Hnd IH]; cbn [app].
  - constructor; [intros []|constructor].
  - constructor.
    + intros Hin. apply in_app_or in Hin. destruct Hin as [Hin | [<- | []]].
      * now apply Ha.
      * apply Hx. now left.
    + apply IH. intros Hin. apply Hx. now right.
Qed.

Lemma exec_consistent (messages : list LiveServerMessage) (session : nat)
  (l : Label) (c c1 : Config) :
  consistent messages session c -> exec l c = Some c1 ->
  consistent messages session c1.
Proof.
  intros [I1 [I2 [[delivered [Hall Hlen]] [I4 [I5 [I6 I7]]]]]] E.
  destruct l as [now node | k o now node]; cbn [exec] in E.
  - destruct (inbox c) as [|message queued] eqn:Ei; [discriminate|].
    assert (Hnth : nth_error messages (arrived c) = Some message).
    { rewrite Hall, nth_error_app2 by lia.
      now rewrite Hlen, Nat.sub_diag. }
    assert (Hdel : exists delivered',
               messages = delivered' ++ queued
               /\ List.length delivered' = S (arrived c)).
    { exists (delivered ++ [message]). rewrite <- app_assoc. split.
      - exact Hall.
      - rewrite length_app. cbn. lia. }
    assert (Hfresh : forall h, In h (suspended c) ->
                               s_index h <> arrived c).
    { intros h Hh. destruct (I5 h Hh). lia. }
    assert (Hold : forall evs h,
               In h (suspended c) ->
               (s_index h < S (arrived c))%nat
               /\ in_progress messages
                    (trace c ++ tag (arrived c) evs) h).
    { intros evs h Hh. destruct (I5 h Hh) as [Hlt [P1 [P2 P3]]].
      split; [lia|]. split; [exact P1|]. split; [|exact P3].
      rewrite frames_of_step, P2.
      destruct (Nat.eqb_spec (arrived c) (s_index h)); [lia|].
      reflexivity. }
    assert (Hlater : forall evs i,
               (S (arrived c) <= i)%nat ->
               frames_of i (trace c ++ tag (arrived c) evs) = []).
    { intros evs i Hi. rewrite frames_of_step, I7 by lia.
      destruct (Nat.eqb_spec (arrived c) i); [lia|reflexivity]. }
    assert (Hdone : forall evs i m,
               i <> arrived c ->
               nth_error messages i = Some m -> (i < S (arrived c))%nat ->
               (forall h, In h (suspended c) -> s_index h <> i) ->
               answered session (trace c ++ tag (arrived c) evs) i m).
    { intros evs i m Hne Hm Hi Hnot.
      assert (Ha : answered session (trace c) i m)
        by (apply I6; [exact Hm|lia|exact Hnot]).
      unfold answered in *. rewrite frames_of_step.
      destruct (Nat.eqb_spec (arrived c) i) as [Heq|_];
        [now symmetry in Heq|].
      now rewrite app_nil_r. }
    rewrite I2 in E.
    destruct (toolCall message) as [tc|] eqn:Et.
    + pose proof (@continue_cases (arrived c) now node message []
                    (functionCalls tc) (manager c) session I1) as Hc.
      destruct (continue (arrived c) now node message [] (functionCalls tc)
                  (manager c)) as [[s st1] evs].
      destruct Hc as [Hs1 Hc]. injection E as <-.
      unfold consistent.
      cbn [manager hasCallback inbox arrived suspended trace].
      split; [exact Hs1|]. split; [reflexivity|]. split; [exact Hdel|].
      destruct (functionCalls tc) as [|fc rest] eqn:Ef.
      * destruct Hc as [-> Hfs]. cbn [opt_list]. rewrite app_nil_r.
        split; [exact I4|]. split; [apply Hold|]. split; [|apply Hlater].
        intros i m Hm Hi Hnot.
        destruct (Nat.eq_dec i (arrived c)) as [->|Hne];
          [|now apply Hdone].
        rewrite Hnth in Hm. injection Hm as <-.
        unfold answered. rewrite Et, Ef.
        exists []. rewrite frames_of_step, I7, Nat.eqb_refl, Hfs by lia.
        split; [reflexivity|constructor].
      * destruct Hc as [-> Hfs]. cbn [opt_list].
        split; [|split; [|split]].
        -- rewrite map_app. cbn [map s_index]. apply NoDup_snoc; [exact I4|].
           intros Hin. apply in_map_iff in Hin.
           destruct Hin as [h [Eh Hh]]. now apply (Hfresh h).
        -- intros h Hh. apply in_app_or in Hh.
           destruct Hh as [Hh | [<- | []]]; [now apply Hold|].
           cbn [s_index]. split; [lia|].
           unfold in_progress. cbn [s_index s_message s_call s_rest
                                    s_responses].
           split; [exact Hnth|]. split.
           ++ rewrite frames_of_step, I7, Nat.eqb_refl, Hfs by lia.
              reflexivity.
           ++ exists tc, []. split; [exact Et|].
              split; [exact Ef|constructor].
        -- intros i m Hm Hi Hnot.
           destruct (Nat.eq_dec i (arrived c)) as [->|Hne].
           ++ exfalso.
              apply (Hnot {| s_index := arrived c; s_message := message;
                             s_responses := []; s_call := fc;
                             s_rest := rest |});
                [apply in_or_app; right; now left|reflexivity].
           ++ apply Hdone; [exact Hne|exact Hm|exact Hi|].
              intros h Hh. apply Hnot. apply in_or_app. now left.
        -- apply Hlater.
    + pose proof (frames_sent_afterToolCalls now node None message
                    (manager c)) as Hf.
      pose proof (afterToolCalls_frame now node None message (manager c))
        as Hfr.
      cbn zeta in Hfr.
      destruct (afterToolCalls now node None message (manager c))
        as [st1 evs].
      cbn [fst snd] in Hf, Hfr. injection E as <-.
      unfold consistent.
      cbn [manager hasCallback inbox arrived suspended trace opt_list].
      rewrite app_nil_r.
      split; [rewrite <- I1, <- Hfr; reflexivity|].
      split; [reflexivity|]. split; [exact Hdel|].
      split; [exact I4|]. split; [apply Hold|]. split; [|apply Hlater].
      intros i m Hm Hi Hnot.
      destruct (Nat.eq_dec i (arrived c)) as [->|Hne];
        [|now apply Hdone].
      rewrite Hnth in Hm. injection Hm as <-.
      unfold answered. rewrite Et.
      rewrite frames_of_step, I7, Nat.eqb_refl, Hf by lia. reflexivity.
  - destruct (nth_error (suspended c) k) as [h|] eqn:Ek; [|discriminate].
    assert (Hh : In h (suspended c)) by (eapply nth_error_In; exact Ek).
    destruct (I5 h Hh) as [Hlt [P1 [P2 [tc [done [Pt [Pf Pa]]]]]]].
    destruct (remove_nth_NoDup s_index k (suspended c) Ek I4) as [N1 N2].
    assert (Hold : forall evs h',
               In h' (remove_nth k (suspended c)) ->
               (s_index h' < arrived c)%nat
               /\ in_progress messages
                    (trace c ++ tag (s_index h) evs) h').
    { intros evs h' Hh'. pose proof (N2 h' Hh') as Hne.
      apply remove_nth_In in Hh'.
      destruct (I5 h' Hh') as [Hlt' [Q1 [Q2 Q3]]].
      split; [exact Hlt'|]. split; [exact Q1|]. split; [|exact Q3].
      rewrite frames_of_step, Q2.
      destruct (Nat.eqb_spec (s_index h) (s_index h')) as [Heq|_];
        [now symmetry in Heq|reflexivity]. }
    assert (Hlater : forall evs i,
               (arrived c <= i)%nat ->
               frames_of i (trace c ++ tag (s_index h) evs) = []).
    { intros evs i Hi. rewrite frames_of_step, I7 by lia.
      destruct (Nat.eqb_spec (s_index h) i); [lia|reflexivity]. }
    assert (Hdone : forall evs i m,
               i <> s_index h ->
               nth_error messages i = Some m -> (i < arrived c)%nat ->
               (forall h', In h' (remove_nth k (suspended c)) ->
                           s_index h' <> i) ->
               answered session (trace c ++ tag (s_index h) evs) i m).
    { intros evs i m Hne Hm Hi Hnot.
      assert (Ha : answered session (trace c) i m).
      { apply I6; [exact Hm|exact Hi|]. intros h' Hh'.
        destruct (remove_nth_split k (suspended c) h' Ek Hh') as [-> | Hr].
        - intros Heq. now symmetry in Heq.
        - now apply Hnot. }
      unfold answered in *. rewrite frames_of_step.
      destruct (Nat.eqb_spec (s_index h) i) as [Heq|_];
        [now symmetry in Heq|].
      now rewrite app_nil_r. }
    assert (Hanswer : Forall2 answers (done ++ [s_call h])
                        (s_responses h ++ [respond (s_call h) o])).
    { apply Forall2_app; [exact Pa|]. constructor; [|constructor].
      destruct o; split; reflexivity. }
    pose proof (@continue_cases (s_index h) now node (s_message h)
                  (s_responses h ++ [respond (s_call h) o]) (s_rest h)
                  (manager c) session I1) as Hc.
    destruct (continue (s_index h) now node (s_message h)
                (s_responses h ++ [respond (s_call h) o]) (s_rest h)
                (manager c)) as [[s st1] evs].
    destruct Hc as [Hs1 Hc]. injection E as <-.
    unfold consistent.
    cbn [manager hasCallback inbox arrived suspended trace].
    split; [exact Hs1|]. split; [exact I2|].
    split; [now exists delivered|].
    destruct (s_rest h) as [|fc rest] eqn:Er.
    + destruct Hc as [-> Hfs]. cbn [opt_list]. rewrite app_nil_r.
      split; [exact N1|]. split; [apply Hold|]. split; [|apply Hlater].
      intros i m Hm Hi Hnot.
      destruct (Nat.eq_dec i (s_index h)) as [->|Hne];
        [|now apply Hdone].
      rewrite P1 in Hm. injection Hm as <-.
      unfold answered. rewrite Pt.
      exists (s_responses h ++ [respond (s_call h) o]).
      rewrite frames_of_step, P2, Nat.eqb_refl, Hfs.
      split; [reflexivity|]. rewrite Pf. exact Hanswer.
    + destruct Hc as [-> Hfs]. cbn [opt_list].
      split; [|split; [|split]].
      * rewrite map_app. cbn [map s_index]. apply NoDup_snoc; [exact N1|].
        intros Hin. apply in_map_iff in Hin.
        destruct Hin as [h' [Eh Hh']]. now apply (N2 h').
      * intros h' Hh'. apply in_app_or in Hh'.
        destruct Hh' as [Hh' | [<- | []]]; [now apply Hold|].
        cbn [s_index]. split; [exact Hlt|].
        unfold in_progress.
        cbn [s_index s_message s_call s_rest s_responses].
        split; [exact P1|]. split.
        -- rewrite frames_of_step, P2, Nat.eqb_refl, Hfs. reflexivity.
        -- exists tc, (done ++ [s_call h]). split; [exact Pt|].
           split; [|exact Hanswer].
           rewrite Pf, <- app_assoc. reflexivity.
      * intros i m Hm Hi Hnot.
        destruct (Nat.eq_dec i (s_index h)) as [->|Hne].
        -- exfalso.
           apply (Hnot {| s_index := s_index h; s_message := s_message h;
                          s_responses :=
                            s_responses h ++ [respond (s_call h) o];
                          s_call := fc; s_rest := rest |});
             [apply in_or_app; right; now left|reflexivity].
        -- apply Hdone; [exact Hne|exact Hm|exact Hi|].
           intros h' Hh'. apply Hnot. apply in_or_app. now left.
      * apply Hlater.
Qed.

Lemma run_consistent (messages : list LiveServerMessage) (session : nat)
  (labels : list Label) (c c1 : Config) :
  consistent messages session c -> run labels c = Some c1 ->
  consistent messages session c1.
Proof.
  revert c. induction labels as [|l labels IH]; intros c Hc R.
  - injection R as <-. exact Hc.
  - cbn [run] in R. destruct (exec l c) as [c'|] eqn:E; [|discriminate].
    apply (IH c'); [|exact R]. eapply exec_consistent; eassumption.
Qed.

(** X17.  However the handlers of the messages overlap, responses are
    never mixed up or lost while the session is held: once the handler
    of a delivered message is over, a tool message has been answered by
    exactly one frame, sent on the session, whose responses answer the
    calls of that message one for one and in order, and a message
    without tool call by none; a message whose handler still waits for a
    callback, or that is not yet delivered, has no frame. *)
Theorem overlapping_handlers_answer_own_calls (st : LiveSessionManager)
  (session : nat) (messages : list LiveServerMessage)
  (labels : list Label) (c : Config) :
  activeSessionPromise st = Some session ->
  run labels (start st true messages) = Some c ->
  (forall i message,
      nth_error messages i = Some message -> (i < arrived c)%nat ->
      (forall h, In h (suspended c) -> s_index h <> i) ->
      answered session (trace c) i message) /\
  (forall h, In h (suspended c) -> frames_of (s_index h) (trace c) = []) /\
  (forall i, (arrived c <= i)%nat -> frames_of i (trace c) = []).
Proof.
  intros Hs R.
  destruct (@run_consistent _ _ labels _ _
              (@start_consistent st session messages Hs) R)
    as [_ [_ [_ [_ [I5 [I6 I7]]]]]].
  split; [exact I6|]. split; [|exact I7].
  intros h Hh. now destruct (I5 h Hh) as [_ [_ [P2 _]]].
Qed.

Lemma overlapping_handlers_answer_own_calls_witness :
  exists c,
    run overtaking (start open0 true queue0) = Some c /\
    answered 5 (trace c) 0 (toolMessage [call0]) /\
    answered 5 (trace c) 1 (audioMessage oneFrame false).
Proof.
  eexists. split; [reflexivity|].
  destruct (@overlapping_handlers_answer_own_calls open0 5 queue0
              overtaking _ eq_refl eq_refl) as [H _].
  split; apply H; try reflexivity; cbn; try lia; intros h [].
Defined.

End LoopExtras.

(* ================================================================== *)
(** ** Properties of the application's tool callback *)
(* ================================================================== *)

Module AppExtras.

Import Live.
Import App.
Import AppSamples.
Local Open Scope string_scope.
Local Open Scope list_scope.

(** *** Sets of ids *)

Lemma add_In (x y : string) (s : list string) :
  In y (add x s) <-> y = x \/ In y s.
Proof. unfold add. apply set_add_iff. Qed.

Lemma delete_In (x y : string) (s : list string) :
  NoDup s -> (In y (delete x s) <-> In y s /\ y <> x).
Proof. intros H. unfold delete. now apply set_remove_iff. Qed.

Lemma has_In (x : string) (s : list string) :
  has x s = true <-> In x s.
Proof.
  unfold has. split.
  - apply set_mem_correct1.
  - apply set_mem_correct2.
Qed.

Lemma has_not_In (x : string) (s : list string) :
  has x s = false <-> ~ In x s.
Proof.
  rewrite <- has_In. destruct (has x s).
  - split; [discriminate|]. intros H. now exfalso.
  - split; [discriminate|reflexivity].
Qed.

Lemma add_NoDup (x : string) (s : list string) :
  NoDup s -> NoDup (add x s).
Proof. apply set_add_nodup. Qed.

Lemma delete_NoDup (x : string) (s : list string) :
  NoDup s -> NoDup (delete x s).
Proof. apply set_remove_nodup. Qed.

(** What the selection holds after the update, by action. *)
Lemma updater_spec (action : string) (ids prev : list string) :
  NoDup prev -> NoDup ids ->
  NoDup (updater action ids prev) /\
  forall y,
    In y (updater action ids prev) <->
    if action =? "deselect" then In y prev /\ ~ In y ids
    else if action =? "toggle"
         then (In y prev /\ ~ In y ids) \/ (~ In y prev /\ In y ids)
    else In y prev \/ In y ids.
Proof.
  intros Hp Hi. revert prev Hp.
  induction Hi as [|x ids Hx Hi IH]; intros prev Hp.
  - cbn [updater fold_left]. split; [exact Hp|]. intros y.
    destruct (action =? "deselect"), (action =? "toggle"); cbn [In]; tauto.
  - unfold updater in *. cbn [fold_left].
    destruct (action =? "deselect") eqn:Ed.
    + destruct (IH (delete x prev) (delete_NoDup x Hp)) as [N S].
      split; [exact N|]. intros y. rewrite S, delete_In by exact Hp.
      cbn [In]. destruct (string_dec x y); intuition congruence.
    + destruct (action =? "toggle") eqn:Et.
      * destruct (has x prev) eqn:Eh.
        -- apply has_In in Eh.
           destruct (IH (delete x prev) (delete_NoDup x Hp)) as [N S].
           split; [exact N|]. intros y. rewrite S, delete_In by exact Hp.
           cbn [In]. destruct (string_dec x y) as [<-|Hne];
             intuition congruence.
        -- apply has_not_In in Eh.
           destruct (IH (add x prev) (add_NoDup x Hp)) as [N S].
           split; [exact N|]. intros y. rewrite S, add_In.
           cbn [In]. destruct (string_dec x y) as [<-|Hne];
             intuition congruence.
      * destruct (IH (add x prev) (add_NoDup x Hp)) as [N S].
        split; [exact N|]. intros y. rewrite S, add_In.
        cbn [In]. intuition congruence.
Qed.

(** *** The ids a criteria designates *)

Lemma fold_add_spec (A : Type) (p : A -> bool) (f : A -> string)
  (l : list A) (acc : list string) :
  NoDup acc ->
  NoDup (fold_left (fun s m => if p m then add (f m) s else s) l acc) /\
  forall y,
    In y (fold_left (fun s m => if p m then add (f m) s else s) l acc) <->
    In y acc \/ exists m, In m l /\ p m = true /\ f m = y.
Proof.
  revert acc. induction l as [|a l IH]; intros acc Hacc; cbn [fold_left].
  - split; [exact Hacc|]. intros y. split; [now left|].
    intros [H | [m [[] _]]]. exact H.
  - destruct (p a) eqn:Ep.
    + destruct (IH (add (f a) acc) (add_NoDup (f a) Hacc)) as [N S].
      split; [exact N|]. intros y. rewrite S, add_In. split.
      * intros [[-> | H] | [m [Hm [Hp Hf]]]].
        -- right. exists a. split; [now left|now split].
        -- now left.
        -- right. exists m. split; [now right|now split].
      * intros [H | [m [[<- | Hm] [Hp Hf]]]].
        -- left. now right.
        -- left. left. now symmetry.
        -- right. now exists m.
    + destruct (IH acc Hacc) as [N S]. split; [exact N|].
      intros y. rewrite S. split.
      * intros [H | [m [Hm [Hp Hf]]]]; [now left|].
        right. exists m. split; [now right|now split].
      * intros [H | [m [[<- | Hm] [Hp Hf]]]]; [now left| |].
        -- congruence.
        -- right. now exists m.
Qed.

Lemma all_ids_fold (materials : list Material) :
  all_ids materials
  = fold_left (fun s m => if true then add (id m) s else s) materials [].
Proof.
  unfold all_ids, new_Set. generalize (@nil string).
  induction materials as [|m ms IH]; intros acc; [reflexivity|].
  cbn [map fold_left]. apply IH.
Qed.

Lemma all_ids_spec (materials : list Material) :
  NoDup (all_ids materials) /\
  forall y, In y (all_ids materials) <->
            exists m, In m materials /\ id m = y.
Proof.
  rewrite all_ids_fold.
  destruct (@fold_add_spec Material (fun _ => true) id materials []
              (NoDup_nil string)) as [N S].
  split; [exact N|]. intros y. rewrite S. split.
  - intros [[] | [m [Hm [_ Hf]]]]. now exists m.
  - intros [m [Hm Hf]]. right. now exists m.
Qed.

Lemma matching_spec (criteria : string) (materials : list Material) :
  NoDup (matching criteria materials) /\
  forall y, In y (matching criteria materials) <->
            exists m, In m materials /\ matches criteria m = true
                      /\ id m = y.
Proof.
  destruct (@fold_add_spec Material (matches criteria) id materials []
              (NoDup_nil string)) as [N S].
  split; [exact N|]. intros y. unfold matching. rewrite S. split.
  - now intros [[] | H].
  - intros H. now right.
Qed.

(** X18.  What [select_items] leaves selected.  The criteria ['none']
    empties the selection whatever the action.  Otherwise an id is
    designated when a material with that id matches the criteria (every
    material does for ['all']); then ['deselect'] keeps the selected ids
    that are not designated, ['toggle'] keeps those and adds the
    designated ids that were not selected, and every other action,
    ['select'] or not, adds the designated ids to the selection.  The
    selection stays free of duplicates. *)
Theorem select_items_selection (criteriaArg actionArg : option string)
  (materials : list Material) (prev : list string) :
  NoDup prev ->
  let criteria := criteria_of criteriaArg in
  let action := action_of actionArg in
  let next := fst (select_items criteriaArg actionArg materials prev) in
  let designated y :=
    exists m, In m materials /\ id m = y
              /\ (criteria = "all" \/ matches criteria m = true) in
  NoDup next /\
  forall y,
    In y next <->
    if criteria =? "none" then False
    else if action =? "deselect" then In y prev /\ ~ designated y
    else if action =? "toggle"
         then (In y prev /\ ~ designated y)
              \/ (~ In y prev /\ designated y)
    else In y prev \/ designated y.
Proof.
  intros Hp criteria action next designated.
  unfold next, select_items. fold criteria. fold action.
  destruct (String.eqb_spec criteria "all") as [Ea|Ea].
  - destruct (all_ids_spec materials) as [N S].
    destruct (updater_spec action Hp N) as [N1 S1].
    cbn [modify fst]. split; [exact N1|]. intros y.
    assert (Hd : In y (all_ids materials) <-> designated y).
    { rewrite S. unfold designated. split.
      - intros [m [Hm Hf]]. exists m. split; [exact Hm|].
        split; [exact Hf|now left].
      - intros [m [Hm [Hf _]]]. now exists m. }
    rewrite S1.
    replace (criteria =? "none") with false by (now rewrite Ea).
    destruct (action =? "deselect"), (action =? "toggle"); tauto.
  - destruct (String.eqb_spec criteria "none") as [En|En].
    + cbn [fst]. split; [constructor|]. intros y. cbn [In]. tauto.
    + destruct (matching_spec criteria materials) as [N S].
      destruct (updater_spec action Hp N) as [N1 S1].
      cbn [modify fst]. split; [exact N1|]. intros y.
      assert (Hd : In y (matching criteria materials) <-> designated y).
      { rewrite S. unfold designated. split.
        - intros [m [Hm [Hp' Hf]]]. exists m. split; [exact Hm|].
          split; [exact Hf|now right].
        - intros [m [Hm [Hf [Hc | Hc]]]]; [contradiction|].
          now exists m. }
      rewrite S1.
      destruct (action =? "deselect"), (action =? "toggle"); tauto.
Qed.

Lemma select_items_selection_witness :
  fst (select_items (Some "STEEL") (Some "toggle") plan ["mat-2"])
  = ["mat-2"; "mat-1"]
  /\ NoDup (fst (select_items (Some "STEEL") (Some "toggle") plan
                   ["mat-2"])).
Proof.
  split; [reflexivity|].
  assert (N : NoDup ["mat-2"])
    by (constructor; [intros []|constructor]).
  pose proof (@select_items_selection (Some "STEEL") (Some "toggle") plan
                ["mat-2"] N) as H.
  cbv zeta in H. exact (proj1 H).
Defined.

(** *** Order of the selection *)

Lemma add_present (x : string) (s : list string) :
  In x s -> add x s = s.
Proof.
  unfold add. induction s as [|a s IH]; intros H; [destruct H|].
  cbn [set_add]. destruct (string_dec x a) as [E|E]; [reflexivity|].
  destruct H as [H | H]; [now symmetry in H|]. now rewrite IH.
Qed.

Lemma add_absent (x : string) (s : list string) :
  ~ In x s -> add x s = s ++ [x].
Proof.
  unfold add. induction s as [|a s IH]; intros H; [reflexivity|].
  cbn [set_add app]. destruct (string_dec x a) as [E|E].
  - exfalso. apply H. left. now symmetry.
  - rewrite IH; [reflexivity|]. intros Hin. apply H. now right.
Qed.

Lemma filter_all (A : Type) (p : A -> bool) (l : list A) :
  (forall y, In y l -> p y = true) -> filter p l = l.
Proof.
  induction l as [|a l IH]; intros H; [reflexivity|].
  cbn [filter]. rewrite (H a) by now left.
  rewrite IH; [reflexivity|]. intros y Hy. apply H. now right.
Qed.

Lemma delete_filter (x : string) (s : list string) :
  NoDup s -> delete x s = filter (fun y => negb (y =? x)) s.
Proof.
  unfold delete. induction 1 as [|a s Ha Hs IH]; [reflexivity|].
  cbn [set_remove filter]. destruct (string_dec x a) as [<-|E].
  - rewrite String.eqb_refl. cbn [negb]. symmetry. apply filter_all.
    intros y Hy. destruct (String.eqb_spec y x) as [->|_];
      [contradiction|reflexivity].
  - destruct (String.eqb_spec a x) as [->|_]; [contradiction|].
    cbn [negb]. now rewrite IH.
Qed.

Lemma has_cons (y x : string) (s : list string) :
  has y (x :: s) = (y =? x) || has y s.
Proof.
  unfold has. cbn [set_mem].
  destruct (string_dec y x) as [->|E].
  - now rewrite String.eqb_refl.
  - destruct (String.eqb_spec y x) as [->|_]; [contradiction|reflexivity].
Qed.

Lemma has_snoc (y x : string) (s : list string) :
  y <> x -> has y (s ++ [x]) = has y s.
Proof.
  intros Hne. induction s as [|a s IH]; cbn [app]; rewrite !has_cons.
  - destruct (String.eqb_spec y x) as [->|_]; [contradiction|reflexivity].
  - now rewrite IH.
Qed.

(** X19.  The selection keeps its order, which is the order in which
    [batch_action] later generates the images.  An action other than
    ['deselect'] and ['toggle'] leaves the ids already selected in place
    and appends the newly selected ones in the order they were
    designated; ['deselect'] removes ids without reordering the rest. *)
Theorem selection_keeps_order (action : string) (ids prev : list string) :
  NoDup prev -> NoDup ids ->
  ((action =? "deselect") = false -> (action =? "toggle") = false ->
   updater action ids prev
   = prev ++ filter (fun x => negb (has x prev)) ids) /\
  updater "deselect" ids prev = filter (fun x => negb (has x ids)) prev.
Proof.
  intros Hp Hi. split.
  - intros Ed Et. unfold updater. rewrite Ed, Et. clear Hp.
    revert prev. induction Hi as [|x ids Hx Hi IH]; intros prev.
    + cbn [fold_left filter]. now rewrite app_nil_r.
    + cbn [fold_left filter]. rewrite IH.
      destruct (has x prev) eqn:Eh; cbn [negb].
      * apply has_In in Eh. now rewrite add_present.
      * apply has_not_In in Eh. rewrite add_absent by exact Eh.
        rewrite <- app_assoc. cbn [app]. do 2 f_equal.
        apply filter_ext_in. intros y Hy. rewrite has_snoc; [reflexivity|].
        intros ->. contradiction.
  - unfold updater. cbn [String.eqb Ascii.eqb Bool.eqb]. clear Hi.
    revert prev Hp. induction ids as [|x ids IH]; intros prev Hp.
    + cbn [fold_left]. symmetry. now apply filter_all.
    + cbn [fold_left]. rewrite IH by now apply delete_NoDup.
      rewrite delete_filter by exact Hp.
      induction prev as [|a prev IHp]; [reflexivity|].
      cbn [filter]. rewrite has_cons.
      inversion Hp as [|? ? Ha Hp']. subst.
      destruct (String.eqb_spec a x) as [->|Hne]; cbn [negb orb].
      * now apply IHp.
      * cbn [filter]. destruct (has a ids); cbn [negb];
          now rewrite IHp.
Qed.

Lemma selection_keeps_order_witness :
  updater "select" ["mat-1"; "mat-2"; "mat-4"] ["mat-3"; "mat-2"]
  = ["mat-3"; "mat-2"; "mat-1"; "mat-4"]
  /\ updater "deselect" ["mat-1"; "mat-2"; "mat-4"]
       ["mat-4"; "mat-3"; "mat-2"]
     = ["mat-3"].
Proof.
  assert (N2 : NoDup ["mat-3"; "mat-2"]).
  { constructor; [intros [H | []]; discriminate|].
    constructor; [intros []|constructor]. }
  assert (N3 : NoDup ["mat-1"; "mat-2"; "mat-4"]).
  { constructor; [intros [H | [H | []]]; discriminate|].
    constructor; [intros [H | []]; discriminate|].
    constructor; [intros []|constructor]. }
  assert (N4 : NoDup ["mat-4"; "mat-3"; "mat-2"]).
  { constructor; [intros [H | [H | []]]; discriminate|]. exact N2. }
  split.
  - exact (proj1 (@selection_keeps_order "select" _ _ N2 N3)
             eq_refl eq_refl).
  - exact (proj2 (@selection_keeps_order "select" _ _ N4 N3)).
Defined.

(** *** Toggling twice *)

Lemma updater_toggle_twice (ids prev : list string) :
  NoDup prev -> NoDup ids ->
  NoDup (updater "toggle" ids (updater "toggle" ids prev)) /\
  forall y, In y (updater "toggle" ids (updater "toggle" ids prev))
            <-> In y prev.
Proof.
  intros Hp Hi.
  destruct (updater_spec "toggle" Hp Hi) as [N1 S1].
  destruct (updater_spec "toggle" N1 Hi) as [N2 S2].
  split; [exact N2|]. intros y.
  rewrite S2. cbn [String.eqb Ascii.eqb Bool.eqb].
  rewrite S1. cbn [String.eqb Ascii.eqb Bool.eqb].
  destruct (in_dec string_dec y prev), (in_dec string_dec y ids); tauto.
Qed.

(** X20.  Toggling the same criteria twice over the same materials gives
    back the selection one started from, as a set (its order may have
    changed), for every criteria but ['none']. *)
Theorem toggle_twice_restores (criteriaArg : option string)
  (materials : list Material) (prev : list string) :
  NoDup prev -> criteria_of criteriaArg <> "none" ->
  let once := fst (select_items criteriaArg (Some "toggle") materials prev) in
  let twice := fst (select_items criteriaArg (Some "toggle") materials once) in
  NoDup twice /\ forall y, In y twice <-> In y prev.
Proof.
  intros Hp Hn once twice. unfold twice, once, select_items.
  destruct (criteria_of criteriaArg =? "all").
  - cbn [modify fst action_of truthy].
    apply updater_toggle_twice; [exact Hp|apply all_ids_spec].
  - destruct (String.eqb_spec (criteria_of criteriaArg) "none") as [E|_];
      [contradiction|].
    cbn [modify fst action_of truthy].
    apply updater_toggle_twice; [exact Hp|apply matching_spec].
Qed.

Lemma toggle_twice_restores_witness :
  fst (select_items (Some "component") (Some "toggle") plan
         (fst (select_items (Some "component") (Some "toggle") plan
                 ["mat-1"; "mat-2"])))
  = ["mat-2"; "mat-1"]
  /\ forall y,
       In y (fst (select_items (Some "component") (Some "toggle") plan
                    (fst (select_items (Some "component") (Some "toggle")
                            plan ["mat-1"; "mat-2"]))))
       <-> In y ["mat-1"; "mat-2"].
Proof.
  split; [reflexivity|].
  apply (@toggle_twice_restores (Some "component") plan ["mat-1"; "mat-2"]).
  - constructor; [intros [H | []]; discriminate|].
    constructor; [intros []|constructor].
  - discriminate.
Defined.

(** *** The criteria *)

Lemma includes_empty (s : string) : includes s "" = true.
Proof. now destruct s. Qed.

Lemma matches_empty (m : Material) : matches "" m = true.
Proof. unfold matches. now rewrite includes_empty. Qed.

Lemma matching_empty (materials : list Material) :
  matching "" materials = all_ids materials.
Proof.
  rewrite all_ids_fold. unfold matching. generalize (@nil string).
  induction materials as [|m ms IH]; intros acc; [reflexivity|].
  cbn [fold_left]. rewrite matches_empty. apply IH.
Qed.

Lemma lower_unit_twice (a : ascii) :
  lower_unit (lower_unit a) = lower_unit a.
Proof.
  destruct a as [[] [] [] [] [] [] [] []]; reflexivity.
Qed.

Lemma toLowerCase_twice (s : string) :
  toLowerCase (toLowerCase s) = toLowerCase s.
Proof.
  induction s as [|a s IH]; [reflexivity|].
  cbn [toLowerCase]. now rewrite lower_unit_twice, IH.
Qed.

(** X21.  Edge cases of the criteria of [select_items].  A missing or
    empty criteria designates every material, exactly as ['all'] does,
    because the empty string is included in every string.  ['none']
    empties the selection and replies "Cleared." whatever the action.
    The criteria is compared without regard to case. *)
Theorem criteria_edge_cases (actionArg : option string)
  (materials : list Material) (prev : list string) (c : string) :
  select_items None actionArg materials prev
  = select_items (Some "all") actionArg materials prev /\
  select_items (Some "") actionArg materials prev
  = select_items (Some "all") actionArg materials prev /\
  select_items (Some "none") actionArg materials prev = ([], "Cleared.") /\
  select_items (Some c) actionArg materials prev
  = select_items (Some (toLowerCase c)) actionArg materials prev.
Proof.
  split; [|split; [|split]].
  - unfold select_items.
    cbn [criteria_of toLowerCase truthy String.eqb Ascii.eqb Bool.eqb].
    now rewrite matching_empty.
  - unfold select_items.
    cbn [criteria_of toLowerCase truthy String.eqb Ascii.eqb Bool.eqb].
    now rewrite matching_empty.
  - reflexivity.
  - unfold select_items.
    replace (criteria_of (Some (toLowerCase c))) with (criteria_of (Some c));
      [reflexivity|].
    unfold criteria_of. destruct c as [|a c]; [reflexivity|].
    cbn [toLowerCase truthy]. now rewrite lower_unit_twice, toLowerCase_twice.
Qed.

(** X22.  A category is matched when the criteria is a substring of its
    lower-cased name, not the other way round: of the criteria the tool
    declaration lists, the singular ['component'], ['tool'] and ['step']
    designate the materials of that category, while the plural
    ['components'], ['tools'] and ['steps'] designate a material only
    when its own name contains the word. *)
Theorem plural_criteria_match_by_name_only (m : Material)
  (criteria : string) :
  In (category m) ["Component"; "Tool"; "Step"] ->
  In criteria ["components"; "tools"; "steps"] ->
  matches criteria m = includes (toLowerCase (name m)) criteria
  /\ matches (toLowerCase (category m)) m = true.
Proof.
  intros Hc Hp. unfold matches.
  assert (Hw : (criteria =? "without_images") = false).
  { destruct Hp as [<- | [<- | [<- | []]]]; reflexivity. }
  rewrite Hw. cbn [andb]. rewrite orb_false_r.
  split.
  - destruct Hc as [<- | [<- | [<- | []]]];
      destruct Hp as [<- | [<- | [<- | []]]]; reflexivity.
  - destruct Hc as [<- | [<- | [<- | []]]]; reflexivity.
Qed.

Lemma plural_criteria_match_by_name_only_witness :
  matches "components" beam = false /\ matches "component" beam = true.
Proof.
  destruct (@plural_criteria_match_by_name_only beam "components")
    as [H1 H2]; [now left|now left|].
  split; [exact H1|exact H2].
Defined.

(** *** Rounds of image generation *)

Lemma chunk_loop_spec (ids : list string) (fuel i : nat) :
  (List.length ids - i <= fuel)%nat ->
  List.concat (chunk_loop fuel i ids) = skipn i ids /\
  Forall (fun chunk => (1 <= List.length chunk <= 3)%nat)
    (chunk_loop fuel i ids) /\
  List.length (chunk_loop fuel i ids)
  = ((List.length ids - i + 2) / 3)%nat.
Proof.
  revert i. induction fuel as [|fuel IH]; intros i Hf.
  - cbn [chunk_loop List.concat List.length].
    rewrite skipn_all2 by lia.
    replace (List.length ids - i)%nat with 0%nat by lia.
    split; [reflexivity|]. split; [constructor|reflexivity].
  - cbn [chunk_loop]. destruct (Nat.ltb_spec i (List.length ids)) as [Hi|Hi].
    + destruct (IH (i + 3)%nat) as [C [F L]]; [lia|].
      cbn [List.concat List.length]. rewrite C, L. unfold slice.
      replace (i + 3 - i)%nat with 3%nat by lia.
      split; [|split].
      * replace (i + 3)%nat with (3 + i)%nat by lia.
        rewrite <- skipn_skipn. apply firstn_skipn.
      * constructor; [|exact F].
        rewrite length_firstn, length_skipn. lia.
      * destruct (le_lt_dec 3 (List.length ids - i)) as [Hd|Hd].
        -- replace (List.length ids - i + 2)%nat
             with (List.length ids - (i + 3) + 2 + 1 * 3)%nat by lia.
           rewrite Nat.div_add by discriminate. lia.
        -- replace (List.length ids - (i + 3))%nat with 0%nat by lia.
           assert (Hc : (List.length ids - i = 1 \/ List.length ids - i = 2)%nat)
             by lia.
           destruct Hc as [-> | ->]; reflexivity.
    + cbn [List.concat List.length]. rewrite skipn_all2 by lia.
      replace (List.length ids - i)%nat with 0%nat by lia.
      split; [reflexivity|]. split; [constructor|reflexivity].
Qed.

Lemma chunk_loop_fuel (ids : list string) (fuel fuel' i : nat) :
  (List.length ids - i <= fuel)%nat ->
  (List.length ids - i <= fuel')%nat ->
  chunk_loop fuel i ids = chunk_loop fuel' i ids.
Proof.
  revert fuel' i. induction fuel as [|fuel IH]; intros fuel' i H H'.
  - destruct fuel' as [|fuel']; [reflexivity|]. cbn [chunk_loop].
    destruct (Nat.ltb_spec i (List.length ids)); [lia|reflexivity].
  - cbn [chunk_loop].
    destruct (Nat.ltb_spec i (List.length ids)) as [Hi|Hi].
    + destruct fuel' as [|fuel']; [lia|]. cbn [chunk_loop].
      destruct (Nat.ltb_spec i (List.length ids)); [|lia].
      f_equal. apply IH; lia.
    + destruct fuel' as [|fuel']; [reflexivity|]. cbn [chunk_loop].
      destruct (Nat.ltb_spec i (List.length ids)); [lia|reflexivity].
Qed.

(** X23.  The loop that generates the images of the selection, in
    [batch_action] and in [handleBatchGenerate], ends, and hands every
    selected id to [handleGenerateItemImage] exactly once and in the
    order of the selection, in rounds of at most three: every round is
    non-empty, and there are as many rounds as the number of ids divided
    by three, rounded up.  [batch_action] starts no round for an empty
    selection and replies "No selection.". *)
Theorem batch_rounds_cover_selection (selectedIds : list string)
  (k : nat) :
  chunk_loop (List.length selectedIds + k) 0 selectedIds
  = rounds selectedIds /\
  List.concat (rounds selectedIds) = selectedIds /\
  Forall (fun chunk => (1 <= List.length chunk <= 3)%nat)
    (rounds selectedIds) /\
  List.length (rounds selectedIds)
  = ((List.length selectedIds + 2) / 3)%nat /\
  match batch_action (Some "generate_images") selectedIds with
  | (Generate chunks, _) =>
      selectedIds <> [] /\ chunks = rounds selectedIds
  | (Nothing, reply) => selectedIds = [] /\ reply = "No selection."
  | (ClearSelection, _) => False
  end.
Proof.
  destruct (@chunk_loop_spec selectedIds (List.length selectedIds) 0)
    as [C [F L]]; [lia|].
  rewrite Nat.sub_0_r in L.
  split; [apply chunk_loop_fuel; lia|].
  split; [exact C|]. split; [exact F|]. split; [exact L|].
  destruct selectedIds as [|x ids]; [now split|].
  cbn [batch_action truthy String.eqb Ascii.eqb Bool.eqb List.length Nat.eqb].
  split; [discriminate|reflexivity].
Qed.

Example rounds_of_seven :
  rounds ["a"; "b"; "c"; "d"; "e"; "f"; "g"]
  = [["a"; "b"; "c"]; ["d"; "e"; "f"]; ["g"]].
Proof. reflexivity. Qed.

End AppExtras.
